(** * A shallow embedding of [advanced-vector/vector.h]

    The header defines two class templates: [RawMemory<T>], an owner of a
    region of raw storage for [capacity_] objects of type [T], and
    [Vector<T>], a growable array that keeps its [size_] live elements in
    the first slots of one [RawMemory<T>].

    The embedding makes explicit what the C++ leaves to the language:
    - the free store, as a finite map from block identities to arrays of
      slots, each slot raw or holding a live object;
    - object lifetime: placement [new] fills a slot, a destructor call
      empties it, and an object whose storage is released or overwritten
      while it is alive is recorded as leaked;
    - the [Vector] objects themselves, as a finite map from addresses,
      so that [this != &rhs] is a comparison of addresses;
    - exceptions, as one of three outcomes of every computation, next to
      a normal return and to going wrong (undefined behaviour, a failed
      [assert], a member function that does not compile for [T]);
    - the element type [T], as a type class with the special member
      functions and the three type traits the header queries.

    Conventions of the model:
    - sizes ([size_t]) are natural numbers, but for the one product the
      header computes, [n * sizeof(T)] in [Allocate], which wraps as
      the machine's [size_t] does;
    - the free store is a parameter of the machine: the size of [T],
      the modulus of [size_t] and the bytes [operator new] can hand
      out before it throws [std::bad_alloc].  Statements that name no
      store are about the idealised one, whose sizes do not wrap and
      which never runs out;
    - destructors do not throw;
    - the [assert]s of the header are kept (a build without [NDEBUG]);
    - the algorithms of the standard library follow the C++ standard;
      where it leaves the order of the clean-up destructions open, the
      object constructed last is destroyed last;
    - the object an argument of [PushBack], [Insert], [Emplace] or
      [EmplaceBack] refers to is the caller's, outside the free store,
      and is carried by value; [PushBack_const_at] takes the address of
      an argument in the free store, an element of a vector perhaps. *)

From stdpp Require Import gmap list.
From Stdlib Require Import ZArith Lia.

Open Scope Z_scope.
Open Scope nat_scope.

(** ** Pointers *)

(** A region returned by [operator new] is identified by a [block]. *)
Abbreviation block := positive.

(** A [T*]: the block it points into ([None] for a pointer derived from
    [nullptr]) and an element offset inside it. *)
Record ptr := Ptr { base : option block; off : Z }.

Definition nullptr : ptr := Ptr None 0.

#[global] Instance ptr_eq_dec : EqDecision ptr.
Proof. solve_decision. Defined.

(** [p + n] *)
Definition ptr_add (p : ptr) (n : Z) : ptr := Ptr (base p) (off p + n).

(** [p - q]; defined only for two pointers into the same array (or two
    null pointers). *)
Definition ptr_diff (p q : ptr) : option Z :=
  if decide (base p = base q) then Some (off p - off q)%Z else None.

(** ** The element type *)

(** What the header needs from [T].  [E] is the state the special member
    functions of [T] may read and write (an instance counter, a budget of
    constructions that succeed, ...).  An operation that throws yields
    [None] (or [false]) together with the state it leaves behind. *)
Class Element (T E : Type) := {
  (** [T()] *)
  value_ctor : E -> option T * E;
  (** [T(const T&)]: the source is not modified *)
  copy_ctor : T -> E -> option T * E;
  (** [T(T&&)]: the new object, and the source as it is left *)
  move_ctor : T -> E -> option T * T * E;
  (** [dst = src]: whether it completed, and [dst] as it is left *)
  copy_assign : T -> T -> E -> bool * T * E;
  (** [dst = std::move(src)]: whether it completed, [dst] and [src] as
      they are left *)
  move_assign : T -> T -> E -> bool * T * T * E;
  (** [~T()] *)
  dtor : T -> E -> E;
  (** Whether an assignment may be the first thing done to storage
      that [operator new] returned.  For a trivially copyable
      implicit-lifetime type (a scalar, a class whose constructors,
      assignments and destructor are trivial) [operator new] creates an
      object in that storage wherever the program needs one, and
      [Some d] stands for that object, whose value is indeterminate.
      [None] for any other [T]: an object exists only once a
      constructor has run. *)
  implicit_object : option T;
  is_nothrow_move_constructible : bool;
  is_copy_constructible : bool;
  is_nothrow_move_assignable : bool
}.

(** What the traits promise and what copying and moving mean: a
    completed copy or move yields the value of its source, and an
    operation the compiler sees as [noexcept] does not throw. *)
Class ElementLaws (T E : Type) `{!Element T E} : Prop := {
  copy_ctor_value x e y e' : copy_ctor x e = (Some y, e') -> y = x;
  move_ctor_value x e y x' e' : move_ctor x e = (Some y, x', e') -> y = x;
  copy_assign_value d x e d' e' : copy_assign d x e = (true, d', e') -> d' = x;
  move_assign_value d x e d' x' e' :
    move_assign d x e = (true, d', x', e') -> d' = x;
  nothrow_move_ctor x e :
    is_nothrow_move_constructible = true -> is_Some (move_ctor x e).1.1;
  nothrow_move_assign d x e :
    is_nothrow_move_assignable = true -> (move_assign d x e).1.1.1 = true
}.

(** ** Outcomes *)

Inductive fault :=
  | UndefinedBehaviour   (* access outside an object's lifetime or storage *)
  | AssertionFailed      (* an [assert] of the header does not hold *)
  | IllFormed.           (* the member function does not compile for [T] *)

(** A computation returns, throws (the state is the one reached when the
    exception leaves), or goes wrong. *)
Inductive Res (S A : Type) :=
  | Ret (a : A) (s : S)
  | Throw (s : S)
  | Fault (f : fault).
Arguments Ret {S A} a s.
Arguments Throw {S A} s.
Arguments Fault {S A} f.

Definition Comp (S A : Type) := S -> Res S A.

Definition ret {S A} (a : A) : Comp S A := fun s => Ret a s.
Definition bind {S A B} (m : Comp S A) (k : A -> Comp S B) : Comp S B :=
  fun s => match m s with
           | Ret a s' => k a s'
           | Throw s' => Throw s'
           | Fault f => Fault f
           end.
Definition throw {S A} : Comp S A := fun s => Throw s.
Definition fail {S A} (f : fault) : Comp S A := fun _ => Fault f.

Notation "'let*' x ':=' m 'in' k" := (bind m (fun x => k))
  (at level 10, x pattern, m at level 100, k at level 200).
Notation "m '>>' k" := (bind m (fun _ => k))
  (at level 100, k at level 200, right associativity).

(** [assert(b)] *)
Definition assert {S} (b : bool) : Comp S unit :=
  if b then ret tt else fail AssertionFailed.

(** [try { m } catch (...) { h }] *)
Definition try_catch {S A} (m h : Comp S A) : Comp S A :=
  fun s => match m s with
           | Throw s' => h s'
           | r => r
           end.

(** [try { m } catch (...) { c; throw; }], also the unwinding of a scope
    whose clean-up is [c]. *)
Definition on_unwind {S A} (m : Comp S A) (c : Comp S unit) : Comp S A :=
  try_catch m (c >> throw).

(** ** The free store *)

(** What [operator new] and [size_t] are on the machine at hand:
    [sizeof(T)]; the modulus of [size_t] arithmetic ([2^64] for a
    [size_t] of 64 bits; [None] for sizes that do not wrap); and
    whether [operator new(bytes)] returns or throws [std::bad_alloc],
    given the bytes of the regions in use. *)
Class FreeStore := {
  sizeof : positive;
  size_modulus : option N;
  new_returns : N -> N -> bool
}.

(** The idealised store: sizes do not wrap and [operator new] always
    returns.  A statement that names no store is about this one: it
    says what the header does as long as memory is there and no size
    wraps.  The statements of the last part hold on every store. *)
#[global] Instance ideal_store : FreeStore | 100 :=
  {| sizeof := 1; size_modulus := None; new_returns := fun _ _ => true |}.

(** [n * sizeof(T)], computed in [size_t]. *)
Definition request_bytes `{FreeStore} (n : nat) : N :=
  match size_modulus with
  | Some m => ((N.of_nat n * N.pos sizeof) mod m)%N
  | None => (N.of_nat n * N.pos sizeof)%N
  end.

(** The objects of type [T] a region of so many bytes has room for. *)
Definition slots_in `{FreeStore} (bytes : N) : nat :=
  N.to_nat (bytes / N.pos sizeof).

(** [n * sizeof(T)] does not wrap. *)
Definition fits_size_t `{FreeStore} (n : nat) : Prop :=
  match size_modulus with
  | Some m => (N.of_nat n * N.pos sizeof < m)%N
  | None => True
  end.

(** ** The machine state *)

(** A [Vector<T>] object is identified by its address. *)
Abbreviation vaddr := positive.

(** [RawMemory<T>]: the data members [buffer_] and [capacity_]. *)
Record RawMemory := mkRawMemory { buffer_ : ptr; capacity_ : nat }.

(** [Vector<T>]: the data members [data_] and [size_]. *)
Record Vector := mkVector { data_ : RawMemory; size_ : nat }.

Section Machine.
Context {T E : Type} {elem : Element T E} {free_store : FreeStore}.

(** The slots of a block: [None] is raw storage, [Some x] a live [x]. *)
#[local] Abbreviation slots := (list (option T)).

Record State := mkState {
  objs : gmap vaddr Vector;     (* the Vector objects of the program *)
  heap : gmap block slots;      (* the regions obtained from operator new *)
  env : E;                      (* the state of the element type *)
  leaked : list T               (* objects that lost their storage alive *)
}.

Definition set_objs (f : gmap vaddr Vector -> gmap vaddr Vector) (s : State) :=
  mkState (f (objs s)) (heap s) (env s) (leaked s).
Definition set_heap (f : gmap block slots -> gmap block slots) (s : State) :=
  mkState (objs s) (f (heap s)) (env s) (leaked s).
Definition set_env (e : E) (s : State) :=
  mkState (objs s) (heap s) e (leaked s).
Definition add_leaked (l : list T) (s : State) :=
  mkState (objs s) (heap s) (env s) (leaked s ++ l).

Abbreviation M := (Comp State).

(** The storage a pointer designates: its block, the index in it and the
    block's slots; [None] when the pointer does not point into a region
    that is allocated. *)
Definition storage (p : ptr) (h : gmap block slots) : option (block * nat * slots) :=
  match base p with
  | None => None
  | Some b =>
      match h !! b with
      | None => None
      | Some sl =>
          if decide (0 <= off p < Z.of_nat (length sl))%Z
          then Some (b, Z.to_nat (off p), sl) else None
      end
  end.

(** The object a pointer designates, if one is alive there. *)
Definition object_at (p : ptr) (h : gmap block slots) : option T :=
  match storage p h with
  | Some (_, i, sl) => mjoin (sl !! i)
  | None => None
  end.

(** [*p] read *)
Definition load (p : ptr) : M T :=
  fun s => match object_at p (heap s) with
           | Some x => Ret x s
           | None => Fault UndefinedBehaviour
           end.

(** A write to the object at [p] (the object stays the same object). *)
Definition store (p : ptr) (x : T) : M unit :=
  fun s => match storage p (heap s) with
           | Some (b, i, sl) =>
               match sl !! i with
               | Some (Some _) => Ret tt (set_heap <[b := <[i := Some x]> sl]> s)
               | _ => Fault UndefinedBehaviour
               end
           | None => Fault UndefinedBehaviour
           end.

(** The end of a constructor call [new (p) T(...)] that produced [x]:
    the object starts to live at [p].  An object that was still alive
    there is never destroyed. *)
Definition emplace_at (p : ptr) (x : T) : M unit :=
  fun s => match storage p (heap s) with
           | Some (b, i, sl) =>
               Ret tt (add_leaked (option_list (mjoin (sl !! i)))
                         (set_heap <[b := <[i := Some x]> sl]> s))
           | None => Fault UndefinedBehaviour
           end.

(** [std::destroy_at(p)], [p->~T()] *)
Definition destroy_at (p : ptr) : M unit :=
  fun s => match storage p (heap s) with
           | Some (b, i, sl) =>
               match sl !! i with
               | Some (Some x) =>
                   Ret tt (set_env (dtor x (env s))
                             (set_heap <[b := <[i := None]> sl]> s))
               | _ => Fault UndefinedBehaviour
               end
           | None => Fault UndefinedBehaviour
           end.

(** The object an assignment through [p] assigns to: the object alive
    at [p], or, in storage where no constructor has run, the object of
    an implicit-lifetime [T] that [operator new] created there. *)
Definition assignee (p : ptr) : M T :=
  fun s => match storage p (heap s) with
           | Some (_, i, sl) =>
               match sl !! i, implicit_object with
               | Some (Some x), _ => Ret x s
               | Some None, Some d => Ret d s
               | _, _ => Fault UndefinedBehaviour
               end
           | None => Fault UndefinedBehaviour
           end.

(** The write an assignment through [p] does: to the object [assignee]
    found; that object is alive afterwards. *)
Definition assign (p : ptr) (x : T) : M unit :=
  fun s => match storage p (heap s) with
           | Some (b, i, sl) =>
               match sl !! i, implicit_object with
               | Some (Some _), _ | Some None, Some _ =>
                   Ret tt (set_heap <[b := <[i := Some x]> sl]> s)
               | _, _ => Fault UndefinedBehaviour
               end
           | None => Fault UndefinedBehaviour
           end.

(** *** Constructor and assignment calls on storage *)

(** [new (dst) T()] *)
Definition value_construct (dst : ptr) : M unit :=
  fun s => match value_ctor (env s) with
           | (Some y, e') => emplace_at dst y (set_env e' s)
           | (None, e') => Throw (set_env e' s)
           end.

(** [new (dst) T(x)] for the [const T&] argument [x = *src] *)
Definition copy_construct (src dst : ptr) : M unit :=
  if is_copy_constructible then
    let* x := load src in
    fun s => match copy_ctor x (env s) with
             | (Some y, e') => emplace_at dst y (set_env e' s)
             | (None, e') => Throw (set_env e' s)
             end
  else fail IllFormed.

(** [new (dst) T(std::move(x))] for [x = *src] *)
Definition move_construct (src dst : ptr) : M unit :=
  let* x := load src in
  fun s => match move_ctor x (env s) with
           | (r, x', e') =>
               (store src x' >>
                match r with
                | Some y => emplace_at dst y
                | None => throw
                end) (set_env e' s)
           end.

(** [*dst = *src] with [*src] a [const T&] *)
Definition copy_assign_at (src dst : ptr) : M unit :=
  let* x := load src in
  let* d := assignee dst in
  fun s => match copy_assign d x (env s) with
           | (ok, d', e') =>
               (assign dst d' >> if ok then ret tt else throw) (set_env e' s)
           end.

(** [*dst = std::move( *src )] *)
Definition move_assign_at (src dst : ptr) : M unit :=
  let* x := load src in
  let* d := assignee dst in
  fun s => match move_assign d x (env s) with
           | (ok, d', x', e') =>
               (store src x' >> assign dst d' >>
                if ok then ret tt else throw) (set_env e' s)
           end.

(** *** The algorithms of [<memory>] and [<algorithm>] the header calls *)

(** [std::destroy_n(p, n)] *)
Fixpoint destroy_n (p : ptr) (n : nat) : M unit :=
  match n with
  | 0 => ret tt
  | S n' => destroy_at p >> destroy_n (ptr_add p 1) n'
  end.

(** [std::uninitialized_value_construct_n(p, n)]: if a constructor
    throws, the objects already constructed are destroyed and the
    exception is rethrown. *)
Fixpoint uninitialized_value_construct_n (p : ptr) (n : nat) : M unit :=
  match n with
  | 0 => ret tt
  | S n' =>
      value_construct p >>
      on_unwind (uninitialized_value_construct_n (ptr_add p 1) n') (destroy_at p)
  end.

(** [std::uninitialized_copy_n(first, n, d_first)], same clean-up. *)
Fixpoint uninitialized_copy_n (first : ptr) (n : nat) (d_first : ptr) : M unit :=
  match n with
  | 0 => ret tt
  | S n' =>
      copy_construct first d_first >>
      on_unwind (uninitialized_copy_n (ptr_add first 1) n' (ptr_add d_first 1))
                (destroy_at d_first)
  end.

(** [std::uninitialized_move_n(first, n, d_first)], same clean-up; the
    sources already moved from stay as the moves left them. *)
Fixpoint uninitialized_move_n (first : ptr) (n : nat) (d_first : ptr) : M unit :=
  match n with
  | 0 => ret tt
  | S n' =>
      move_construct first d_first >>
      on_unwind (uninitialized_move_n (ptr_add first 1) n' (ptr_add d_first 1))
                (destroy_at d_first)
  end.

(** [std::copy_n(first, n, d_first)] *)
Fixpoint copy_n (first : ptr) (n : nat) (d_first : ptr) : M unit :=
  match n with
  | 0 => ret tt
  | S n' =>
      copy_assign_at first d_first >>
      copy_n (ptr_add first 1) n' (ptr_add d_first 1)
  end.

(** The loop of [std::move_backward]: [n] times, step both pointers
    back and move-assign the object at [last] to the one at [d_last]. *)
Fixpoint move_backward_loop (last : ptr) (n : nat) (d_last : ptr) : M unit :=
  match n with
  | 0 => ret tt
  | S n' =>
      move_assign_at (ptr_add last (-1)) (ptr_add d_last (-1)) >>
      move_backward_loop (ptr_add last (-1)) n' (ptr_add d_last (-1))
  end.

(** [std::move_backward(first, last, d_last)]; [[first, last)] has to be
    a range. *)
Definition move_backward (first last d_last : ptr) : M unit :=
  match ptr_diff last first with
  | Some n => if decide (0 <= n)%Z then move_backward_loop last (Z.to_nat n) d_last
              else fail UndefinedBehaviour
  | None => fail UndefinedBehaviour
  end.

(** ** [RawMemory<T>] *)

(** [RawMemory() = default] *)
Definition RawMemory_default : RawMemory := mkRawMemory nullptr 0.

(** The bytes of the regions obtained from [operator new]. *)
Definition heap_bytes (h : gmap block slots) : N :=
  map_fold (fun _ sl acc => (acc + N.of_nat (length sl) * N.pos sizeof)%N) 0%N h.

(** Whether [operator new(bytes)] returns. *)
Definition new_succeeds (bytes : N) (h : gmap block slots) : bool :=
  new_returns (heap_bytes h) bytes.

(** [static T* Allocate(size_t n)]: [nullptr] for [n == 0]; otherwise
    [operator new(n * sizeof(T))], the product taken in [size_t]: a
    fresh region of that many bytes, all raw, or [std::bad_alloc]. *)
Definition Allocate (n : nat) : M ptr :=
  if decide (n <> 0) then
    fun s =>
      if new_succeeds (request_bytes n) (heap s) then
        let b := fresh (dom (heap s)) in
        Ret (Ptr (Some b) 0)
            (set_heap <[b := replicate (slots_in (request_bytes n)) None]> s)
      else Throw s
  else ret nullptr.

(** The objects alive in a block. *)
Definition live_objects (sl : slots) : list T := omap id sl.

(** [static void Deallocate(T* buf)], that is [operator delete(buf)]:
    nothing for [nullptr]; for the start of an allocated region, the
    region is released and the objects still alive in it are lost; any
    other pointer (region already released, interior pointer) is
    undefined behaviour. *)
Definition Deallocate (buf : ptr) : M unit :=
  fun s =>
    match base buf with
    | None => if decide (off buf = 0%Z) then Ret tt s else Fault UndefinedBehaviour
    | Some b =>
        match heap s !! b with
        | Some sl =>
            if decide (off buf = 0%Z)
            then Ret tt (add_leaked (live_objects sl) (set_heap (delete b) s))
            else Fault UndefinedBehaviour
        | None => Fault UndefinedBehaviour
        end
    end.

(** [explicit RawMemory(size_t capacity)] *)
Definition RawMemory_ctor (capacity : nat) : M RawMemory :=
  let* buf := Allocate capacity in
  ret (mkRawMemory buf capacity).

Definition GetAddress (r : RawMemory) : ptr := buffer_ r.
Definition RawMemory_Capacity (r : RawMemory) : nat := capacity_ r.

(** [RawMemory(RawMemory&& other) noexcept]: the new object, and [other]
    as the constructor leaves it.  [std::move] of the pointer that
    [other.GetAddress()] returns copies the pointer; no statement writes
    to [other]. *)
Definition RawMemory_move_ctor (other : RawMemory) : RawMemory * RawMemory :=
  (mkRawMemory (GetAddress other) (RawMemory_Capacity other), other).

(** [RawMemory& operator=(RawMemory&& rhs) noexcept]: [*this] and [rhs]
    as the assignment leaves them. *)
Definition RawMemory_move_assign (this rhs : RawMemory) : RawMemory * RawMemory :=
  (mkRawMemory (GetAddress rhs) (RawMemory_Capacity rhs), rhs).

(** [~RawMemory()] *)
Definition RawMemory_dtor (r : RawMemory) : M unit := Deallocate (buffer_ r).

(** [T* operator+(size_t offset) noexcept] *)
Definition RawMemory_plus (r : RawMemory) (offset : nat) : M ptr :=
  assert (offset <=? capacity_ r) >>
  ret (ptr_add (buffer_ r) (Z.of_nat offset)).

(** [T& operator[](size_t index) noexcept]; the result is the address of
    the object the reference denotes. *)
Definition RawMemory_at (r : RawMemory) (index : nat) : M ptr :=
  assert (index <? capacity_ r) >>
  ret (ptr_add (buffer_ r) (Z.of_nat index)).

(** [void Swap(RawMemory& other) noexcept]: [*this] and [other] after
    the call. *)
Definition RawMemory_Swap (this other : RawMemory) : RawMemory * RawMemory :=
  (mkRawMemory (buffer_ other) (capacity_ other),
   mkRawMemory (buffer_ this) (capacity_ this)).

(** A block scope that declares a local [RawMemory<T> r(capacity)].  The
    destructor of [r] runs when control leaves the scope, at its end or
    with an exception.  [body] returns its result together with [r] as
    the end of the scope finds it; in every scope of the header, a
    statement that can throw an exception out of the scope comes before
    the first write to [r]. *)
Definition with_RawMemory {A} (capacity : nat)
    (body : RawMemory -> M (A * RawMemory)) : M A :=
  let* r := RawMemory_ctor capacity in
  let* ar := on_unwind (body r) (RawMemory_dtor r) in
  RawMemory_dtor ar.2 >> ret ar.1.

(** ** [Vector<T>] *)

(** The object at address [this]. *)
Definition get_obj (this : vaddr) : M Vector :=
  fun s => match objs s !! this with
           | Some v => Ret v s
           | None => Fault UndefinedBehaviour
           end.
Definition put_obj (this : vaddr) (v : Vector) : M unit :=
  fun s => Ret tt (set_objs <[this := v]> s).
Definition drop_obj (this : vaddr) : M unit :=
  fun s => Ret tt (set_objs (delete this) s).

(** Assignments to one data member. *)
Definition set_size (this : vaddr) (n : nat) : M unit :=
  let* v := get_obj this in put_obj this (mkVector (data_ v) n).
Definition set_data (this : vaddr) (d : RawMemory) : M unit :=
  let* v := get_obj this in put_obj this (mkVector d (size_ v)).

(** [++size_] and [size_ -= 1] *)
Definition incr_size (this : vaddr) : M unit :=
  let* v := get_obj this in put_obj this (mkVector (data_ v) (size_ v + 1)).
Definition decr_size (this : vaddr) : M unit :=
  let* v := get_obj this in put_obj this (mkVector (data_ v) (size_ v - 1)).

(** [a.data_.Swap(b.data_)] *)
Definition swap_data (a b : vaddr) : M unit :=
  let* va := get_obj a in
  let* vb := get_obj b in
  set_data a (RawMemory_Swap (data_ va) (data_ vb)).1 >>
  set_data b (RawMemory_Swap (data_ va) (data_ vb)).2.

(** [std::swap(a.size_, b.size_)] *)
Definition swap_size (a b : vaddr) : M unit :=
  let* va := get_obj a in
  let* vb := get_obj b in
  set_size a (size_ vb) >> set_size b (size_ va).

(** [data_.Swap(new_data)] for a local [new_data]; returns the local. *)
Definition swap_data_local (this : vaddr) (new_data : RawMemory) : M RawMemory :=
  let* v := get_obj this in
  set_data this (RawMemory_Swap (data_ v) new_data).1 >>
  ret (RawMemory_Swap (data_ v) new_data).2.

(** [Vector() = default], constructing the object at [this]. *)
Definition Vector_ctor_default (this : vaddr) : M unit :=
  put_obj this (mkVector RawMemory_default 0).

(** [explicit Vector(size_t size)].  When the body throws, the member
    [data_], already constructed, is destroyed and no object comes to
    exist at [this]. *)
Definition Vector_ctor_sized (this : vaddr) (size : nat) : M unit :=
  let* data := RawMemory_ctor size in
  on_unwind (uninitialized_value_construct_n (GetAddress data) size)
            (RawMemory_dtor data) >>
  put_obj this (mkVector data size).

(** [Vector(const Vector& other)] *)
Definition Vector_ctor_copy (this other : vaddr) : M unit :=
  let* o := get_obj other in
  let* data := RawMemory_ctor (size_ o) in
  on_unwind (uninitialized_copy_n (GetAddress (data_ o)) (size_ o) (GetAddress data))
            (RawMemory_dtor data) >>
  put_obj this (mkVector data (size_ o)).

(** [~Vector()], followed by the destructor of the member [data_]; the
    object at [this] ceases to exist. *)
Definition Vector_dtor (this : vaddr) : M unit :=
  let* v := get_obj this in
  destroy_n (GetAddress (data_ v)) (size_ v) >>
  RawMemory_dtor (data_ v) >>
  drop_obj this.

(** [size_t Size() const noexcept], [size_t Capacity() const noexcept] *)
Definition Size (v : Vector) : nat := size_ v.
Definition Capacity (v : Vector) : nat := RawMemory_Capacity (data_ v).

(** [iterator begin() noexcept] (and the [const] overload, [cbegin]) *)
Definition begin_ (this : vaddr) : M ptr :=
  let* v := get_obj this in
  if 0 <? size_ v then RawMemory_at (data_ v) 0 else ret nullptr.

(** [iterator end() noexcept] (and the [const] overload, [cend]) *)
Definition end_ (this : vaddr) : M ptr :=
  let* b := begin_ this in
  let* v := get_obj this in
  ret (ptr_add b (Z.of_nat (size_ v))).

Definition cbegin := begin_.
Definition cend := end_.

(** [T& operator[](size_t index) noexcept] *)
Definition Vector_at (this : vaddr) (index : nat) : M ptr :=
  let* v := get_obj this in
  assert (index <? size_ v) >>
  RawMemory_at (data_ v) index.

(** [last - first], [std::distance(first, last)]: undefined for
    unrelated pointers. *)
Definition ptr_distance (first last : ptr) : M Z :=
  match ptr_diff last first with
  | Some d => ret d
  | None => fail UndefinedBehaviour
  end.

(** A pointer difference used as a [size_t] or as the number of steps
    from [first] up to [last].  A negative one (a cursor before
    [begin()], a loop that starts behind its bound) wraps to an offset
    no block has. *)
Definition distance (first last : ptr) : M nat :=
  let* d := ptr_distance first last in
  if decide (0 <= d)%Z then ret (Z.to_nat d) else fail UndefinedBehaviour.

(** [std::distance(first, last)] passed as the count of an
    [uninitialized_*_n]: a negative count means no iteration. *)
Definition count_between (first last : ptr) : M nat :=
  let* d := ptr_distance first last in
  ret (Z.to_nat d).

(** *** Arguments forwarded to a constructor of [T] *)

(** The argument pack of [Emplace] and [EmplaceBack], by what overload
    resolution makes of it in [T(std::forward<Args>(args)...)].  The
    argument object is one outside the free store (a local variable of
    the caller, a temporary), which no vector can hold or release; it
    is carried by value and handed back as the call leaves it.  An
    argument in the free store is passed by its address, see
    [PushBack_const_at]. *)
Inductive CtorArgs :=
  | FromConstLRef (x : T)    (* [const T&]: selects [T(const T&)] *)
  | FromRRef (x : T)         (* [T&&]: selects [T(T&&)] *)
  | FromConstRRef (x : T)    (* [const T&&]: [T(T&&)] cannot bind it,
                                selects [T(const T&)] *)
  | FromOther (mk : E -> option T * E).  (* any other argument pack *)

(** The constructor call itself: the new object and the arguments as
    the constructor leaves them. *)
Definition make_from (args : CtorArgs) : M (T * CtorArgs) :=
  match args with
  | FromConstLRef x | FromConstRRef x =>
      if is_copy_constructible then
        fun s => match copy_ctor x (env s) with
                 | (Some y, e') => Ret (y, args) (set_env e' s)
                 | (None, e') => Throw (set_env e' s)
                 end
      else fail IllFormed
  | FromRRef x =>
      fun s => match move_ctor x (env s) with
               | (Some y, x', e') => Ret (y, FromRRef x') (set_env e' s)
               | (None, _, e') => Throw (set_env e' s)
               end
  | FromOther mk =>
      fun s => match mk (env s) with
               | (Some y, e') => Ret (y, args) (set_env e' s)
               | (None, e') => Throw (set_env e' s)
               end
  end.

(** [new (dst) T(std::forward<Args>(args)...)] *)
Definition forward_construct (args : CtorArgs) (dst : ptr) : M CtorArgs :=
  let* ya := make_from args in
  emplace_at dst ya.1 >> ret ya.2.

(** [new (dst) T(std::forward<T>(obj))] for a local [T obj] whose scope
    ends right after: move-construct from [obj], then [obj.~T()], on
    both ways out. *)
Definition construct_from_local (obj : T) (dst : ptr) : M unit :=
  fun s => match move_ctor obj (env s) with
           | (Some y, obj', e') =>
               (emplace_at dst y >> fun s' => Ret tt (set_env (dtor obj' (env s')) s'))
                 (set_env e' s)
           | (None, obj', e') => Throw (set_env (dtor obj' e') s)
           end.

(** The relocation policy tested by [if constexpr]. *)
Definition relocate_by_move : bool :=
  is_nothrow_move_constructible || negb is_copy_constructible.

(** [constexpr void MoveOrCopy(RawMemory<T>& new_data)]; returns
    [new_data] as the call leaves it. *)
Definition MoveOrCopy (this : vaddr) (new_data : RawMemory) : M RawMemory :=
  let* v := get_obj this in
  (if relocate_by_move
   then uninitialized_move_n (GetAddress (data_ v)) (size_ v) (GetAddress new_data)
   else uninitialized_copy_n (GetAddress (data_ v)) (size_ v) (GetAddress new_data)) >>
  destroy_n (GetAddress (data_ v)) (size_ v) >>
  swap_data_local this new_data.

(** [void Reserve(size_t new_capacity)] *)
Definition Reserve (this : vaddr) (new_capacity : nat) : M unit :=
  let* v := get_obj this in
  if new_capacity <=? RawMemory_Capacity (data_ v) then ret tt
  else
    with_RawMemory new_capacity (fun new_data =>
      let* new_data' := MoveOrCopy this new_data in
      ret (tt, new_data')).

(** The capacity [EmplaceBack] asks for when it has no free slot. *)
Definition EmplaceBack_new_capacity (v : Vector) : nat :=
  if size_ v =? Capacity v
  then (if Capacity v =? 0 then 1 else Capacity v * 2)
  else Capacity v.

(** [template <typename... Args> T& EmplaceBack(Args&&... args)]; the
    result is the address of the returned reference, with the arguments
    as the call leaves them. *)
Definition EmplaceBack (this : vaddr) (args : CtorArgs) : M (ptr * CtorArgs) :=
  let* v := get_obj this in
  let* args' :=
    if size_ v <? Capacity v then
      let* slot := RawMemory_plus (data_ v) (size_ v) in
      forward_construct args slot
    else
      with_RawMemory (EmplaceBack_new_capacity v) (fun new_data =>
        let* slot := RawMemory_plus new_data (size_ v) in
        let* args' := forward_construct args slot in
        let* new_data' := MoveOrCopy this new_data in
        ret (args', new_data')) in
  incr_size this >>
  let* v' := get_obj this in
  let* r := RawMemory_at (data_ v') (size_ v' - 1) in
  ret (r, args').

(** [void PushBack(const T& value)] for an argument outside the free
    store: [std::move] of a [const T&] is a [const T&&]. *)
Definition PushBack_const (this : vaddr) (value : T) : M CtorArgs :=
  let* ra := EmplaceBack this (FromConstRRef value) in
  ret ra.2.


(** [void PushBack(T&& value)] *)
Definition PushBack_move (this : vaddr) (value : T) : M CtorArgs :=
  let* ra := EmplaceBack this (FromRRef value) in
  ret ra.2.

(** [void PopBack()] *)
Definition PopBack (this : vaddr) : M unit :=
  let* v := get_obj this in
  destroy_n (ptr_add (ptr_add (GetAddress (data_ v)) (Z.of_nat (size_ v))) (-1)) 1 >>
  decr_size this.

(** The second statement of the growing branch of [Resize]:
    [std::uninitialized_value_construct_n(data_.GetAddress() + size_,
    new_size - size_)]. *)
Definition Resize_fill (this : vaddr) (new_size : nat) : M unit :=
  let* v := get_obj this in
  uninitialized_value_construct_n
    (ptr_add (GetAddress (data_ v)) (Z.of_nat (size_ v))) (new_size - size_ v).

(** [void Resize(size_t new_size)] *)
Definition Resize (this : vaddr) (new_size : nat) : M unit :=
  let* v := get_obj this in
  (if new_size <? size_ v then
     destroy_n (ptr_add (GetAddress (data_ v)) (Z.of_nat new_size)) (size_ v - new_size)
   else
     Reserve this new_size >>
     Resize_fill this new_size) >>
  set_size this new_size.

(** The capacity [Emplace] asks for when it has no free slot. *)
Definition Emplace_new_capacity (v : Vector) : nat :=
  if Capacity v =? 0 then 1 else Capacity v * 2.

(** The relocation of [Emplace] into [new_data], with its handler.  The
    handler does not rethrow: control continues after the [try] block. *)
Definition Emplace_relocate (this : vaddr) (pos : ptr) (offset : nat)
    (new_data : RawMemory) : M unit :=
  let* v := get_obj this in
  if relocate_by_move then
    try_catch
      (uninitialized_move_n (GetAddress (data_ v)) offset (GetAddress new_data) >>
       let* ce := cend this in
       let* n := count_between pos ce in
       uninitialized_move_n (ptr_add (GetAddress (data_ v)) (Z.of_nat offset)) n
         (ptr_add (ptr_add (GetAddress new_data) (Z.of_nat offset)) 1))
      (destroy_at (ptr_add (GetAddress new_data) (Z.of_nat offset)) >>
       RawMemory_dtor new_data)
  else
    try_catch
      (uninitialized_copy_n (GetAddress (data_ v)) offset (GetAddress new_data) >>
       let* ce := cend this in
       let* n := count_between pos ce in
       uninitialized_copy_n (ptr_add (GetAddress (data_ v)) (Z.of_nat offset)) n
         (ptr_add (GetAddress new_data) (Z.of_nat offset)))
      (destroy_at (ptr_add (GetAddress new_data) (Z.of_nat offset)) >>
       RawMemory_dtor new_data).

(** [template <typename... Args> iterator Emplace(const_iterator pos,
    Args&&... args)]; the result is the returned cursor, with the
    arguments as the call leaves them. *)
Definition Emplace (this : vaddr) (pos : ptr) (args : CtorArgs) : M (ptr * CtorArgs) :=
  let* cb := cbegin this in
  let* offset := distance cb pos in
  let* v := get_obj this in
  let* args' :=
    if Capacity v <=? size_ v then
      with_RawMemory (Emplace_new_capacity v) (fun new_data =>
        let* slot := RawMemory_plus new_data offset in
        let* args' := forward_construct args slot in
        Emplace_relocate this pos offset new_data >>
        destroy_n (GetAddress (data_ v)) (size_ v) >>
        let* new_data' := swap_data_local this new_data in
        ret (args', new_data'))
    else
      let* oa := make_from args in
      on_unwind
        (let* b := begin_ this in
         let* e := end_ this in
         move_backward (ptr_add b (Z.of_nat offset)) e
                       (ptr_add (ptr_add b (Z.of_nat (size_ v))) 1))
        (fun s => Ret tt (set_env (dtor oa.1 (env s)) s)) >>
      let* slot := RawMemory_plus (data_ v) offset in
      construct_from_local oa.1 slot >>
      ret oa.2 in
  incr_size this >>
  let* v' := get_obj this in
  let* r := RawMemory_at (data_ v') offset in
  ret (r, args').

(** [iterator Insert(const_iterator pos, const T& value)] *)
Definition Insert_const (this : vaddr) (pos : ptr) (value : T) : M (ptr * CtorArgs) :=
  Emplace this pos (FromConstLRef value).

(** [iterator Insert(const_iterator pos, T&& value)] *)
Definition Insert_move (this : vaddr) (pos : ptr) (value : T) : M (ptr * CtorArgs) :=
  Emplace this pos (FromRRef value).

(** The loop of [Erase]: [n] times [*iter = std::move( *std::next(iter, 1) )]
    and [++iter]. *)
Fixpoint Erase_shift (iter : ptr) (n : nat) : M unit :=
  match n with
  | 0 => ret tt
  | S n' => move_assign_at (ptr_add iter 1) iter >> Erase_shift (ptr_add iter 1) n'
  end.

(** [iterator Erase(const_iterator pos)
      noexcept(std::is_nothrow_move_assignable_v<T>)].
    The loop runs until [iter] meets [end() - 1]; when it starts behind
    that bound, or the two are unrelated, it walks out of the block.
    The branch for a [T] whose move assignment may throw initialises an
    [iterator] from a pointer difference and calls an undeclared
    [next(T&, int)]; it does not compile. *)
Definition Erase (this : vaddr) (pos : ptr) : M ptr :=
  (if is_nothrow_move_assignable then
     let* cb := cbegin this in
     let* d := ptr_distance cb pos in
     let* b := begin_ this in
     let* e := end_ this in
     let* n := distance (ptr_add b d) (ptr_add e (-1)) in
     Erase_shift (ptr_add b d) n >>
     let* b' := begin_ this in
     let* v := get_obj this in
     destroy_at (ptr_add (ptr_add b' (Z.of_nat (size_ v))) (-1))
   else fail IllFormed) >>
  decr_size this >>
  let* b := begin_ this in
  let* i := distance b pos in
  let* v := get_obj this in
  RawMemory_at (data_ v) i.

(** [void Swap(Vector& other) noexcept] *)
Definition Swap (this other : vaddr) : M unit :=
  swap_data other this >> swap_size other this.

(** [Vector& operator=(const Vector& rhs)].  The local [tmp] lives at an
    address no object has. *)
Definition copy_assignment (this rhs : vaddr) : M unit :=
  if decide (this <> rhs) then
    let* v := get_obj this in
    let* r := get_obj rhs in
    if RawMemory_Capacity (data_ v) <? size_ r then
      let* tmp := (fun s => Ret (fresh (dom (objs s))) s) in
      Vector_ctor_copy tmp rhs >>
      Swap this tmp >>
      Vector_dtor tmp
    else
      let new_size := Size r in
      (if new_size <=? size_ v then
         copy_n (GetAddress (data_ r)) new_size (GetAddress (data_ v)) >>
         destroy_n (ptr_add (GetAddress (data_ v)) (Z.of_nat new_size))
                   (size_ v - new_size)
       else
         copy_n (GetAddress (data_ r)) (size_ v) (GetAddress (data_ v)) >>
         uninitialized_copy_n
           (ptr_add (GetAddress (data_ r)) (Z.of_nat (size_ v)))
           (new_size - size_ v)
           (ptr_add (GetAddress (data_ v)) (Z.of_nat (size_ v)))) >>
      set_size this new_size
  else ret tt.

(** [Vector& operator=(Vector&& rhs) noexcept] *)
Definition move_assignment (this rhs : vaddr) : M unit :=
  if decide (this <> rhs) then
    swap_data this rhs >> swap_size this rhs
  else ret tt.

(** [Vector(Vector&& other) noexcept]: the default member initialisers,
    then [*this = std::move(other)]. *)
Definition Vector_ctor_move (this other : vaddr) : M unit :=
  put_obj this (mkVector RawMemory_default 0) >>
  move_assignment this other.

End Machine.

Arguments State T E : clear implicits.
Arguments CtorArgs T E : clear implicits.

(** ** What a program observes of a vector *)

Section Observe.
Context {T E : Type} {elem : Element T E}.

#[local] Abbreviation M := (Comp (State T E)).

(** The slots [0 .. size_) of the block of [v]. *)
Definition elements_of (v : Vector) (h : gmap block (list (option T))) : list (option T) :=
  match base (buffer_ (data_ v)) with
  | Some b => take (size_ v) (default [] (h !! b))
  | None => []
  end.

(** The class invariant of [Vector<T>] for the object [v], together with
    its content: the first [size_] slots of the block hold the elements
    [l], in order, and the other slots are raw; a vector without a block
    has capacity 0. *)
Definition vec_rep (v : Vector) (l : list T) (h : gmap block (list (option T))) : Prop :=
  size_ v = length l /\
  match base (buffer_ (data_ v)) with
  | Some b =>
      off (buffer_ (data_ v)) = 0%Z /\
      length l <= capacity_ (data_ v) /\
      h !! b = Some ((Some <$> l) ++ replicate (capacity_ (data_ v) - length l) None)
  | None => buffer_ (data_ v) = nullptr /\ capacity_ (data_ v) = 0 /\ l = []
  end.

(** [p] points at slot [i] of block [b]. *)
Definition points_to (p : ptr) (b : block) (i : nat) : Prop :=
  base p = Some b /\ off p = Z.of_nat i.

(** The slots [i .. i + n) of a block are raw. *)
Definition raw_range (sl : list (option T)) (i n : nat) : Prop :=
  forall k, k < n -> sl !! (i + k) = Some None.

(** The slots [i .. i + length xs) of a block hold the objects [xs]. *)
Definition live_range (sl : list (option T)) (i : nat) (xs : list T) : Prop :=
  forall k x, xs !! k = Some x -> sl !! (i + k) = Some (Some x).

(** The vector at [this] is a valid vector with the elements [l]. *)
Definition holds (this : vaddr) (l : list T) (s : State T E) : Prop :=
  exists v, objs s !! this = Some v /\ vec_rep v l (heap s).


(** The heap without the block of [v]: the storage that is not the
    vector's. *)
Definition heap_outside (v : Vector) (h : gmap block (list (option T)))
    : gmap block (list (option T)) :=
  match base (buffer_ (data_ v)) with
  | Some b => delete b h
  | None => h
  end.

(** The objects [n] successive calls of [T()] construct from the state
    [e] of the element type on, with the state they leave; [None] when
    one of the calls throws. *)
Fixpoint value_constructed (n : nat) (e : E) : option (list T * E) :=
  match n with
  | 0 => Some ([], e)
  | S n' =>
      match value_ctor e with
      | (Some y, e') =>
          match value_constructed n' e' with
          | Some (ys, e'') => Some (y :: ys, e'')
          | None => None
          end
      | (None, _) => None
      end
  end.

(** The copy constructor, the move constructor, the default constructor
    of [T] throws for some argument in some state. *)
Definition copy_ctor_can_throw : Prop := exists x e, (copy_ctor x e).1 = None.
Definition move_ctor_can_throw : Prop := exists x e, (move_ctor x e).1.1 = None.


(** *** Sequences of [PushBack] and [PopBack] *)

Inductive op :=
  | OpPushBack (x : T)        (* [v.PushBack(x)] for an lvalue [x] *)
  | OpPushBackMove (x : T)    (* [v.PushBack(std::move(x))] *)
  | OpPopBack.                (* [v.PopBack()] *)

Definition apply_op (this : vaddr) (o : op) : M unit :=
  match o with
  | OpPushBack x => PushBack_const this x >> ret tt
  | OpPushBackMove x => PushBack_move this x >> ret tt
  | OpPopBack => PopBack this
  end.

Fixpoint apply_ops (this : vaddr) (ops : list op) : M unit :=
  match ops with
  | [] => ret tt
  | o :: ops' => apply_op this o >> apply_ops this ops'
  end.

(** The reference model: the same operations on a list, append for a
    push and remove-last for a pop; [None] when a pop meets the empty
    list. *)
Definition reference_op (l : list T) (o : op) : option (list T) :=
  match o with
  | OpPushBack x | OpPushBackMove x => Some (l ++ [x])
  | OpPopBack => match l with [] => None | _ => Some (removelast l) end
  end.

Fixpoint reference_ops (l : list T) (ops : list op) : option (list T) :=
  match ops with
  | [] => Some l
  | o :: ops' =>
      match reference_op l o with
      | Some l' => reference_ops l' ops'
      | None => None
      end
  end.

End Observe.


(** ** Element types used in the scenarios *)

(** An [int]-like type: nothing throws, a move leaves its source as it
    was; an implicit-lifetime type. *)
Definition plain_element : Element nat unit := {|
  value_ctor e := (Some 0, e);
  copy_ctor x e := (Some x, e);
  move_ctor x e := (Some x, x, e);
  copy_assign d x e := (true, x, e);
  move_assign d x e := (true, x, x, e);
  dtor x e := e;
  implicit_object := Some 0;
  is_nothrow_move_constructible := true;
  is_copy_constructible := true;
  is_nothrow_move_assignable := true
|}.

(** A type with a user-provided copy constructor and copy assignment
    that may throw and no move operations of its own, so that moves
    resolve to copies.  The state is the number of constructions and
    assignments that still succeed. *)
Definition budgeted_step {A} (x : A) (e : nat) : option A * nat :=
  match e with
  | 0 => (None, 0)
  | S e' => (Some x, e')
  end.

Definition budgeted_element : Element nat nat := {|
  value_ctor e := budgeted_step 0 e;
  copy_ctor x e := budgeted_step x e;
  move_ctor x e := let (r, e') := budgeted_step x e in (r, x, e');
  copy_assign d x e :=
    match e with 0 => (false, d, 0) | S e' => (true, x, e') end;
  move_assign d x e :=
    match e with 0 => (false, d, x, 0) | S e' => (true, x, x, e') end;
  dtor x e := e;
  implicit_object := None;
  is_nothrow_move_constructible := false;
  is_copy_constructible := true;
  is_nothrow_move_assignable := false
|}.

(** ** Scenarios *)

Module Scenario.

Definition A : vaddr := 1%positive.
Definition B : vaddr := 2%positive.

(** A pointer to slot [i] of block [b]. *)
Definition slot (b : positive) (i : Z) : ptr := Ptr (Some b) i.

(** A vector object whose block [b] has [cap] slots, [n] of them live. *)
Definition vec (b : positive) (cap n : nat) : Vector :=
  mkVector (mkRawMemory (slot b 0) cap) n.

(** One [Vector<int>] at [A] holding [7], full. *)
Definition one_int : State nat unit :=
  mkState {[A := vec 1 1 1]} {[1%positive := [Some 7]]} tt [].

(** Two [Vector<int>]: [A] holds [1], [B] holds [2]. *)
Definition two_ints : State nat unit :=
  mkState {[A := vec 1 1 1; B := vec 2 1 1]}
          {[1%positive := [Some 1]; 2%positive := [Some 2]]} tt [].

(** One full vector of the throwing-copy type at [A] holding [1, 2],
    when [budget] more constructions will succeed. *)
Definition full_pair (budget : nat) : State nat nat :=
  mkState {[A := vec 1 2 2]} {[1%positive := [Some 1; Some 2]]} budget [].

(** [full_pair] after a [Reserve(3)] that went through. *)
Definition reserved_pair (budget : nat) : State nat nat :=
  mkState {[A := vec 2 3 2]} {[2%positive := [Some 1; Some 2; None]]} budget [].


(** An empty program state. *)
Definition nothing : State nat unit := mkState empty empty tt [].


(** One [Vector<int>] at [A] holding [1, 2, 3], with one free slot. *)
Definition roomy_ints : State nat unit :=
  mkState {[A := vec 1 4 3]} {[1%positive := [Some 1; Some 2; Some 3; None]]} tt [].


(** A machine with [int] of 4 bytes, a [size_t] of 64 bits and a free
    store of 64 bytes. *)
Definition small_store : FreeStore :=
  {| sizeof := 4; size_modulus := Some (2 ^ 64)%N;
     new_returns := fun in_use bytes => (in_use + bytes <=? 64)%N |}.

(** A machine with [int] of 4 bytes and a [size_t] of 4 bits, to have
    wrapping requests at hand. *)
Definition narrow_store : FreeStore :=
  {| sizeof := 4; size_modulus := Some 16%N;
     new_returns := fun _ _ => true |}.

(** A [RawMemory<T>] that owns block 1, of three raw slots. *)
Definition raw3 : RawMemory := mkRawMemory (slot 1 0) 3.
Definition raw3_state : State nat unit :=
  mkState empty {[1%positive := [None; None; None]]} tt [].

End Scenario.

(** * Properties *)

(** ** Stepping through computations *)

Lemma bind_Ret {S A B} (m : Comp S A) (k : A -> Comp S B) s a s' :
  m s = Ret a s' -> bind m k s = k a s'.
Proof. unfold bind. by intros ->. Qed.

Lemma bind_Throw {S A B} (m : Comp S A) (k : A -> Comp S B) s s' :
  m s = Throw s' -> bind m k s = Throw s'.
Proof. unfold bind. by intros ->. Qed.

Lemma on_unwind_Ret {S A} (m : Comp S A) c s a s' :
  m s = Ret a s' -> on_unwind m c s = Ret a s'.
Proof. unfold on_unwind, try_catch. by intros ->. Qed.

Lemma on_unwind_Throw {S A} (m : Comp S A) c s s1 s2 :
  m s = Throw s1 -> c s1 = Ret tt s2 -> on_unwind m c s = Throw s2.
Proof.
  unfold on_unwind, try_catch. intros ->. unfold bind. by intros ->.
Qed.

Lemma bind_Fault {S A B} (m : Comp S A) (k : A -> Comp S B) s f :
  m s = Fault f -> bind m k s = Fault f.
Proof. unfold bind. by intros ->. Qed.

Lemma bind_bind_Ret {S A B C} (m : Comp S A) (f : A -> Comp S B)
    (k : B -> Comp S C) s a s' :
  m s = Ret a s' -> bind (bind m f) k s = bind (f a) k s'.
Proof. unfold bind. by intros ->. Qed.

Lemma bind_same_state {S A B} (m m' : Comp S A) (k : A -> Comp S B) s :
  m s = m' s -> bind m k s = bind m' k s.
Proof. unfold bind. by intros ->. Qed.

(** Rewrite the first statement of a sequence with a fact that a tactic
    proves about it. *)
Ltac step_ret tac := erewrite bind_Ret; [| solve [tac]].

Section Objects.
Context {T E : Type}.
Implicit Types (o : gmap vaddr Vector) (h : gmap block (list (option T)))
  (e : E) (lk : list T).

Lemma get_obj_eq a v o h e lk :
  o !! a = Some v ->
  get_obj a (mkState o h e lk) = Ret v (mkState o h e lk).
Proof. unfold get_obj; simpl. by intros ->. Qed.

Lemma set_data_eq a v d o h e lk :
  o !! a = Some v ->
  set_data a d (mkState o h e lk)
  = Ret tt (mkState (<[a := mkVector d (size_ v)]> o) h e lk).
Proof. intros H. unfold set_data. step_ret ltac:(by apply get_obj_eq). done. Qed.

Lemma set_size_eq a v n o h e lk :
  o !! a = Some v ->
  set_size a n (mkState o h e lk)
  = Ret tt (mkState (<[a := mkVector (data_ v) n]> o) h e lk).
Proof. intros H. unfold set_size. step_ret ltac:(by apply get_obj_eq). done. Qed.

Lemma incr_size_eq a v o h e lk :
  o !! a = Some v ->
  incr_size a (mkState o h e lk)
  = Ret tt (mkState (<[a := mkVector (data_ v) (size_ v + 1)]> o) h e lk).
Proof. intros H. unfold incr_size. step_ret ltac:(by apply get_obj_eq). done. Qed.

Lemma decr_size_eq a v o h e lk :
  o !! a = Some v ->
  decr_size a (mkState o h e lk)
  = Ret tt (mkState (<[a := mkVector (data_ v) (size_ v - 1)]> o) h e lk).
Proof. intros H. unfold decr_size. step_ret ltac:(by apply get_obj_eq). done. Qed.

Lemma swap_data_local_eq a v d o h e lk :
  o !! a = Some v ->
  swap_data_local a d (mkState o h e lk)
  = Ret (data_ v) (mkState (<[a := mkVector d (size_ v)]> o) h e lk).
Proof.
  intros H. unfold swap_data_local. step_ret ltac:(by apply get_obj_eq).
  step_ret ltac:(by apply set_data_eq). unfold ret; simpl.
  by destruct v as [[? ?] ?], d.
Qed.

Lemma RawMemory_Swap_eq (a b : RawMemory) : RawMemory_Swap a b = (b, a).
Proof. by destruct a, b. Qed.

(** [a.data_.Swap(b.data_); std::swap(a.size_, b.size_)] on two distinct
    objects. *)
Lemma swap_members_eq a b va vb o h e lk :
  a <> b -> o !! a = Some va -> o !! b = Some vb ->
  (swap_data a b >> swap_size a b) (mkState o h e lk)
  = Ret tt (mkState (<[b := va]> (<[a := vb]> o)) h e lk).
Proof.
  intros Hne Ha Hb. unfold swap_data, swap_size.
  step_ret ltac:(unfold bind; erewrite get_obj_eq by done;
                 erewrite get_obj_eq by done; rewrite RawMemory_Swap_eq; simpl;
                 erewrite set_data_eq by done;
                 erewrite set_data_eq by (by rewrite lookup_insert_ne); done).
  step_ret ltac:(apply get_obj_eq;
                 by rewrite lookup_insert_ne, lookup_insert_eq).
  step_ret ltac:(apply get_obj_eq; by rewrite lookup_insert_eq).
  step_ret ltac:(apply set_size_eq;
                 by rewrite lookup_insert_ne, lookup_insert_eq).
  erewrite set_size_eq by (by rewrite lookup_insert_ne, lookup_insert_eq).
  simpl. do 2 f_equal.
  destruct va as [da na], vb as [db nb]; simpl.
  apply map_eq; intros i.
  destruct (decide (i = b)) as [-> | Hib].
  { by rewrite !lookup_insert_eq. }
  destruct (decide (i = a)) as [-> | Hia];
    repeat first [rewrite lookup_insert_eq | rewrite lookup_insert_ne by done];
    done.
Qed.

End Objects.

(** ** Single objects in a block *)

Section Slots.
Context {T E : Type} {elem : Element T E}.
Implicit Types (o : gmap vaddr Vector) (h : gmap block (list (option T)))
  (e : E) (lk : list T) (sl : list (option T)) (p : ptr) (b : block).

Lemma points_to_succ p b i : points_to p b i -> points_to (ptr_add p 1) b (S i).
Proof. intros [Hb Ho]. split; simpl; [done | lia]. Qed.

Lemma points_to_start b : points_to (Ptr (Some b) 0) b 0.
Proof. done. Qed.

Lemma storage_eq p b i h sl :
  points_to p b i -> h !! b = Some sl -> i < length sl ->
  storage p h = Some (b, i, sl).
Proof.
  intros [Hb Ho] Hh Hi. unfold storage. rewrite Hb, Hh.
  destruct (decide _) as [_ | Hn]; [| lia].
  by rewrite Ho, Nat2Z.id.
Qed.

Lemma object_at_eq p b i h sl :
  points_to p b i -> h !! b = Some sl ->
  object_at p h = mjoin (sl !! i).
Proof.
  intros Hp Hh. unfold object_at.
  destruct (decide (i < length sl)) as [Hi | Hi].
  - by erewrite storage_eq.
  - rewrite (lookup_ge_None_2 sl i) by lia.
    destruct Hp as [Hb Ho]. unfold storage. rewrite Hb, Hh.
    destruct (decide _); [lia | done].
Qed.

Lemma load_eq p b i h sl x o e lk :
  points_to p b i -> h !! b = Some sl -> sl !! i = Some (Some x) ->
  load p (mkState o h e lk) = Ret x (mkState o h e lk).
Proof.
  intros Hp Hh Hx. unfold load; simpl.
  by erewrite object_at_eq, Hx by done.
Qed.

Lemma store_eq p b i h sl x y o e lk :
  points_to p b i -> h !! b = Some sl -> sl !! i = Some (Some x) ->
  store p y (mkState o h e lk)
  = Ret tt (mkState o (<[b := <[i := Some y]> sl]> h) e lk).
Proof.
  intros Hp Hh Hx. unfold store; simpl.
  erewrite storage_eq by eauto using lookup_lt_Some.
  by rewrite Hx.
Qed.

Lemma assignee_live p b i h sl x o e lk :
  points_to p b i -> h !! b = Some sl -> sl !! i = Some (Some x) ->
  assignee p (mkState o h e lk) = Ret x (mkState o h e lk).
Proof.
  intros Hp Hh Hx. unfold assignee; simpl.
  erewrite storage_eq by eauto using lookup_lt_Some.
  by rewrite Hx.
Qed.

Lemma assign_live p b i h sl x y o e lk :
  points_to p b i -> h !! b = Some sl -> sl !! i = Some (Some x) ->
  assign p y (mkState o h e lk)
  = Ret tt (mkState o (<[b := <[i := Some y]> sl]> h) e lk).
Proof.
  intros Hp Hh Hx. unfold assign; simpl.
  erewrite storage_eq by eauto using lookup_lt_Some.
  by rewrite Hx.
Qed.

Lemma emplace_at_raw p b i h sl y o e lk :
  points_to p b i -> h !! b = Some sl -> sl !! i = Some None ->
  emplace_at p y (mkState o h e lk)
  = Ret tt (mkState o (<[b := <[i := Some y]> sl]> h) e lk).
Proof.
  intros Hp Hh Hx. unfold emplace_at; simpl.
  erewrite storage_eq by eauto using lookup_lt_Some.
  rewrite Hx. unfold add_leaked; simpl. by rewrite app_nil_r.
Qed.

Lemma destroy_at_eq p b i h sl x o e lk :
  points_to p b i -> h !! b = Some sl -> sl !! i = Some (Some x) ->
  destroy_at p (mkState o h e lk)
  = Ret tt (mkState o (<[b := <[i := None]> sl]> h) (dtor x e) lk).
Proof.
  intros Hp Hh Hx. unfold destroy_at; simpl.
  erewrite storage_eq by eauto using lookup_lt_Some.
  by rewrite Hx.
Qed.

Lemma raw_range_tail sl i n : raw_range sl i (S n) -> raw_range sl (S i) n.
Proof.
  intros H k Hk. replace (S i + k) with (i + S k) by lia. apply H. lia.
Qed.

Lemma raw_range_head sl i n : raw_range sl i (S n) -> sl !! i = Some None.
Proof. intros H. rewrite <- (Nat.add_0_r i). apply H. lia. Qed.

Lemma raw_range_insert sl i n j y :
  j < i -> raw_range sl i n -> raw_range (<[j := y]> sl) i n.
Proof.
  intros Hj H k Hk. rewrite list_lookup_insert_ne by lia. by apply H.
Qed.

Lemma live_range_tail sl i x xs :
  live_range sl i (x :: xs) -> live_range sl (S i) xs.
Proof.
  intros H k y Hy. replace (S i + k) with (i + S k) by lia. by apply H.
Qed.

Lemma live_range_head sl i x xs :
  live_range sl i (x :: xs) -> sl !! i = Some (Some x).
Proof. intros H. rewrite <- (Nat.add_0_r i). by apply H. Qed.

Lemma live_range_insert sl i xs j y :
  j < i -> live_range sl i xs -> live_range (<[j := y]> sl) i xs.
Proof.
  intros Hj H k x Hx. rewrite list_lookup_insert_ne by lia. by apply H.
Qed.

Lemma live_range_app_l (l : list T) rest :
  live_range ((Some <$> l) ++ rest) 0 l.
Proof.
  intros k x Hx. simpl.
  rewrite lookup_app_l by (rewrite length_fmap; eauto using lookup_lt_Some).
  by rewrite list_lookup_fmap, Hx.
Qed.

Lemma raw_range_replicate n i m :
  i + m <= n -> raw_range (replicate n (@None T)) i m.
Proof. intros H k Hk. apply lookup_replicate. split; [done | lia]. Qed.

Lemma live_objects_replicate n : live_objects (replicate n (@None T)) = [].
Proof. induction n; [done |]. done. Qed.

Lemma list_inserts_live sl i (xs : list T) :
  live_range sl i xs -> list_inserts i (Some <$> xs) sl = sl.
Proof.
  revert i. induction xs as [| x xs IH]; intros i Hl; [done |].
  simpl. rewrite IH by (by eapply live_range_tail).
  apply list_insert_id. by eapply live_range_head.
Qed.

End Slots.

(** ** One constructor or assignment call *)

Section Calls.
Context {T E : Type} {elem : Element T E} {laws : ElementLaws T E}.
Implicit Types (o : gmap vaddr Vector) (h : gmap block (list (option T)))
  (e : E) (lk : list T) (sl ssl dsl : list (option T)) (p ps pd : ptr)
  (b bs bd : block).

Lemma copy_construct_eq ps pd bs bd i j h ssl dsl x o e lk :
  is_copy_constructible = true ->
  points_to ps bs i -> points_to pd bd j ->
  h !! bs = Some ssl -> ssl !! i = Some (Some x) ->
  h !! bd = Some dsl -> dsl !! j = Some None ->
  exists e',
    copy_construct ps pd (mkState o h e lk)
      = Ret tt (mkState o (<[bd := <[j := Some x]> dsl]> h) e' lk)
    \/ (copy_construct ps pd (mkState o h e lk) = Throw (mkState o h e' lk)
        /\ copy_ctor_can_throw).
Proof.
  intros Hcc Hps Hpd Hs Hx Hd Hraw. unfold copy_construct. rewrite Hcc.
  erewrite bind_Ret by (by eapply load_eq). simpl.
  destruct (copy_ctor x e) as [[y |] e'] eqn:Hc; exists e'.
  - left. apply copy_ctor_value in Hc as ->.
    unfold set_env; simpl. by eapply emplace_at_raw.
  - right. split; [done |]. exists x, e. by rewrite Hc.
Qed.

Lemma move_construct_eq ps pd bs bd i j h ssl dsl x o e lk :
  bs <> bd ->
  points_to ps bs i -> points_to pd bd j ->
  h !! bs = Some ssl -> ssl !! i = Some (Some x) ->
  h !! bd = Some dsl -> dsl !! j = Some None ->
  exists x' e',
    move_construct ps pd (mkState o h e lk)
      = Ret tt (mkState o (<[bd := <[j := Some x]> dsl]>
                             (<[bs := <[i := Some x']> ssl]> h)) e' lk)
    \/ (move_construct ps pd (mkState o h e lk)
          = Throw (mkState o (<[bs := <[i := Some x']> ssl]> h) e' lk)
        /\ move_ctor_can_throw).
Proof.
  intros Hne Hps Hpd Hs Hx Hd Hraw. unfold move_construct.
  erewrite bind_Ret by (by eapply load_eq). simpl.
  destruct (move_ctor x e) as [[r x'] e'] eqn:Hm.
  unfold set_env; simpl.
  erewrite bind_Ret by (by eapply store_eq).
  exists x', e'. destruct r as [y |].
  - left. apply move_ctor_value in Hm as ->.
    eapply emplace_at_raw; [done | | done].
    by rewrite lookup_insert_ne.
  - right. split; [done |]. exists x, e. by rewrite Hm.
Qed.



End Calls.

(** ** The algorithms on ranges *)

(** Equalities of heaps built from insertions: compare the lookups. *)
Ltac heap_eq :=
  apply map_eq; intros ?;
  repeat (rewrite lookup_insert; case_decide; subst);
  try done; try congruence.

(** The same for heaps with released blocks. *)
Ltac heap_del_eq :=
  apply map_eq; intros ?;
  repeat (first [rewrite lookup_delete | rewrite lookup_insert];
          case_decide; subst);
  try done; try congruence.

Section Ranges.
Context {T E : Type} {elem : Element T E} {laws : ElementLaws T E}.
Implicit Types (o : gmap vaddr Vector) (h : gmap block (list (option T)))
  (e : E) (lk : list T) (sl ssl dsl : list (option T)) (p ps pd : ptr)
  (b bs bd : block) (xs : list T).

Lemma destroy_n_eq xs : forall p b i h sl o e lk,
  points_to p b i -> h !! b = Some sl -> live_range sl i xs ->
  exists e',
    destroy_n p (length xs) (mkState o h e lk)
    = Ret tt (mkState o (<[b := list_inserts i (replicate (length xs) None) sl]> h) e' lk).
Proof.
  induction xs as [| x xs IH]; intros p b i h sl o e lk Hp Hh Hl.
  - exists e. simpl. unfold ret. by rewrite insert_id.
  - simpl destroy_n.
    erewrite bind_Ret
      by (eapply destroy_at_eq; eauto using live_range_head).
    destruct (IH (ptr_add p 1) b (S i) (<[b := <[i := None]> sl]> h)
                 (<[i := None]> sl) o (dtor x e) lk) as [e' ->].
    { by apply points_to_succ. }
    { by rewrite lookup_insert_eq. }
    { apply live_range_insert; [lia |]. by eapply live_range_tail. }
    exists e'. do 2 f_equal. rewrite insert_insert_eq. f_equal.
    simpl. by rewrite list_insert_inserts_lt by lia.
Qed.

Lemma uninitialized_copy_n_eq xs : forall ps pd bs bd i j h ssl dsl o e lk,
  is_copy_constructible = true -> bs <> bd ->
  points_to ps bs i -> points_to pd bd j ->
  h !! bs = Some ssl -> h !! bd = Some dsl ->
  live_range ssl i xs -> raw_range dsl j (length xs) ->
  exists e',
    uninitialized_copy_n ps (length xs) pd (mkState o h e lk)
      = Ret tt (mkState o (<[bd := list_inserts j (Some <$> xs) dsl]> h) e' lk)
    \/ (uninitialized_copy_n ps (length xs) pd (mkState o h e lk)
          = Throw (mkState o h e' lk)
        /\ copy_ctor_can_throw).
Proof.
  induction xs as [| x xs IH];
    intros ps pd bs bd i j h ssl dsl o e lk Hcc Hne Hps Hpd Hs Hd Hl Hr.
  - exists e. left. simpl. unfold ret. by rewrite insert_id.
  - simpl uninitialized_copy_n.
    destruct (copy_construct_eq ps pd bs bd i j h ssl dsl x o e lk)
      as (e1 & [Hc | [Hc Hthrow]]);
      eauto using live_range_head, raw_range_head.
    2:{ exists e1. right. split; [| done]. by erewrite bind_Throw. }
    erewrite bind_Ret by exact Hc.
    destruct (IH (ptr_add ps 1) (ptr_add pd 1) bs bd (S i) (S j)
                 (<[bd := <[j := Some x]> dsl]> h) ssl (<[j := Some x]> dsl)
                 o e1 lk) as (e2 & [Hrec | [Hrec Hthrow]]);
      eauto using points_to_succ, live_range_tail.
    { by rewrite lookup_insert_ne. }
    { by rewrite lookup_insert_eq. }
    { apply raw_range_insert; [lia |]. by apply raw_range_tail. }
    + exists e2. left. erewrite on_unwind_Ret by exact Hrec.
      do 2 f_equal. rewrite insert_insert_eq. f_equal.
      simpl. by rewrite list_insert_inserts_lt by lia.
    + exists (dtor x e2). right. split; [| done].
      eapply on_unwind_Throw; [exact Hrec |].
      erewrite destroy_at_eq; [| done | by rewrite lookup_insert_eq |].
      2:{ apply list_lookup_insert_eq. apply raw_range_head in Hr.
          eauto using lookup_lt_Some. }
      do 2 f_equal. rewrite insert_insert_eq, list_insert_insert_eq.
      rewrite list_insert_id by eauto using raw_range_head.
      by rewrite insert_id.
Qed.

Lemma uninitialized_move_n_eq xs : forall ps pd bs bd i j h ssl dsl o e lk,
  bs <> bd ->
  points_to ps bs i -> points_to pd bd j ->
  h !! bs = Some ssl -> h !! bd = Some dsl ->
  live_range ssl i xs -> raw_range dsl j (length xs) ->
  exists xs' e',
    length xs' = length xs /\
    (uninitialized_move_n ps (length xs) pd (mkState o h e lk)
      = Ret tt (mkState o (<[bd := list_inserts j (Some <$> xs) dsl]>
                             (<[bs := list_inserts i (Some <$> xs') ssl]> h)) e' lk)
     \/ (uninitialized_move_n ps (length xs) pd (mkState o h e lk)
           = Throw (mkState o (<[bs := list_inserts i (Some <$> xs') ssl]> h) e' lk)
         /\ move_ctor_can_throw)).
Proof.
  induction xs as [| x xs IH];
    intros ps pd bs bd i j h ssl dsl o e lk Hne Hps Hpd Hs Hd Hl Hr.
  - exists [], e. split; [done |]. left. simpl. unfold ret.
    by rewrite !insert_id by (by rewrite ?lookup_insert_ne; rewrite ?insert_id).
  - simpl uninitialized_move_n.
    destruct (move_construct_eq ps pd bs bd i j h ssl dsl x o e lk)
      as (x' & e1 & [Hc | [Hc Hthrow]]);
      eauto using live_range_head, raw_range_head.
    2:{ exists (x' :: xs), e1. split; [done |]. right. split; [| done].
        erewrite bind_Throw by exact Hc. do 3 f_equal. simpl.
        by rewrite list_inserts_live by (by eapply live_range_tail). }
    erewrite bind_Ret by exact Hc.
    destruct (IH (ptr_add ps 1) (ptr_add pd 1) bs bd (S i) (S j)
                 (<[bd := <[j := Some x]> dsl]> (<[bs := <[i := Some x']> ssl]> h))
                 (<[i := Some x']> ssl) (<[j := Some x]> dsl)
                 o e1 lk) as (xs' & e2 & Hlen & [Hrec | [Hrec Hthrow]]);
      eauto using points_to_succ.
    { by rewrite lookup_insert_ne, lookup_insert_eq. }
    { by rewrite lookup_insert_eq. }
    { apply live_range_insert; [lia |]. by eapply live_range_tail. }
    { apply raw_range_insert; [lia |]. by apply raw_range_tail. }
    + exists (x' :: xs'), e2. split; [simpl; lia |]. left.
      erewrite on_unwind_Ret by exact Hrec.
      do 2 f_equal. simpl.
      rewrite <- !list_insert_inserts_lt by lia.
      heap_eq.
    + exists (x' :: xs'), (dtor x e2). split; [simpl; lia |]. right.
      split; [| done].
      eapply on_unwind_Throw; [exact Hrec |].
      erewrite destroy_at_eq; [| done | |].
      2:{ by rewrite lookup_insert_ne, lookup_insert_eq. }
      2:{ apply list_lookup_insert_eq. apply raw_range_head in Hr.
          eauto using lookup_lt_Some. }
      do 2 f_equal. simpl.
      rewrite <- !list_insert_inserts_lt by lia.
      rewrite list_insert_insert_eq.
      rewrite (list_insert_id dsl) by eauto using raw_range_head.
      heap_eq.
Qed.


Lemma value_constructed_length n : forall e ys e',
  value_constructed n e = Some (ys, e') -> length ys = n.
Proof.
  induction n as [| n IH]; intros e ys e'; simpl.
  - by intros [= <- _].
  - destruct (value_ctor e) as [[y |] e1]; [| done].
    destruct (value_constructed n e1) as [[ys1 e2] |] eqn:Hrec; [| done].
    intros [= <- _]. simpl. f_equal. by eapply IH.
Qed.

(** The objects [std::uninitialized_value_construct_n] constructs are
    those of [n] successive calls of [T()]. *)
Lemma uninitialized_value_construct_n_values n : forall pd bd j h dsl o e lk,
  points_to pd bd j -> h !! bd = Some dsl -> raw_range dsl j n ->
  match value_constructed n e with
  | Some (ys, e') =>
      uninitialized_value_construct_n pd n (mkState o h e lk)
      = Ret tt (mkState o (<[bd := list_inserts j (Some <$> ys) dsl]> h) e' lk)
  | None =>
      exists e', uninitialized_value_construct_n pd n (mkState o h e lk)
                 = Throw (mkState o h e' lk)
  end.
Proof.
  induction n as [| n IH]; intros pd bd j h dsl o e lk Hpd Hd Hr.
  - simpl. unfold ret. by rewrite insert_id.
  - simpl uninitialized_value_construct_n. simpl value_constructed.
    assert (dsl !! j = Some None) as Hj by eauto using raw_range_head.
    unfold value_construct at 1.
    destruct (value_ctor e) as [[y |] e1] eqn:Hc.
    2:{ exists e1. apply bind_Throw. unfold value_construct. simpl. by rewrite Hc. }
    assert (value_construct pd (mkState o h e lk)
            = Ret tt (mkState o (<[bd := <[j := Some y]> dsl]> h) e1 lk)) as Hrun.
    { unfold value_construct. simpl. rewrite Hc. unfold set_env; simpl.
      by eapply emplace_at_raw. }
    pose proof (IH (ptr_add pd 1) bd (S j)
                  (<[bd := <[j := Some y]> dsl]> h) (<[j := Some y]> dsl)
                  o e1 lk (points_to_succ _ _ _ Hpd)) as Hrec.
    rewrite lookup_insert_eq in Hrec. specialize (Hrec eq_refl).
    assert (raw_range (<[j := Some y]> dsl) (S j) n) as Hr'.
    { apply raw_range_insert; [lia |]. by apply raw_range_tail. }
    specialize (Hrec Hr').
    destruct (value_constructed n e1) as [[ys e2] |].
    + erewrite bind_Ret by exact Hrun.
      erewrite on_unwind_Ret by exact Hrec.
      do 2 f_equal. rewrite insert_insert_eq. f_equal.
      simpl. by rewrite list_insert_inserts_lt by lia.
    + destruct Hrec as [e2 Hrec]. exists (dtor y e2).
      erewrite bind_Ret by exact Hrun.
      eapply on_unwind_Throw; [exact Hrec |].
      erewrite destroy_at_eq; [| done | by rewrite lookup_insert_eq |].
      2:{ apply list_lookup_insert_eq. eauto using lookup_lt_Some. }
      do 2 f_equal. rewrite insert_insert_eq, list_insert_insert_eq.
      rewrite list_insert_id by done.
      by rewrite insert_id.
Qed.

End Ranges.

(** ** Storage blocks *)

Section Blocks.
Context {T E : Type}.
Implicit Types (o : gmap vaddr Vector) (h : gmap block (list (option T)))
  (e : E) (lk : list T) (sl : list (option T)).

Lemma fresh_block_None h : h !! fresh (dom h) = None.
Proof. apply not_elem_of_dom. apply is_fresh. Qed.

(** In the idealised store a request for [n] objects has room for
    [n]. *)
Lemma ideal_slots n : slots_in (request_bytes n) = n.
Proof.
  unfold slots_in, request_bytes; simpl.
  by rewrite N.mul_1_r, N.div_1_r, Nat2N.id.
Qed.

Lemma Allocate_eq n o h e lk :
  n <> 0 ->
  Allocate n (mkState o h e lk)
  = Ret (Ptr (Some (fresh (dom h))) 0)
        (mkState o (<[fresh (dom h) := replicate n None]> h) e lk).
Proof.
  intros Hn. unfold Allocate. destruct (decide (n <> 0)); [| done].
  unfold new_succeeds, set_heap; simpl. by rewrite ideal_slots.
Qed.

Lemma RawMemory_ctor_eq n o h e lk :
  n <> 0 ->
  RawMemory_ctor n (mkState o h e lk)
  = Ret (mkRawMemory (Ptr (Some (fresh (dom h))) 0) n)
        (mkState o (<[fresh (dom h) := replicate n None]> h) e lk).
Proof.
  intros Hn. unfold RawMemory_ctor. by erewrite bind_Ret by (by apply Allocate_eq).
Qed.

Lemma Deallocate_eq b h sl o e lk :
  h !! b = Some sl ->
  Deallocate (Ptr (Some b) 0) (mkState o h e lk)
  = Ret tt (mkState o (delete b h) e (lk ++ live_objects sl)).
Proof. intros Hh. unfold Deallocate; simpl. by rewrite Hh. Qed.

Lemma Deallocate_raw b h n o e lk :
  h !! b = Some (replicate n None) ->
  Deallocate (Ptr (Some b) 0) (mkState o h e lk)
  = Ret tt (mkState o (delete b h) e lk).
Proof.
  intros Hh. erewrite Deallocate_eq by done.
  unfold live_objects.
  replace (omap id (replicate n (@None T))) with (@nil T);
    [by rewrite app_nil_r |].
  clear. by induction n.
Qed.

Lemma Deallocate_null (s : State T E) : Deallocate nullptr s = Ret tt s.
Proof. done. Qed.

Lemma RawMemory_plus_eq (r : RawMemory) n (s : State T E) :
  n <= capacity_ r ->
  RawMemory_plus r n s = Ret (ptr_add (buffer_ r) (Z.of_nat n)) s.
Proof.
  intros Hn. unfold RawMemory_plus, assert.
  by destruct (Nat.leb_spec n (capacity_ r)); [| lia].
Qed.

Lemma RawMemory_at_eq (r : RawMemory) n (s : State T E) :
  n < capacity_ r ->
  RawMemory_at r n s = Ret (ptr_add (buffer_ r) (Z.of_nat n)) s.
Proof.
  intros Hn. unfold RawMemory_at, assert.
  by destruct (Nat.ltb_spec n (capacity_ r)); [| lia].
Qed.

Lemma with_RawMemory_Ret {A} n (body : RawMemory -> Comp (State T E) (A * RawMemory))
    o h e lk a r' s1 s2 :
  n <> 0 ->
  body (mkRawMemory (Ptr (Some (fresh (dom h))) 0) n)
       (mkState o (<[fresh (dom h) := replicate n None]> h) e lk) = Ret (a, r') s1 ->
  RawMemory_dtor r' s1 = Ret tt s2 ->
  with_RawMemory n body (mkState o h e lk) = Ret a s2.
Proof.
  intros Hn Hbody Hdtor. unfold with_RawMemory.
  erewrite bind_Ret by (by apply RawMemory_ctor_eq).
  erewrite bind_Ret by (apply on_unwind_Ret; exact Hbody).
  simpl. by erewrite bind_Ret by exact Hdtor.
Qed.

Lemma with_RawMemory_Throw {A} n (body : RawMemory -> Comp (State T E) (A * RawMemory))
    o h e lk s1 s2 :
  n <> 0 ->
  body (mkRawMemory (Ptr (Some (fresh (dom h))) 0) n)
       (mkState o (<[fresh (dom h) := replicate n None]> h) e lk) = Throw s1 ->
  RawMemory_dtor (mkRawMemory (Ptr (Some (fresh (dom h))) 0) n) s1 = Ret tt s2 ->
  with_RawMemory n body (mkState o h e lk) = Throw s2.
Proof.
  intros Hn Hbody Hdtor. unfold with_RawMemory.
  erewrite bind_Ret by (by apply RawMemory_ctor_eq).
  apply bind_Throw. by eapply on_unwind_Throw.
Qed.

Lemma ptr_distance_same b (i j : Z) (s : State T E) :
  ptr_distance (Ptr (Some b) i) (Ptr (Some b) j) s = Ret (j - i)%Z s.
Proof.
  unfold ptr_distance, ptr_diff; simpl.
  by destruct (decide (Some b = Some b)).
Qed.

Lemma distance_same b (i j : Z) (s : State T E) :
  (i <= j)%Z ->
  distance (Ptr (Some b) i) (Ptr (Some b) j) s = Ret (Z.to_nat (j - i)) s.
Proof.
  intros Hle. unfold distance.
  erewrite bind_Ret by apply ptr_distance_same.
  destruct (decide (0 <= j - i)%Z); [done | lia].
Qed.

(** The two shapes of a valid vector. *)
Lemma vec_rep_inv (v : Vector) (l : list T) h :
  vec_rep v l h ->
  (v = mkVector (mkRawMemory nullptr 0) (length l) /\ l = []) \/
  (exists b cap,
     v = mkVector (mkRawMemory (Ptr (Some b) 0) cap) (length l) /\
     length l <= cap /\
     h !! b = Some ((Some <$> l) ++ replicate (cap - length l) None)).
Proof.
  destruct v as [[[bs z] cap] n]. unfold vec_rep; simpl.
  intros [-> H]. destruct bs as [b |].
  - right. destruct H as (-> & Hle & Hh). by exists b, cap.
  - left. by destruct H as ([= ->] & -> & ->).
Qed.

Lemma vec_rep_block b cap (l : list T) h :
  length l <= cap ->
  h !! b = Some ((Some <$> l) ++ replicate (cap - length l) None) ->
  vec_rep (mkVector (mkRawMemory (Ptr (Some b) 0) cap) (length l)) l h.
Proof. intros Hle Hh. unfold vec_rep; simpl. done. Qed.

End Blocks.

(** ** Relocation into a new block *)

Section Growth.
Context {T E : Type} {elem : Element T E} {laws : ElementLaws T E}.
Implicit Types (o : gmap vaddr Vector) (h : gmap block (list (option T)))
  (e : E) (lk : list T) (sl nsl : list (option T)) (l : list T).

Lemma relocate_by_copy_copyable :
  relocate_by_move = false -> is_copy_constructible = true.
Proof.
  unfold relocate_by_move.
  by destruct is_nothrow_move_constructible, is_copy_constructible.
Qed.

Lemma block_inserts_0 (xs : list T) (l : list T) n :
  length xs = length l ->
  list_inserts 0 (Some <$> xs) ((Some <$> l) ++ replicate n None)
  = (Some <$> xs) ++ replicate n None.
Proof. intros H. apply list_inserts_0_r. by rewrite !length_fmap. Qed.

Lemma block_clear_0 (xs : list T) n m cap :
  n = length xs -> n + m = cap ->
  list_inserts 0 (replicate n None) ((Some <$> xs) ++ replicate m None)
  = replicate cap None.
Proof.
  intros -> <-.
  rewrite list_inserts_0_r by (by rewrite length_replicate, length_fmap).
  by rewrite <- replicate_add.
Qed.

(** [MoveOrCopy] for a vector without a block: nothing to relocate. *)
Lemma MoveOrCopy_null this (nd : RawMemory) o h e lk :
  o !! this = Some (mkVector (mkRawMemory nullptr 0) 0) ->
  MoveOrCopy this nd (mkState o h e lk)
  = Ret (mkRawMemory nullptr 0) (mkState (<[this := mkVector nd 0]> o) h e lk).
Proof.
  intros Ho. unfold MoveOrCopy.
  erewrite bind_Ret by (by apply get_obj_eq). simpl.
  erewrite bind_Ret by (by destruct relocate_by_move).
  erewrite bind_Ret by done.
  by erewrite swap_data_local_eq by done.
Qed.

(** [MoveOrCopy] for a vector with a block [b], into raw slots of a
    different block [nb]: either every element is relocated, the old
    slots are destroyed and the blocks are exchanged, or a constructor
    throws and the new block is as before; after a failed copy the old
    block is as before too, after a failed move it holds what the moves
    left. *)
Lemma MoveOrCopy_block this b cap l nb ncap nsl o h e lk :
  o !! this = Some (mkVector (mkRawMemory (Ptr (Some b) 0) cap) (length l)) ->
  length l <= cap ->
  h !! b = Some ((Some <$> l) ++ replicate (cap - length l) None) ->
  nb <> b -> h !! nb = Some nsl -> raw_range nsl 0 (length l) ->
  exists e',
    MoveOrCopy this (mkRawMemory (Ptr (Some nb) 0) ncap) (mkState o h e lk)
    = Ret (mkRawMemory (Ptr (Some b) 0) cap)
          (mkState
             (<[this := mkVector (mkRawMemory (Ptr (Some nb) 0) ncap) (length l)]> o)
             (<[nb := list_inserts 0 (Some <$> l) nsl]>
                (<[b := replicate cap None]> h)) e' lk)
    \/ exists xs',
         length xs' = length l /\
         (relocate_by_move = false -> xs' = l) /\
         MoveOrCopy this (mkRawMemory (Ptr (Some nb) 0) ncap) (mkState o h e lk)
         = Throw (mkState o
                    (<[b := (Some <$> xs') ++ replicate (cap - length l) None]> h)
                    e' lk) /\
         (if relocate_by_move then move_ctor_can_throw else copy_ctor_can_throw).
Proof.
  intros Ho Hle Hb Hne Hnb Hraw. unfold MoveOrCopy.
  erewrite bind_Ret by (by apply get_obj_eq). simpl.
  destruct relocate_by_move eqn:Hmode.
  - destruct (uninitialized_move_n_eq l (Ptr (Some b) 0) (Ptr (Some nb) 0)
                b nb 0 0 h ((Some <$> l) ++ replicate (cap - length l) None)
                nsl o e lk)
      as (xs' & e1 & Hlen & [Hm | [Hm Hthrow]]);
      eauto using points_to_start, live_range_app_l.
    + erewrite bind_Ret by exact Hm.
      rewrite block_inserts_0 by done.
      destruct (destroy_n_eq xs' (Ptr (Some b) 0) b 0
                  (<[nb := list_inserts 0 (Some <$> l) nsl]>
                     (<[b := (Some <$> xs') ++ replicate (cap - length l) None]> h))
                  ((Some <$> xs') ++ replicate (cap - length l) None) o e1 lk)
        as [e2 Hd]; eauto using points_to_start, live_range_app_l.
      { by rewrite lookup_insert_ne, lookup_insert_eq. }
      rewrite Hlen in Hd. erewrite bind_Ret by exact Hd.
      exists e2. left.
      erewrite swap_data_local_eq by done. simpl.
      do 2 f_equal.
      rewrite (block_clear_0 _ _ _ cap) by lia.
      heap_eq.
    + exists e1. right. exists xs'. split; [done |]. split; [done |].
      split; [| done].
      erewrite bind_Throw by exact Hm.
      by rewrite block_inserts_0 by done.
  - destruct (uninitialized_copy_n_eq l (Ptr (Some b) 0) (Ptr (Some nb) 0)
                b nb 0 0 h ((Some <$> l) ++ replicate (cap - length l) None)
                nsl o e lk)
      as (e1 & [Hm | [Hm Hthrow]]);
      eauto using points_to_start, live_range_app_l, relocate_by_copy_copyable.
    + erewrite bind_Ret by exact Hm.
      destruct (destroy_n_eq l (Ptr (Some b) 0) b 0
                  (<[nb := list_inserts 0 (Some <$> l) nsl]> h)
                  ((Some <$> l) ++ replicate (cap - length l) None) o e1 lk)
        as [e2 Hd]; eauto using points_to_start, live_range_app_l.
      { by rewrite lookup_insert_ne. }
      erewrite bind_Ret by exact Hd.
      exists e2. left.
      erewrite swap_data_local_eq by done. simpl.
      do 2 f_equal.
      rewrite (block_clear_0 _ _ _ cap) by lia.
      heap_eq.
    + exists e1. right. exists l. split; [done |]. split; [done |].
      split; [| done].
      erewrite bind_Throw by exact Hm.
      by rewrite insert_id.
Qed.

End Growth.

(** ** The laws hold for the element types of the scenarios *)

Lemma plain_element_laws : @ElementLaws nat unit plain_element.
Proof.
  split; simpl; try congruence; intros; by eauto.
Qed.

Lemma budgeted_element_laws : @ElementLaws nat nat budgeted_element.
Proof.
  split; simpl; try done; unfold budgeted_step.
  - intros x [| e] y e'; congruence.
  - intros x [| e] y x' e'; congruence.
  - intros d x [| e] d' e'; congruence.
  - intros d x [| e] d' x' e'; congruence.
Qed.

(** ** Moving a storage block *)

(** The moved-from [RawMemory] keeps its fields, for every source. *)
Lemma RawMemory_move_source_kept (other this : RawMemory) :
  (RawMemory_move_ctor other).2 = other /\
  (RawMemory_move_assign this other).2 = other.
Proof. split; reflexivity. Qed.

(** C5 (defect of the code).  The claim: after move-construction or
    move-assignment from a storage block the source is empty, address
    null and capacity 0.  The code: the source of the move constructor
    and of the move assignment keeps its address and its capacity; for
    the block [raw3] (three slots at block 1) the source still has a
    non-null address and capacity 3, the destination has the same
    address, and destroying both releases the region twice. *)
Theorem RawMemory_move_keeps_source :
  (RawMemory_move_ctor Scenario.raw3).2 = Scenario.raw3 /\
  (RawMemory_move_assign RawMemory_default Scenario.raw3).2 = Scenario.raw3 /\
  buffer_ (RawMemory_move_ctor Scenario.raw3).2 <> nullptr /\
  capacity_ (RawMemory_move_ctor Scenario.raw3).2 = 3 /\
  buffer_ (RawMemory_move_ctor Scenario.raw3).1 =
    buffer_ (RawMemory_move_ctor Scenario.raw3).2 /\
  (RawMemory_dtor (RawMemory_move_ctor Scenario.raw3).1 >>
   RawMemory_dtor (RawMemory_move_ctor Scenario.raw3).2) Scenario.raw3_state
  = Fault UndefinedBehaviour.
Proof. repeat split; try reflexivity. discriminate. Qed.

(** ** Self-assignment *)

(** C9.  Copy-assigning a vector to itself and move-assigning a vector
    to itself return at once and leave the whole state, hence size,
    elements and capacity of the vector, as it was. *)
Theorem self_assignment_is_identity {T E : Type} {elem : Element T E}
    (v : vaddr) (s : State T E) :
  copy_assignment v v s = Ret tt s /\ move_assignment v v s = Ret tt s.
Proof.
  unfold copy_assignment, move_assignment.
  destruct (decide (v <> v)) as [Hne | _]; [by destruct Hne |].
  split; reflexivity.
Qed.

(** ** Move assignment *)

Section MoveAssignment.
Context {T E : Type}.
Implicit Types (s : State T E) (l : list T).

(** What [*this = std::move(rhs)] does to two distinct objects: the data
    members are exchanged and nothing else changes. *)
Lemma move_assignment_run (this rhs : vaddr) (vt vr : Vector) o h e lk :
  this <> rhs -> o !! this = Some vt -> o !! rhs = Some vr ->
  move_assignment this rhs (mkState o h e lk : State T E) =
    Ret tt (mkState (<[rhs := vt]> (<[this := vr]> o)) h e lk).
Proof.
  intros Hne Ht Hr. unfold move_assignment.
  destruct (decide (this <> rhs)) as [_ | Heq]; [| by destruct Heq].
  by apply swap_members_eq.
Qed.

(** C4, as amended.  Move-assigning [A] into a distinct [B] exchanges
    the two: [B] then holds, in order, the elements [A] held before,
    and [A] is a valid vector holding the elements [B] held before (it
    is empty exactly when [B] was). *)
Theorem move_assignment_exchanges (A B : vaddr) (lA lB : list T) s :
  A <> B -> holds A lA s -> holds B lB s ->
  exists s', move_assignment B A s = Ret tt s' /\
             holds B lA s' /\ holds A lB s' /\
             heap s' = heap s /\ leaked s' = leaked s.
Proof.
  intros Hne (vA & HA & HrA) (vB & HB & HrB).
  destruct s as [o h e lk]; simpl in *.
  eexists. split.
  { apply (move_assignment_run B A vB vA); [congruence | done | done]. }
  simpl. repeat split.
  - exists vA. simpl. rewrite lookup_insert_ne, lookup_insert_eq by done. done.
  - exists vB. simpl. rewrite lookup_insert_eq. done.
Qed.

End MoveAssignment.

(** C4, witness: [A] holds [1] and [B] holds [2]. *)
Lemma move_assignment_exchanges_witness :
  exists s', move_assignment Scenario.B Scenario.A Scenario.two_ints = Ret tt s' /\
             holds Scenario.B [1] s' /\ holds Scenario.A [2] s' /\
             heap s' = heap Scenario.two_ints /\
             leaked s' = leaked Scenario.two_ints.
Proof.
  apply (move_assignment_exchanges Scenario.A Scenario.B [1] [2]).
  - discriminate.
  - exists (Scenario.vec 1 1 1). split; [reflexivity |].
    split; [reflexivity |]. simpl. split; [reflexivity |]. split; [lia | reflexivity].
  - exists (Scenario.vec 2 1 1). split; [reflexivity |].
    split; [reflexivity |]. simpl. split; [reflexivity |]. split; [lia | reflexivity].
Defined.

(** C4, as stated, fails: after [B = std::move(A)] with [A] holding [1]
    and [B] holding [2], [A] is not empty; its size is 1. *)
Lemma move_assignment_source_not_empty :
  ~ (forall s', move_assignment Scenario.B Scenario.A Scenario.two_ints = Ret tt s' ->
                exists v, objs s' !! Scenario.A = Some v /\ Size v = 0).
Proof.
  intros H.
  destruct (H _ eq_refl) as (v & Hv & Hsz).
  vm_compute in Hv. injection Hv as <-. discriminate Hsz.
Qed.

(** ** EmplaceBack *)

Section EmplaceBack.
Context {T E : Type} {elem : Element T E}.
Implicit Types (o : gmap vaddr Vector) (h : gmap block (list (option T)))
  (e : E) (lk : list T) (sl nsl : list (option T)) (l : list T)
  (args : CtorArgs T E).

(** A constructor call reads and writes the state of the element type
    only. *)
Lemma make_from_env args o h e lk :
  (exists y a' e', forall o h lk,
      make_from args (mkState o h e lk) = Ret (y, a') (mkState o h e' lk)) \/
  (exists e', forall o h lk,
      make_from args (mkState o h e lk) = Throw (mkState o h e' lk)) \/
  (forall o h lk, make_from args (mkState o h e lk) = Fault IllFormed).
Proof.
  destruct args as [x | x | x | mk]; unfold make_from.
  - destruct is_copy_constructible; [| by right; right].
    destruct (copy_ctor x e) as [[y |] e'] eqn:Hc; [left | right; left];
      repeat eexists; intros; simpl; by rewrite Hc.
  - destruct (move_ctor x e) as [[[y |] x'] e'] eqn:Hc; [left | right; left];
      repeat eexists; intros; simpl; by rewrite Hc.
  - destruct is_copy_constructible; [| by right; right].
    destruct (copy_ctor x e) as [[y |] e'] eqn:Hc; [left | right; left];
      repeat eexists; intros; simpl; by rewrite Hc.
  - destruct (mk e) as [[y |] e'] eqn:Hc; [left | right; left];
      repeat eexists; intros; simpl; by rewrite Hc.
Qed.

Lemma make_from_Ret_frame args y a' o h e lk s1 :
  make_from args (mkState o h e lk) = Ret (y, a') s1 ->
  exists e1, s1 = mkState o h e1 lk /\
    forall o' h' lk',
      make_from args (mkState o' h' e lk') = Ret (y, a') (mkState o' h' e1 lk').
Proof.
  destruct (make_from_env args o h e lk)
    as [(y0 & a0 & e0 & H) | [(e0 & H) | H]]; rewrite H; [| done..].
  intros [= <- <- <-]. by exists e0.
Qed.

Lemma make_from_Throw_frame args o h e lk s1 :
  make_from args (mkState o h e lk) = Throw s1 ->
  exists e1, s1 = mkState o h e1 lk /\
    forall o' h' lk',
      make_from args (mkState o' h' e lk') = Throw (mkState o' h' e1 lk').
Proof.
  destruct (make_from_env args o h e lk)
    as [(y0 & a0 & e0 & H) | [(e0 & H) | H]]; rewrite H; [done | | done].
  intros [= <-]. by exists e0.
Qed.

Lemma EmplaceBack_new_capacity_pos (v : Vector) :
  size_ v = Capacity v -> size_ v < EmplaceBack_new_capacity v.
Proof.
  intros H. unfold EmplaceBack_new_capacity. rewrite H, Nat.eqb_refl.
  destruct (Nat.eqb_spec (Capacity v) 0); lia.
Qed.

(** When the constructor of the new element throws, [EmplaceBack]
    throws and the state is the one the constructor left: only the
    state of the element type may differ from the state before the
    call. *)
Lemma EmplaceBack_ctor_throws this (v : Vector) args o h e lk s1 :
  o !! this = Some v -> size_ v <= Capacity v ->
  make_from args (mkState o h e lk) = Throw s1 ->
  EmplaceBack this args (mkState o h e lk) = Throw s1.
Proof.
  intros Ho Hle Hmk. unfold EmplaceBack.
  erewrite bind_Ret by (by apply get_obj_eq).
  apply bind_Throw.
  destruct (Nat.ltb_spec (size_ v) (Capacity v)) as [Hlt | Hge].
  - erewrite bind_Ret
      by (apply RawMemory_plus_eq; unfold Capacity, RawMemory_Capacity in *; lia).
    unfold forward_construct. by apply bind_Throw.
  - assert (size_ v = Capacity v) as Heq by lia.
    pose proof (EmplaceBack_new_capacity_pos v Heq) as Hpos.
    unfold with_RawMemory.
    erewrite bind_Ret by (apply RawMemory_ctor_eq; lia).
    apply bind_Throw.
    destruct (make_from_Throw_frame args o h e lk s1 Hmk) as (e1 & -> & Hmk').
    eapply on_unwind_Throw.
    { erewrite bind_Ret by (apply RawMemory_plus_eq; simpl; lia).
      apply bind_Throw. unfold forward_construct. apply bind_Throw. apply Hmk'. }
    unfold RawMemory_dtor; simpl.
    erewrite Deallocate_eq by (by rewrite lookup_insert_eq).
    rewrite delete_insert_id by apply fresh_block_None.
    by rewrite live_objects_replicate, app_nil_r.
Qed.

End EmplaceBack.

Section EmplaceBackGrowth.
Context {T E : Type} {elem : Element T E} {laws : ElementLaws T E}.
Implicit Types (o : gmap vaddr Vector) (h : gmap block (list (option T)))
  (e : E) (lk : list T) (sl nsl : list (option T)) (l : list T)
  (args : CtorArgs T E).

Lemma push_slot_in_place l (y : T) cap :
  length l < cap ->
  <[length l := Some y]> ((Some <$> l) ++ replicate (cap - length l) None)
  = (Some <$> (l ++ [y])) ++ replicate (cap - length (l ++ [y])) None.
Proof.
  intros Hlt. rewrite insert_app_r_alt by (by rewrite length_fmap).
  rewrite length_fmap, Nat.sub_diag, length_app; simpl.
  replace (cap - length l) with (S (cap - (length l + 1))) by lia.
  simpl. by rewrite fmap_app, <- app_assoc.
Qed.

Lemma push_slot_new_block l (y : T) ncap :
  length l < ncap ->
  list_inserts 0 (Some <$> l) (<[length l := Some y]> (replicate ncap None))
  = (Some <$> (l ++ [y])) ++ replicate (ncap - length (l ++ [y])) None.
Proof.
  intros Hlt. rewrite insert_replicate_lt by done.
  rewrite list_inserts_0_r by (by rewrite length_fmap, length_replicate).
  rewrite fmap_app, <- app_assoc, length_app; simpl.
  do 3 f_equal. lia.
Qed.

Lemma raw_range_insert_after (sl : list (option T)) i n j y :
  i + n <= j -> raw_range sl i n -> raw_range (<[j := y]> sl) i n.
Proof.
  intros Hj H k Hk. rewrite list_lookup_insert_ne by lia. by apply H.
Qed.

Lemma live_objects_one_new l_len (y : T) ncap :
  l_len < ncap ->
  live_objects (<[l_len := Some y]> (replicate ncap (@None T))) = [y].
Proof.
  intros Hlt. rewrite insert_replicate_lt by done.
  unfold live_objects. rewrite omap_app. simpl.
  pose proof (live_objects_replicate (T := T)) as Hraw.
  unfold live_objects in Hraw. by rewrite !Hraw.
Qed.

(** When the constructor of the new element returns [y], [EmplaceBack]
    on a valid vector holding [l] either returns or throws because a
    constructor called by the relocation threw.
    - When it returns, the vector holds [l ++ [y]], the result refers
      to the new last element, the storage outside the vector is as it
      was; with a free slot the block is kept, without one the capacity
      is doubled (1 for a capacity of 0).
    - It throws only from the relocation into a new block; the vector
      object is as it was, and so is the heap after a relocation by
      copy, but the new element lost its storage alive. *)
Lemma EmplaceBack_run this (v : Vector) l args y a' o h e lk s1 :
  o !! this = Some v -> vec_rep v l h ->
  make_from args (mkState o h e lk) = Ret (y, a') s1 ->
  (exists v' h' e',
     EmplaceBack this args (mkState o h e lk)
       = Ret (ptr_add (buffer_ (data_ v')) (Z.of_nat (length l)), a')
             (mkState (<[this := v']> o) h' e' lk) /\
     vec_rep v' (l ++ [y]) h' /\
     heap_outside v' h' = heap_outside v h /\
     (if length l <? capacity_ (data_ v) then data_ v' = data_ v
      else capacity_ (data_ v')
           = if capacity_ (data_ v) =? 0 then 1 else capacity_ (data_ v) * 2))
  \/ (exists h' e',
        EmplaceBack this args (mkState o h e lk)
          = Throw (mkState o h' e' (lk ++ [y])) /\
        length l = capacity_ (data_ v) /\
        (if relocate_by_move then move_ctor_can_throw
         else copy_ctor_can_throw /\ h' = h)).
Proof.
  intros Ho Hrep Hmk. unfold EmplaceBack.
  destruct (make_from_Ret_frame args y a' o h e lk s1 Hmk) as (e1 & -> & Hmk').
  erewrite bind_Ret by (by apply get_obj_eq).
  destruct (vec_rep_inv v l h Hrep) as [[-> ->] | (b & cap & -> & Hle & Hb)].
  - (* no block yet *)
    left. simpl size_. unfold Capacity, RawMemory_Capacity; simpl.
    unfold EmplaceBack_new_capacity; simpl.
    set (nb := fresh (dom h)).
    assert (h !! nb = None) as Hfresh by apply fresh_block_None.
    erewrite bind_Ret.
    2:{ eapply with_RawMemory_Ret; [done | |].
        - erewrite bind_Ret by (by apply RawMemory_plus_eq; simpl; lia).
          erewrite bind_Ret.
          2:{ unfold forward_construct. erewrite bind_Ret by apply Hmk'.
              simpl. erewrite bind_Ret; [done |].
              eapply (emplace_at_raw _ nb 0).
              { by split. }
              { by rewrite lookup_insert_eq. }
              done. }
          erewrite bind_Ret by (by apply MoveOrCopy_null). done.
        - apply Deallocate_null. }
    erewrite bind_Ret by (by apply incr_size_eq; rewrite lookup_insert_eq).
    erewrite bind_Ret by (by apply get_obj_eq; rewrite lookup_insert_eq).
    simpl. erewrite bind_Ret by (by apply RawMemory_at_eq; simpl; lia).
    unfold ret. rewrite insert_insert_eq.
    exists (mkVector (mkRawMemory (Ptr (Some nb) 0) 1) 1). eexists _, _.
    split; [done |]. split.
    { apply (vec_rep_block nb 1 [y]); [simpl; lia |].
      by rewrite insert_insert_eq, lookup_insert_eq. }
    split; [| done].
    unfold heap_outside; simpl.
    by rewrite insert_insert_eq, delete_insert_id.
  - unfold Capacity, RawMemory_Capacity; simpl.
    destruct (Nat.ltb_spec (length l) cap) as [Hlt | Hge].
    + (* a free slot *)
      left.
      erewrite bind_Ret.
      2:{ erewrite bind_Ret by (by apply RawMemory_plus_eq; simpl; lia).
          unfold forward_construct. erewrite bind_Ret by exact Hmk.
          simpl. erewrite bind_Ret; [done |].
          eapply (emplace_at_raw _ b (length l)); [| done |].
          { split; simpl; [done | lia]. }
          rewrite lookup_app_r by (by rewrite length_fmap).
          rewrite length_fmap, Nat.sub_diag.
          apply lookup_replicate. split; [done | lia]. }
      erewrite bind_Ret by (by apply incr_size_eq).
      erewrite bind_Ret by (by apply get_obj_eq; rewrite lookup_insert_eq).
      simpl. erewrite bind_Ret by (by apply RawMemory_at_eq; simpl; lia).
      unfold ret. rewrite Nat.add_sub.
      exists (mkVector (mkRawMemory (Ptr (Some b) 0) cap) (length l + 1)).
      eexists _, _. split; [done |].
      rewrite push_slot_in_place by done.
      split.
      { replace (length l + 1) with (length (l ++ [y])) by (by rewrite length_app).
        apply vec_rep_block; [rewrite length_app; simpl; lia |].
        by rewrite lookup_insert_eq. }
      split; [| done].
      unfold heap_outside; simpl. by rewrite delete_insert_eq.
    + (* the block is full: grow *)
      assert (cap = length l) as -> by lia.
      unfold EmplaceBack_new_capacity.
      unfold Capacity, RawMemory_Capacity; simpl. rewrite Nat.eqb_refl.
      set (ncap := if length l =? 0 then 1 else length l * 2).
      assert (length l < ncap) as Hn
        by (unfold ncap; destruct (Nat.eqb_spec (length l) 0); lia).
      set (nb := fresh (dom h)).
      assert (h !! nb = None) as Hfresh by apply fresh_block_None.
      assert (nb <> b) as Hnb by congruence.
      assert (forward_construct args (ptr_add (Ptr (Some nb) 0) (Z.of_nat (length l)))
                (mkState o (<[nb := replicate ncap None]> h) e lk)
              = Ret a' (mkState o
                          (<[nb := <[length l := Some y]> (replicate ncap None)]> h)
                          e1 lk)) as Hfc.
      { unfold forward_construct. erewrite bind_Ret by apply Hmk'.
        simpl. erewrite bind_Ret.
        2:{ eapply (emplace_at_raw _ nb (length l)).
            { split; simpl; [done | lia]. }
            { by rewrite lookup_insert_eq. }
            apply lookup_replicate. split; [done | lia]. }
        unfold ret. by rewrite insert_insert_eq. }
      destruct (MoveOrCopy_block this b (length l) l nb ncap
                  (<[length l := Some y]> (replicate ncap None)) o
                  (<[nb := <[length l := Some y]> (replicate ncap None)]> h)
                  e1 lk) as (e2 & [Hmc | (xs' & Hlen & Hcopy & Hmc & Hthrow)]);
        try done.
      { rewrite lookup_insert_ne by done. by rewrite Nat.sub_diag in *. }
      { by rewrite lookup_insert_eq. }
      { apply raw_range_insert_after; [lia |]. apply raw_range_replicate. lia. }
      * left.
        erewrite bind_Ret.
        2:{ eapply with_RawMemory_Ret; [lia | |].
            - erewrite bind_Ret by (by apply RawMemory_plus_eq; simpl; lia).
              erewrite bind_Ret by exact Hfc.
              erewrite bind_Ret by exact Hmc. done.
            - apply Deallocate_eq.
              by rewrite lookup_insert_ne, lookup_insert_eq. }
        erewrite bind_Ret by (by apply incr_size_eq; rewrite lookup_insert_eq).
        erewrite bind_Ret by (by apply get_obj_eq; rewrite lookup_insert_eq).
        simpl. erewrite bind_Ret by (by apply RawMemory_at_eq; simpl; lia).
        unfold ret. rewrite insert_insert_eq, Nat.add_sub.
        rewrite live_objects_replicate, app_nil_r.
        exists (mkVector (mkRawMemory (Ptr (Some nb) 0) ncap) (length l + 1)).
        eexists _, _. split; [done |].
        split.
        { replace (length l + 1) with (length (l ++ [y])) by (by rewrite length_app).
          apply vec_rep_block; [rewrite length_app; simpl; lia |].
          rewrite lookup_delete_ne, lookup_insert_eq by done.
          by rewrite push_slot_new_block. }
        split; [| done].
        unfold heap_outside; simpl. heap_del_eq.
      * right. eexists _, _. split.
        { apply bind_Throw.
          eapply with_RawMemory_Throw; [lia | |].
          -- erewrite bind_Ret by (by apply RawMemory_plus_eq; simpl; lia).
             erewrite bind_Ret by exact Hfc.
             apply bind_Throw. exact Hmc.
          -- unfold RawMemory_dtor; simpl.
             erewrite Deallocate_eq
               by (by rewrite lookup_insert_ne, lookup_insert_eq).
             by rewrite live_objects_one_new. }
        split; [done |].
        destruct relocate_by_move; [done |].
        split; [done |]. rewrite Hcopy by done.
        heap_del_eq.
Qed.

(** When the constructor of the new element returns [y], [EmplaceBack]
    on a valid vector holding [l] either returns, the vector then
    holding [l ++ [y]], or throws because a constructor called by the
    relocation threw. *)
Lemma EmplaceBack_ok this (v : Vector) l args y a' o h e lk s1 :
  o !! this = Some v -> vec_rep v l h ->
  make_from args (mkState o h e lk) = Ret (y, a') s1 ->
  (exists p v' h' e',
     EmplaceBack this args (mkState o h e lk)
       = Ret (p, a') (mkState (<[this := v']> o) h' e' lk) /\
     vec_rep v' (l ++ [y]) h')
  \/ (exists s', EmplaceBack this args (mkState o h e lk) = Throw s' /\
                 (copy_ctor_can_throw \/ move_ctor_can_throw)).
Proof.
  intros Ho Hrep Hmk.
  destruct (EmplaceBack_run this v l args y a' o h e lk s1 Ho Hrep Hmk)
    as [(v' & h' & e' & Hrun & Hrep' & _) | (h' & e' & Hrun & _ & Hthrow)].
  - left. by eexists _, v', h', e'.
  - right. eexists. split; [exact Hrun |].
    destruct relocate_by_move; [by right | left; apply Hthrow].
Qed.

End EmplaceBackGrowth.

(** ** Reserve, Resize, PopBack *)

Section Capacity.
Context {T E : Type} {elem : Element T E} {laws : ElementLaws T E}.
Implicit Types (o : gmap vaddr Vector) (h : gmap block (list (option T)))
  (e : E) (lk : list T) (sl nsl : list (option T)) (l : list T).

Lemma block_fill_new l n :
  length l <= n ->
  list_inserts 0 (Some <$> l) (replicate n None)
  = (Some <$> l) ++ replicate (n - length l) None.
Proof.
  intros Hle.
  replace n with (length l + (n - length l)) at 1 by lia.
  rewrite replicate_add.
  apply list_inserts_0_r. by rewrite length_fmap, length_replicate.
Qed.

(** [Reserve] on a valid vector holding [l].  With [new_capacity] not
    above the capacity it does nothing.  Otherwise it returns, the
    vector then holding [l] in a new block of exactly [new_capacity]
    slots, the storage outside the vector as it was, or a constructor
    of the relocation throws; after a failed relocation by copy the
    state is the one before the call, but for the state of the element
    type. *)
Lemma Reserve_run this (v : Vector) l n o h e lk :
  o !! this = Some v -> vec_rep v l h ->
  (n <= capacity_ (data_ v) /\
   Reserve this n (mkState o h e lk) = Ret tt (mkState o h e lk))
  \/ (capacity_ (data_ v) < n /\
      ((exists v1 h1 e1,
          Reserve this n (mkState o h e lk)
            = Ret tt (mkState (<[this := v1]> o) h1 e1 lk) /\
          vec_rep v1 l h1 /\ capacity_ (data_ v1) = n /\
          heap_outside v1 h1 = heap_outside v h)
       \/ (exists h1 e1,
             Reserve this n (mkState o h e lk) = Throw (mkState o h1 e1 lk) /\
             (if relocate_by_move then move_ctor_can_throw
              else copy_ctor_can_throw /\ h1 = h)))).
Proof.
  intros Ho Hrep. unfold Reserve.
  erewrite bind_Ret by (by apply get_obj_eq).
  unfold RawMemory_Capacity.
  destruct (Nat.leb_spec n (capacity_ (data_ v))) as [Hle | Hgt].
  { by left. }
  right. split; [done |].
  set (nb := fresh (dom h)).
  assert (h !! nb = None) as Hfresh by apply fresh_block_None.
  destruct (vec_rep_inv v l h Hrep) as [[-> ->] | (b & cap & -> & Hle & Hb)].
  - left. exists (mkVector (mkRawMemory (Ptr (Some nb) 0) n) 0). eexists _, _.
    split.
    { eapply with_RawMemory_Ret; [lia | |].
      - erewrite bind_Ret by (by apply MoveOrCopy_null). done.
      - apply Deallocate_null. }
    split.
    { apply (vec_rep_block nb n []); [simpl; lia |].
      rewrite lookup_insert_eq. simpl. by rewrite Nat.sub_0_r. }
    split; [done |].
    unfold heap_outside; simpl. by rewrite delete_insert_id.
  - simpl in Hgt. assert (nb <> b) as Hnb by congruence.
    destruct (MoveOrCopy_block this b cap l nb n (replicate n None) o
                (<[nb := replicate n None]> h) e lk)
      as (e2 & [Hmc | (xs' & Hlen & Hcopy & Hmc & Hthrow)]); try done.
    { by rewrite lookup_insert_ne. }
    { by rewrite lookup_insert_eq. }
    { apply raw_range_replicate. lia. }
    + left. exists (mkVector (mkRawMemory (Ptr (Some nb) 0) n) (length l)).
      eexists _, _. split.
      { eapply with_RawMemory_Ret; [lia | |].
        - erewrite bind_Ret by exact Hmc. done.
        - eapply Deallocate_raw. by rewrite lookup_insert_ne, lookup_insert_eq. }
      split.
      { apply vec_rep_block; [lia |].
        rewrite lookup_delete_ne, lookup_insert_eq by done.
        by rewrite block_fill_new by lia. }
      split; [done |].
      unfold heap_outside; simpl. heap_del_eq.
    + right. eexists _, _. split.
      { eapply with_RawMemory_Throw; [lia | |].
        - apply bind_Throw. exact Hmc.
        - eapply Deallocate_raw. by rewrite lookup_insert_ne, lookup_insert_eq. }
      destruct relocate_by_move; [done |].
      split; [done |]. rewrite Hcopy by done.
      rewrite delete_insert_ne, delete_insert_id by done.
      by rewrite insert_id.
Qed.


Lemma pop_slot l (x : T) cap :
  length (l ++ [x]) <= cap ->
  <[length l := None]> ((Some <$> (l ++ [x])) ++ replicate (cap - length (l ++ [x])) None)
  = (Some <$> l) ++ replicate (cap - length l) None.
Proof.
  rewrite length_app; simpl. intros Hle.
  rewrite fmap_app, <- app_assoc.
  rewrite insert_app_r_alt by (by rewrite length_fmap).
  rewrite length_fmap, Nat.sub_diag. simpl.
  replace (cap - length l) with (S (cap - (length l + 1))) by lia.
  done.
Qed.

(** [PopBack] on a valid vector holding [l ++ [x]] returns, the vector
    then holding [l] in the block it had, with the capacity it had. *)
Lemma PopBack_run this (v : Vector) l x o h e lk :
  o !! this = Some v -> vec_rep v (l ++ [x]) h ->
  exists h' e',
    PopBack this (mkState o h e lk)
    = Ret tt (mkState (<[this := mkVector (data_ v) (length l)]> o) h' e' lk) /\
    vec_rep (mkVector (data_ v) (length l)) l h' /\
    heap_outside v h' = heap_outside v h.
Proof.
  intros Ho Hrep. unfold PopBack.
  erewrite bind_Ret by (by apply get_obj_eq).
  destruct (vec_rep_inv v _ h Hrep) as [[_ Hnil] | (b & cap & -> & Hle & Hb)].
  { by destruct l. }
  simpl.
  destruct (destroy_n_eq [x]
              (ptr_add (ptr_add (Ptr (Some b) 0) (Z.of_nat (length (l ++ [x])))) (-1))
              b (length l) h
              ((Some <$> (l ++ [x])) ++ replicate (cap - length (l ++ [x])) None)
              o e lk) as [e' Hd]; [| exact Hb | |].
  { split; simpl; [done |]. rewrite length_app; simpl. lia. }
  { intros k y Hy. destruct k as [| k]; [| by destruct k]. injection Hy as <-.
    rewrite Nat.add_0_r.
    rewrite lookup_app_l by (rewrite length_fmap, length_app; simpl; lia).
    rewrite list_lookup_fmap.
    by rewrite lookup_app_r, Nat.sub_diag by done. }
  simpl length in Hd. erewrite bind_Ret by exact Hd.
  erewrite decr_size_eq by done.
  eexists _, _. simpl.
  replace (length (l ++ [x]) - 1) with (length l)
    by (rewrite length_app; simpl; lia).
  split; [done |].
  rewrite pop_slot by done.
  split.
  - apply vec_rep_block; [rewrite length_app in Hle; simpl in Hle; lia |].
    by rewrite lookup_insert_eq.
  - unfold heap_outside; simpl. by rewrite delete_insert_eq.
Qed.

(** [PopBack] on a valid vector holding [l ++ [x]] returns, the vector
    then holding [l]. *)
Lemma PopBack_ok this (v : Vector) l x o h e lk :
  o !! this = Some v -> vec_rep v (l ++ [x]) h ->
  exists v' h' e',
    PopBack this (mkState o h e lk) = Ret tt (mkState (<[this := v']> o) h' e' lk) /\
    vec_rep v' l h'.
Proof.
  intros Ho Hrep.
  destruct (PopBack_run this v l x o h e lk Ho Hrep)
    as (h' & e' & Hrun & Hrep' & _).
  by eexists _, h', e'.
Qed.

End Capacity.

(** ** PushBack and PopBack against the list model *)

Section Refinement.
Context {T E : Type} {elem : Element T E} {laws : ElementLaws T E}.
Implicit Types (o : gmap vaddr Vector) (h : gmap block (list (option T)))
  (e : E) (lk : list T) (l : list T) (s : State T E).

(** The constructor call of [PushBack(const T&)]: the copy constructor,
    applied to the argument, which it leaves as it is. *)
Lemma make_from_const x o h e lk :
  is_copy_constructible = true ->
  (exists e', copy_ctor x e = (Some x, e') /\
     make_from (FromConstRRef x) (mkState o h e lk)
     = Ret (x, FromConstRRef x) (mkState o h e' lk)) \/
  (exists e', copy_ctor x e = (None, e') /\
     make_from (FromConstRRef x) (mkState o h e lk) = Throw (mkState o h e' lk)).
Proof.
  intros Hcc. unfold make_from. rewrite Hcc. simpl.
  destruct (copy_ctor x e) as [[y |] e'] eqn:Hc; [left | right]; exists e'.
  - apply copy_ctor_value in Hc as Hy. subst y. done.
  - done.
Qed.

(** The constructor call of [PushBack(T&&)]: the move constructor. *)
Lemma make_from_rvalue x o h e lk :
  (exists x' e', move_ctor x e = (Some x, x', e') /\
     make_from (FromRRef x) (mkState o h e lk)
     = Ret (x, FromRRef x') (mkState o h e' lk)) \/
  (exists x' e', move_ctor x e = (None, x', e') /\
     make_from (FromRRef x) (mkState o h e lk) = Throw (mkState o h e' lk)).
Proof.
  unfold make_from. simpl.
  destruct (move_ctor x e) as [[[y |] x'] e'] eqn:Hc; [left | right];
    exists x', e'.
  - apply move_ctor_value in Hc as Hy. subst y. done.
  - done.
Qed.

Lemma reference_pop_inv l l' :
  reference_op l OpPopBack = Some l' -> exists x, l = l' ++ [x].
Proof.
  unfold reference_op. destruct l as [| x0 l0]; [done |].
  intros H. change (Some (removelast (x0 :: l0)) = Some l') in H.
  apply (inj Some) in H. subst l'.
  destruct (exists_last (l := x0 :: l0)) as (l1 & x & Heq); [done |].
  exists x. rewrite Heq. by rewrite removelast_last.
Qed.

Lemma holds_after this (v' : Vector) l o h e lk :
  vec_rep v' l h -> holds this l (mkState (<[this := v']> o) h e lk).
Proof. intros H. exists v'. simpl. by rewrite lookup_insert_eq. Qed.

(** One operation of the sequence keeps the vector equal to the model,
    unless a constructor throws. *)
Lemma apply_op_refines this (op1 : op) l l' s :
  (forall x, op1 = OpPushBack x -> is_copy_constructible = true) ->
  holds this l s -> reference_op l op1 = Some l' ->
  match apply_op this op1 s with
  | Ret _ s' => holds this l' s'
  | Throw _ => copy_ctor_can_throw \/ move_ctor_can_throw
  | Fault _ => False
  end.
Proof.
  intros Hcc (v & Ho & Hrep) Href.
  destruct s as [o h e lk]; simpl in *.
  destruct op1 as [x | x |]; simpl in *.
  - injection Href as <-. unfold PushBack_const.
    destruct (make_from_const x o h e lk) as [(e' & Hc & Hmk) | (e' & Hc & Hmk)];
      [by eapply Hcc | |].
    + destruct (EmplaceBack_ok this v l _ _ _ o h e lk _ Ho Hrep Hmk)
        as [(p & v' & h' & e2 & Hrun & Hrep') | (s' & Hrun & Hthrow)].
      * erewrite bind_Ret.
        2:{ erewrite bind_Ret by exact Hrun. done. }
        by apply holds_after.
      * erewrite bind_Throw; [done |]. by apply bind_Throw.
    + erewrite bind_Throw.
      2:{ apply bind_Throw.
          eapply EmplaceBack_ctor_throws; [done | | exact Hmk].
          destruct (vec_rep_inv v l h Hrep) as [[-> ->] | (b & cap & -> & Hle & _)];
            unfold Capacity, RawMemory_Capacity; simpl; lia. }
      left. exists x, e. by rewrite Hc.
  - injection Href as <-. unfold PushBack_move.
    destruct (make_from_rvalue x o h e lk)
      as [(x' & e' & Hc & Hmk) | (x' & e' & Hc & Hmk)].
    + destruct (EmplaceBack_ok this v l _ _ _ o h e lk _ Ho Hrep Hmk)
        as [(p & v' & h' & e2 & Hrun & Hrep') | (s' & Hrun & Hthrow)].
      * erewrite bind_Ret.
        2:{ erewrite bind_Ret by exact Hrun. done. }
        by apply holds_after.
      * erewrite bind_Throw; [done |]. by apply bind_Throw.
    + erewrite bind_Throw.
      2:{ apply bind_Throw.
          eapply EmplaceBack_ctor_throws; [done | | exact Hmk].
          destruct (vec_rep_inv v l h Hrep) as [[-> ->] | (b & cap & -> & Hle & _)];
            unfold Capacity, RawMemory_Capacity; simpl; lia. }
      right. exists x, e. by rewrite Hc.
  - destruct (reference_pop_inv l l' Href) as [x ->].
    destruct (PopBack_ok this v l' x o h e lk Ho Hrep)
      as (v' & h' & e' & Hrun & Hrep').
    rewrite Hrun. by apply holds_after.
Qed.

Lemma apply_ops_refines this (ops : list op) : forall l l' s,
  (forall x, In (OpPushBack x) ops -> is_copy_constructible = true) ->
  holds this l s -> reference_ops l ops = Some l' ->
  match apply_ops this ops s with
  | Ret _ s' => holds this l' s'
  | Throw _ => copy_ctor_can_throw \/ move_ctor_can_throw
  | Fault _ => False
  end.
Proof.
  induction ops as [| op1 ops IH]; intros l l' s Hcc Hholds Href.
  - injection Href as <-. done.
  - simpl in Href. destruct (reference_op l op1) as [l1 |] eqn:Hop; [| done].
    pose proof (apply_op_refines this op1 l l1 s) as Hstep.
    simpl. unfold bind.
    destruct (apply_op this op1 s) as [[] s1 | s1 | f].
    + apply (IH l1 l' s1); [| | done].
      * intros x Hx. apply (Hcc x). by right.
      * apply Hstep; [| done..]. intros x ->. apply (Hcc x). by left.
    + apply Hstep; [| done..]. intros x ->. apply (Hcc x). by left.
    + apply Hstep; [| done..]. intros x ->. apply (Hcc x). by left.
Qed.


(** With constructors that do not throw, the sequence runs to its
    end. *)
Corollary push_pop_completes (this : vaddr) (ops : list op) (l : list T) s :
  ~ copy_ctor_can_throw -> ~ move_ctor_can_throw ->
  (forall x, In (OpPushBack x) ops -> is_copy_constructible = true) ->
  reference_ops [] ops = Some l ->
  exists s',
    (Vector_ctor_default this >> apply_ops this ops) s = Ret tt s' /\
    holds this l s'.
Proof.
  intros Hnc Hnm Hcc Href. destruct s as [o h e lk].
  erewrite bind_Ret by reflexivity.
  pose proof (apply_ops_refines this ops [] l
                (mkState (<[this := mkVector RawMemory_default 0]> o) h e lk)
                Hcc) as H.
  destruct (apply_ops this ops _) as [[] s' | s' | f].
  - exists s'. split; [done |]. apply H; [| done].
    exists (mkVector RawMemory_default 0). simpl. by rewrite lookup_insert_eq.
  - destruct H as [H | H]; [| done | by destruct Hnc | by destruct Hnm].
    exists (mkVector RawMemory_default 0). simpl. by rewrite lookup_insert_eq.
  - destruct H; [| done].
    exists (mkVector RawMemory_default 0). simpl. by rewrite lookup_insert_eq.
Qed.

End Refinement.


(** ** A failing construction of the new elements *)

Section ConstructionFailure.
Context {T E : Type} {elem : Element T E} {laws : ElementLaws T E}.
Implicit Types (o : gmap vaddr Vector) (h : gmap block (list (option T)))
  (e : E) (lk : list T) (l : list T) (s : State T E).

Lemma vec_rep_size_le (v : Vector) l h :
  vec_rep v l h -> size_ v <= Capacity v.
Proof.
  intros Hrep.
  destruct (vec_rep_inv v l h Hrep) as [[-> ->] | (b & cap & -> & Hle & _)];
    unfold Capacity, RawMemory_Capacity; simpl; lia.
Qed.



End ConstructionFailure.


(** ** Copy assignment *)

Section CopyAssignment.
Context {T E : Type} {elem : Element T E} {laws : ElementLaws T E}.
Implicit Types (o : gmap vaddr Vector) (h : gmap block (list (option T)))
  (e : E) (lk : list T) (l lA lB : list T) (s : State T E).


Lemma live_range_drop (l : list T) rest n :
  live_range ((Some <$> l) ++ rest) n (drop n l).
Proof.
  intros k x Hx. rewrite lookup_drop in Hx.
  rewrite lookup_app_l by (rewrite length_fmap; eauto using lookup_lt_Some).
  by rewrite list_lookup_fmap, Hx.
Qed.


(** The temporary of the reallocating branch: [Vector tmp(rhs)]. *)
Lemma Vector_ctor_copy_cases tmp A lA bA capA o h e lk :
  is_copy_constructible = true -> lA <> [] ->
  o !! A = Some (mkVector (mkRawMemory (Ptr (Some bA) 0) capA) (length lA)) ->
  h !! bA = Some ((Some <$> lA) ++ replicate (capA - length lA) None) ->
  exists e',
    Vector_ctor_copy tmp A (mkState o h e lk)
    = Ret tt (mkState
                (<[tmp := mkVector (mkRawMemory (Ptr (Some (fresh (dom h))) 0)
                                      (length lA)) (length lA)]> o)
                (<[fresh (dom h) := Some <$> lA]> h) e' lk)
    \/ (Vector_ctor_copy tmp A (mkState o h e lk) = Throw (mkState o h e' lk)
        /\ copy_ctor_can_throw).
Proof.
  intros Hcc Hne Ho Hb. unfold Vector_ctor_copy.
  erewrite bind_Ret by (by apply get_obj_eq). simpl.
  assert (length lA <> 0) as Hlen by (by destruct lA).
  erewrite bind_Ret by (by apply RawMemory_ctor_eq).
  set (nb := fresh (dom h)).
  assert (h !! nb = None) as Hfresh by apply fresh_block_None.
  assert (bA <> nb) as Hnb by congruence.
  destruct (uninitialized_copy_n_eq lA (Ptr (Some bA) 0) (Ptr (Some nb) 0)
              bA nb 0 0 (<[nb := replicate (length lA) None]> h)
              ((Some <$> lA) ++ replicate (capA - length lA) None)
              (replicate (length lA) None) o e lk)
    as (e1 & [Hrun | [Hrun Hthrow]]);
    eauto using points_to_start, live_range_app_l.
  { by rewrite lookup_insert_ne. }
  { by rewrite lookup_insert_eq. }
  { apply raw_range_replicate. lia. }
  - exists e1. left.
    erewrite bind_Ret by (apply on_unwind_Ret; exact Hrun).
    unfold put_obj, set_objs; simpl. do 2 f_equal.
    rewrite insert_insert_eq. f_equal.
    rewrite block_fill_new by done.
    by rewrite Nat.sub_diag, app_nil_r.
  - exists e1. right. split; [| done].
    apply bind_Throw. eapply on_unwind_Throw; [exact Hrun |].
    unfold RawMemory_dtor; simpl.
    erewrite Deallocate_raw by (by rewrite lookup_insert_eq).
    by rewrite delete_insert_id.
Qed.

(** The end of the temporary that took the old content of the
    receiver: [~Vector()] on a valid vector. *)
Lemma Vector_dtor_eq tmp (v : Vector) l o h e lk :
  o !! tmp = Some v -> vec_rep v l h ->
  exists e',
    Vector_dtor tmp (mkState o h e lk)
    = Ret tt (mkState (delete tmp o)
                (match base (buffer_ (data_ v)) with
                 | Some b => delete b h
                 | None => h
                 end) e' lk).
Proof.
  intros Ho Hrep. unfold Vector_dtor.
  erewrite bind_Ret by (by apply get_obj_eq).
  destruct (vec_rep_inv v l h Hrep) as [[-> ->] | (b & cap & -> & Hle & Hb)];
    simpl.
  - exists e. erewrite bind_Ret by done.
    by erewrite bind_Ret by apply Deallocate_null.
  - destruct (destroy_n_eq l (Ptr (Some b) 0) b 0 h
                ((Some <$> l) ++ replicate (cap - length l) None) o e lk)
      as [e' Hd]; eauto using points_to_start, live_range_app_l.
    exists e'. erewrite bind_Ret by exact Hd.
    rewrite (block_clear_0 _ _ _ cap) by lia.
    erewrite bind_Ret
      by (eapply Deallocate_raw; by rewrite lookup_insert_eq).
    unfold drop_obj, set_objs; simpl.
    by rewrite delete_insert_eq.
Qed.

Lemma vec_rep_insert_fresh (v : Vector) l h nb sl :
  vec_rep v l h -> h !! nb = None -> vec_rep v l (<[nb := sl]> h).
Proof.
  unfold vec_rep. intros [Hsz H] Hnb. split; [done |].
  destruct (base (buffer_ (data_ v))) as [b |]; [| done].
  destruct H as (Hoff & Hle & Hb). repeat split; try done.
  rewrite lookup_insert_ne; [done | congruence].
Qed.



Lemma live_range_middle (pre rest : list (option T)) (xs : list T) :
  live_range (pre ++ (Some <$> xs) ++ rest) (length pre) xs.
Proof.
  intros k x Hx. rewrite lookup_app_r by lia.
  replace (length pre + k - length pre) with k by lia.
  rewrite lookup_app_l by (rewrite length_fmap; eauto using lookup_lt_Some).
  by rewrite list_lookup_fmap, Hx.
Qed.

Lemma block_clear_middle (pre rest : list (option T)) (xs : list T) :
  list_inserts (length pre) (replicate (length xs) None)
    (pre ++ (Some <$> xs) ++ rest)
  = pre ++ replicate (length xs) None ++ rest.
Proof.
  rewrite <- (Nat.add_0_r (length pre)) at 1.
  rewrite list_inserts_app_r. f_equal.
  apply list_inserts_0_r. by rewrite length_replicate, length_fmap.
Qed.

Lemma block_fill_middle (pre : list (option T)) (xs : list T) n :
  length xs <= n ->
  list_inserts (length pre) (Some <$> xs) (pre ++ replicate n None)
  = pre ++ (Some <$> xs) ++ replicate (n - length xs) None.
Proof.
  intros Hle. rewrite <- (Nat.add_0_r (length pre)) at 1.
  rewrite list_inserts_app_r. f_equal. by apply block_fill_new.
Qed.





End CopyAssignment.


(** ** Erase *)

Section EraseKeeps.
Context {T E : Type} {elem : Element T E} {laws : ElementLaws T E}.
Implicit Types (o : gmap vaddr Vector) (h : gmap block (list (option T)))
  (e : E) (lk : list T) (sl pre rest : list (option T)) (l : list T).

Lemma move_assign_at_eq ps pd b i j h sl x d o e lk :
  is_nothrow_move_assignable = true -> i <> j ->
  points_to ps b i -> points_to pd b j ->
  h !! b = Some sl -> sl !! i = Some (Some x) -> sl !! j = Some (Some d) ->
  exists x' e',
    move_assign_at ps pd (mkState o h e lk)
    = Ret tt (mkState o (<[b := <[j := Some x]> (<[i := Some x']> sl)]> h) e' lk).
Proof.
  intros Hnt Hij Hps Hpd Hh Hx Hd. unfold move_assign_at.
  erewrite bind_Ret by (by eapply load_eq).
  erewrite bind_Ret by (by eapply assignee_live). simpl.
  pose proof (nothrow_move_assign d x e Hnt) as Hok.
  destruct (move_assign d x e) as [[[ok d'] x'] e'] eqn:Hm. simpl in Hok. subst ok.
  apply move_assign_value in Hm as ->.
  unfold set_env; simpl.
  erewrite bind_Ret by (by eapply store_eq).
  erewrite bind_Ret.
  2:{ eapply assign_live; [done | by rewrite lookup_insert_eq |].
      by rewrite list_lookup_insert_ne. }
  exists x', e'. unfold ret. by rewrite insert_insert_eq.
Qed.

(** The loop of [Erase]: the elements behind the erased one move one
    slot to the front; the last slot keeps a moved-from object. *)
Lemma Erase_shift_eq l2 : forall p b pre x rest o h e lk,
  is_nothrow_move_assignable = true ->
  points_to p b (length pre) ->
  h !! b = Some (pre ++ Some x :: (Some <$> l2) ++ rest) ->
  exists x' e',
    Erase_shift p (length l2) (mkState o h e lk)
    = Ret tt (mkState o (<[b := pre ++ (Some <$> l2) ++ Some x' :: rest]> h) e' lk).
Proof.
  induction l2 as [| y l2 IH]; intros p b pre x rest o h e lk Hnt Hp Hh.
  - exists x, e. simpl. unfold ret. by rewrite insert_id.
  - simpl Erase_shift.
    destruct (move_assign_at_eq (ptr_add p 1) p b (S (length pre)) (length pre) h
                (pre ++ Some x :: (Some <$> (y :: l2)) ++ rest) y x o e lk)
      as (y' & e1 & Hm); try done.
    { by apply points_to_succ. }
    { rewrite lookup_app_r by lia.
      by replace (S (length pre) - length pre) with 1 by lia. }
    { rewrite lookup_app_r by lia. by rewrite Nat.sub_diag. }
    erewrite bind_Ret by exact Hm.
    destruct (IH (ptr_add p 1) b (pre ++ [Some y]) y' rest o
                (<[b := <[length pre := Some y]>
                          (<[S (length pre) := Some y']>
                             (pre ++ Some x :: (Some <$> (y :: l2)) ++ rest))]> h)
                e1 lk) as (x' & e2 & Hrec); [done | | |].
    { rewrite length_app; simpl.
      replace (length pre + 1) with (S (length pre)) by lia.
      by apply points_to_succ. }
    { rewrite lookup_insert_eq. f_equal.
      rewrite (insert_app_r_alt _ _ (S (length pre))) by lia.
      rewrite insert_app_r_alt by lia.
      replace (S (length pre) - length pre) with 1 by lia.
      rewrite Nat.sub_diag. simpl. by rewrite <- app_assoc. }
    exists x', e2. rewrite Hrec. do 2 f_equal.
    rewrite insert_insert_eq. f_equal. simpl.
    by rewrite <- app_assoc.
Qed.

(** [Erase] of the element [x] of a vector holding [l1 ++ x :: l2], for
    an element type whose move assignment does not throw, when another
    element stays: the vector then holds [l1 ++ l2], and the cursor
    returned is the one passed, now at the first element of [l2], or at
    [end()] if [x] was the last element. *)
Lemma Erase_keeps_others this b cap l1 x l2 o h e lk :
  is_nothrow_move_assignable = true ->
  l1 ++ l2 <> [] ->
  o !! this = Some (mkVector (mkRawMemory (Ptr (Some b) 0) cap)
                      (length (l1 ++ x :: l2))) ->
  length (l1 ++ x :: l2) <= cap ->
  h !! b = Some ((Some <$> (l1 ++ x :: l2))
                   ++ replicate (cap - length (l1 ++ x :: l2)) None) ->
  exists v' h' e',
    Erase this (Ptr (Some b) (Z.of_nat (length l1))) (mkState o h e lk)
    = Ret (Ptr (Some b) (Z.of_nat (length l1)))
          (mkState (<[this := v']> o) h' e' lk) /\
    vec_rep v' (l1 ++ l2) h' /\
    end_ this (mkState (<[this := v']> o) h' e' lk)
    = Ret (Ptr (Some b) (Z.of_nat (length (l1 ++ l2))))
          (mkState (<[this := v']> o) h' e' lk) /\
    data_ v' = mkRawMemory (Ptr (Some b) 0) cap /\
    delete b h' = delete b h.
Proof.
  intros Hnt Hne Ho Hle Hb.
  rewrite length_app in *; simpl in *.
  set (n := length l1 + S (length l2)) in *.
  set (v := mkVector (mkRawMemory (Ptr (Some b) 0) cap) n) in *.
  assert (begin_ this (mkState o h e lk) = Ret (Ptr (Some b) 0) (mkState o h e lk))
    as Hbegin.
  { unfold begin_. erewrite bind_Ret by (by apply get_obj_eq). simpl.
    destruct (Nat.ltb_spec 0 n) as [_ | ?]; [| lia].
    by erewrite RawMemory_at_eq by (simpl; lia). }
  assert (end_ this (mkState o h e lk)
          = Ret (Ptr (Some b) (Z.of_nat n)) (mkState o h e lk)) as Hend.
  { unfold end_. erewrite bind_Ret by exact Hbegin.
    by erewrite bind_Ret by (by apply get_obj_eq). }
  destruct (Erase_shift_eq l2 (Ptr (Some b) (Z.of_nat (length l1))) b
              (Some <$> l1) x (replicate (cap - n) None) o h e lk)
    as (x' & e1 & Hshift); [done | | |].
  { split; simpl; [done |]. by rewrite length_fmap. }
  { rewrite Hb. f_equal. by rewrite fmap_app, <- app_assoc. }
  set (h1 := <[b := (Some <$> l1) ++ (Some <$> l2) ++ Some x' :: replicate (cap - n) None]> h)
    in *.
  assert (begin_ this (mkState o h1 e1 lk) = Ret (Ptr (Some b) 0) (mkState o h1 e1 lk))
    as Hbegin1.
  { unfold begin_. erewrite bind_Ret by (by apply get_obj_eq). simpl.
    destruct (Nat.ltb_spec 0 n) as [_ | ?]; [| lia].
    by erewrite RawMemory_at_eq by (simpl; lia). }
  assert (length l1 + length l2 <> 0) as Hpos.
  { destruct l1, l2; simpl; try lia. by destruct Hne. }
  set (v' := mkVector (mkRawMemory (Ptr (Some b) 0) cap) (n - 1)).
  set (h2 := <[b := (Some <$> (l1 ++ l2)) ++ replicate (cap - (n - 1)) None]> h).
  exists v', h2, (dtor x' e1).
  assert (Erase this (Ptr (Some b) (Z.of_nat (length l1))) (mkState o h e lk)
          = Ret (Ptr (Some b) (Z.of_nat (length l1)))
                (mkState (<[this := v']> o) h2 (dtor x' e1) lk)) as Hrun.
  { unfold Erase. rewrite Hnt.
    erewrite bind_Ret.
    2:{ unfold cbegin. erewrite bind_Ret by exact Hbegin.
        erewrite bind_Ret by apply ptr_distance_same.
        erewrite bind_Ret by exact Hbegin.
        erewrite bind_Ret by exact Hend.
        unfold ptr_add; simpl.
        erewrite bind_Ret by (apply distance_same; unfold n; lia).
        replace (Z.to_nat (Z.of_nat n + -1 - (0 + (Z.of_nat (length l1) - 0))))
          with (length l2) by (unfold n; lia).
        replace (0 + (Z.of_nat (length l1) - 0))%Z
          with (Z.of_nat (length l1)) by lia.
        erewrite bind_Ret by exact Hshift.
        erewrite bind_Ret by exact Hbegin1.
        erewrite bind_Ret by (by apply get_obj_eq).
        eapply (destroy_at_eq _ b (length l1 + length l2)).
        - split; simpl; [done | unfold n; lia].
        - unfold h1. by rewrite lookup_insert_eq.
        - rewrite app_assoc.
          rewrite lookup_app_r by (rewrite length_app, !length_fmap; lia).
          rewrite length_app, !length_fmap.
          by rewrite Nat.sub_diag. }
    erewrite bind_Ret by (by apply decr_size_eq).
    erewrite bind_Ret.
    2:{ unfold begin_.
        erewrite bind_Ret by (by apply get_obj_eq; rewrite lookup_insert_eq).
        simpl. destruct (Nat.ltb_spec 0 (n - 1)) as [_ | ?]; [| unfold n in *; lia].
        by erewrite RawMemory_at_eq by (simpl; lia). }
    unfold ptr_add at 1; simpl.
    erewrite bind_Ret by (apply distance_same; lia).
    erewrite bind_Ret by (by apply get_obj_eq; rewrite lookup_insert_eq).
    simpl.
    erewrite RawMemory_at_eq by (simpl; unfold n in *; lia). simpl.
    f_equal.
    { unfold ptr_add; simpl. f_equal. lia. }
    unfold v', h2, h1. f_equal. rewrite insert_insert_eq. f_equal.
    rewrite app_assoc.
    rewrite insert_app_r_alt by (rewrite length_app, !length_fmap; lia).
    rewrite length_app, !length_fmap, Nat.sub_diag. simpl.
    rewrite fmap_app. f_equal.
    replace (cap - (n - 1)) with (S (cap - n)) by (unfold n in *; lia).
    done. }
  split; [exact Hrun |].
  assert (length (l1 ++ l2) = n - 1) as Hlen
    by (rewrite length_app; unfold n; lia).
  split; [| split; [| split]].
  - unfold v'. rewrite <- Hlen.
    apply vec_rep_block; [rewrite Hlen; unfold n in *; lia |].
    unfold h2. by rewrite lookup_insert_eq, Hlen.
  - unfold end_, begin_.
    erewrite bind_Ret.
    2:{ erewrite bind_Ret by (by apply get_obj_eq; rewrite lookup_insert_eq).
        simpl. destruct (Nat.ltb_spec 0 (n - 1)) as [_ | ?]; [| unfold n in *; lia].
        by erewrite RawMemory_at_eq by (simpl; lia). }
    erewrite bind_Ret by (by apply get_obj_eq; rewrite lookup_insert_eq).
    unfold ret, ptr_add; simpl. do 2 f_equal. unfold n. lia.
  - done.
  - unfold h2. by rewrite delete_insert_eq.
Qed.

End EraseKeeps.

(** For an element type whose move assignment may throw, [Erase] has no
    behaviour: the branch taken does not compile. *)
Lemma Erase_ill_formed {T E : Type} {elem : Element T E}
    (this : vaddr) (pos : ptr) (s : State T E) :
  is_nothrow_move_assignable = false -> Erase this pos s = Fault IllFormed.
Proof. intros H. unfold Erase, bind. rewrite H. reflexivity. Qed.

(** C3 (defect of the code).  The claim: [Erase] of a dereferenceable
    position of a non-empty vector removes the element and returns the
    cursor of the position, [end()] when the last element was removed.
    The code: for the vector holding the single element [7],
    [Erase(begin())] destroys the element and decrements [size_] to 0;
    the return statement then subtracts [begin()], now [nullptr], from
    [pos], a pointer into the block: the difference of two unrelated
    pointers, undefined behaviour, and no cursor is returned. *)
Theorem Erase_only_element_goes_wrong :
  Erase (elem := plain_element) Scenario.A (Scenario.slot 1 0) Scenario.one_int
  = Fault UndefinedBehaviour.
Proof. vm_compute. reflexivity. Qed.

(** ** Emplace into a full vector *)

Section EmplaceByMove.
Context {T E : Type} {elem : Element T E} {laws : ElementLaws T E}.
Implicit Types (o : gmap vaddr Vector) (h : gmap block (list (option T)))
  (e : E) (lk : list T) (sl pre rest : list (option T)) (l : list T)
  (args : CtorArgs T E).

Lemma nothrow_move_never_throws :
  is_nothrow_move_constructible = true -> ~ move_ctor_can_throw.
Proof.
  intros Hnt (x & e & Hx).
  destruct (nothrow_move_ctor x e Hnt) as [y Hy]. congruence.
Qed.

Lemma nothrow_move_relocates :
  is_nothrow_move_constructible = true -> relocate_by_move = true.
Proof. unfold relocate_by_move. by intros ->. Qed.

Lemma end_eq this b cap n o h e lk :
  0 < n -> n <= cap ->
  o !! this = Some (mkVector (mkRawMemory (Ptr (Some b) 0) cap) n) ->
  end_ this (mkState o h e lk : State T E)
  = Ret (Ptr (Some b) (Z.of_nat n)) (mkState o h e lk).
Proof.
  intros Hn Hcap Ho. unfold end_, begin_.
  erewrite bind_Ret.
  2:{ erewrite bind_Ret by (by apply get_obj_eq). simpl.
      destruct (Nat.ltb_spec 0 n) as [_ | ?]; [| lia].
      by erewrite RawMemory_at_eq by (simpl; lia). }
  by erewrite bind_Ret by (by apply get_obj_eq).
Qed.

Lemma begin_eq this b cap n o h e lk :
  0 < n -> n <= cap ->
  o !! this = Some (mkVector (mkRawMemory (Ptr (Some b) 0) cap) n) ->
  begin_ this (mkState o h e lk : State T E)
  = Ret (Ptr (Some b) 0) (mkState o h e lk).
Proof.
  intros Hn Hcap Ho. unfold begin_.
  erewrite bind_Ret by (by apply get_obj_eq). simpl.
  destruct (Nat.ltb_spec 0 n) as [_ | ?]; [| lia].
  by erewrite RawMemory_at_eq by (simpl; lia).
Qed.

(** The two relocations of the move branch: the elements in front of
    the position go to the same indices of the new block, those from
    the position on go one slot further, behind the new element. *)
Lemma Emplace_relocate_by_move this b cap l1 l2 nb ncap y rest_b rest_n o h e lk :
  is_nothrow_move_constructible = true ->
  l1 ++ l2 <> [] -> length (l1 ++ l2) <= cap -> nb <> b ->
  o !! this = Some (mkVector (mkRawMemory (Ptr (Some b) 0) cap) (length (l1 ++ l2))) ->
  h !! b = Some ((Some <$> (l1 ++ l2)) ++ rest_b) ->
  h !! nb = Some (replicate (length l1) None ++ Some y
                    :: replicate (length l2) None ++ rest_n) ->
  exists l' e',
    length l' = length (l1 ++ l2) /\
    Emplace_relocate this (Ptr (Some b) (Z.of_nat (length l1))) (length l1)
      (mkRawMemory (Ptr (Some nb) 0) ncap) (mkState o h e lk)
    = Ret tt (mkState o
                (<[nb := (Some <$> l1) ++ Some y :: (Some <$> l2) ++ rest_n]>
                   (<[b := (Some <$> l') ++ rest_b]> h)) e' lk).
Proof.
  intros Hnt Hne Hcap Hnb Ho Hb Hn.
  pose proof (nothrow_move_never_throws Hnt) as Hnothrow.
  assert (0 < length (l1 ++ l2)) as Hpos by (destruct (l1 ++ l2); simpl; [done | lia]).
  unfold Emplace_relocate.
  erewrite bind_Ret by (by apply get_obj_eq).
  rewrite (nothrow_move_relocates Hnt). simpl.
  (* the elements in front of the position *)
  destruct (uninitialized_move_n_eq l1 (Ptr (Some b) 0) (Ptr (Some nb) 0) b nb 0 0 h
              ((Some <$> (l1 ++ l2)) ++ rest_b)
              (replicate (length l1) None ++ Some y
                 :: replicate (length l2) None ++ rest_n) o e lk)
    as (l1' & e1 & Hlen1 & [Hm1 | [_ Hthrow]]); try done.
  { rewrite fmap_app, <- app_assoc. apply live_range_app_l. }
  { intros k Hk. simpl. rewrite lookup_app_l by (by rewrite length_replicate).
    by apply lookup_replicate. }
  rewrite fmap_app, <- app_assoc in Hm1.
  rewrite (list_inserts_0_r (Some <$> l1') (Some <$> l1)) in Hm1
    by (by rewrite !length_fmap).
  rewrite (list_inserts_0_r (Some <$> l1) (replicate (length l1) None)) in Hm1
    by (by rewrite length_fmap, length_replicate).
  (* the elements from the position on *)
  pose proof (live_range_middle (Some <$> l1') rest_b l2) as Hlive.
  pose proof (block_fill_middle ((Some <$> l1) ++ [Some y]) l2 (length l2))
    as Hfill.
  rewrite length_fmap in Hlive.
  rewrite length_app, length_fmap in Hfill. simpl in Hfill.
  rewrite Nat.sub_diag in Hfill. simpl in Hfill.
  destruct (uninitialized_move_n_eq l2
              (ptr_add (Ptr (Some b) 0) (Z.of_nat (length l1)))
              (ptr_add (ptr_add (Ptr (Some nb) 0) (Z.of_nat (length l1))) 1)
              b nb (length l1) (length l1 + 1)
              (<[nb := (Some <$> l1) ++ Some y :: replicate (length l2) None ++ rest_n]>
                 (<[b := (Some <$> l1') ++ (Some <$> l2) ++ rest_b]> h))
              ((Some <$> l1') ++ (Some <$> l2) ++ rest_b)
              ((Some <$> l1) ++ Some y :: replicate (length l2) None ++ rest_n)
              o e1 lk)
    as (l2' & e2 & Hlen2 & [Hm2 | [_ Hthrow]]); try done.
  { split; simpl; [done | lia]. }
  { by rewrite lookup_insert_ne, lookup_insert_eq. }
  { by rewrite lookup_insert_eq. }
  { rewrite <- Hlen1. exact Hlive. }
  { intros k Hk.
    rewrite lookup_app_r by (rewrite length_fmap; lia).
    rewrite length_fmap.
    replace (length l1 + 1 + k - length l1) with (S k) by lia. simpl.
    rewrite lookup_app_l by (by rewrite length_replicate).
    by apply lookup_replicate. }
  exists (l1' ++ l2'), e2. split; [rewrite !length_app; lia |].
  unfold try_catch.
  erewrite bind_Ret by exact Hm1.
  unfold cend. erewrite bind_Ret by (by eapply end_eq).
  erewrite bind_Ret.
  2:{ unfold count_between. by erewrite bind_Ret by apply ptr_distance_same. }
  replace (Z.to_nat (Z.of_nat (length (l1 ++ l2)) - Z.of_nat (length l1)))
    with (length l2) by (rewrite length_app; lia).
  rewrite Hm2. do 2 f_equal.
  pose proof (block_fill_middle (Some <$> l1') l2' (length l2)) as Hsrc.
  rewrite length_fmap, Hlen1 in Hsrc.
  assert (list_inserts (length l1) (Some <$> l2')
            ((Some <$> l1') ++ (Some <$> l2) ++ rest_b)
          = (Some <$> (l1' ++ l2')) ++ rest_b) as ->.
  { rewrite <- Hlen1 at 1. rewrite <- (length_fmap Some l1').
    rewrite <- (Nat.add_0_r (length (Some <$> l1'))).
    rewrite list_inserts_app_r.
    rewrite list_inserts_0_r by (by rewrite !length_fmap).
    by rewrite fmap_app, <- app_assoc. }
  assert (list_inserts (length l1 + 1) (Some <$> l2)
            ((Some <$> l1) ++ Some y :: replicate (length l2) None ++ rest_n)
          = (Some <$> l1) ++ Some y :: (Some <$> l2) ++ rest_n) as ->.
  { replace ((Some <$> l1) ++ Some y :: replicate (length l2) None ++ rest_n)
      with (((Some <$> l1) ++ [Some y]) ++ replicate (length l2) None ++ rest_n)
      by (by rewrite <- app_assoc).
    replace (length l1 + 1) with (length ((Some <$> l1) ++ [Some y]) + 0)
      by (rewrite length_app, length_fmap; simpl; lia).
    rewrite list_inserts_app_r.
    rewrite list_inserts_0_r by (by rewrite length_fmap, length_replicate).
    by rewrite <- app_assoc. }
  heap_eq.
Qed.

(** [Emplace] at position [length l1] of a full vector holding
    [l1 ++ l2], for an element type whose move constructor does not
    throw, when the constructor of the new element returns [y]: the
    vector then holds [l1 ++ y :: l2] in a new block, and the cursor
    returned points at [y]. *)
Lemma Emplace_full_by_move this b l1 l2 args y a' o h e lk s1 :
  is_nothrow_move_constructible = true ->
  l1 ++ l2 <> [] ->
  o !! this = Some (mkVector (mkRawMemory (Ptr (Some b) 0) (length (l1 ++ l2)))
                      (length (l1 ++ l2))) ->
  h !! b = Some ((Some <$> (l1 ++ l2))
                   ++ replicate (length (l1 ++ l2) - length (l1 ++ l2)) None) ->
  make_from args (mkState o h e lk) = Ret (y, a') s1 ->
  exists v' h' e',
    Emplace this (Ptr (Some b) (Z.of_nat (length l1))) args (mkState o h e lk)
    = Ret (ptr_add (buffer_ (data_ v')) (Z.of_nat (length l1)), a')
          (mkState (<[this := v']> o) h' e' lk) /\
    vec_rep v' (l1 ++ y :: l2) h' /\
    object_at (ptr_add (buffer_ (data_ v')) (Z.of_nat (length l1))) h' = Some y /\
    capacity_ (data_ v') = length (l1 ++ l2) * 2 /\
    heap_outside v' h' = delete b h.
Proof.
  intros Hnt Hne Ho Hb Hmk.
  destruct (make_from_Ret_frame args y a' o h e lk s1 Hmk) as (e1 & -> & Hmk').
  set (n := length (l1 ++ l2)) in *.
  assert (n = length l1 + length l2) as Hn by (unfold n; by rewrite length_app).
  assert (0 < n) as Hpos by (unfold n; destruct (l1 ++ l2); simpl; [done | lia]).
  set (nb := fresh (dom h)).
  assert (h !! nb = None) as Hfresh by apply fresh_block_None.
  assert (nb <> b) as Hnb by congruence.
  set (ncap := n * 2).
  set (rest_n := replicate (ncap - n - 1) (@None T)).
  assert (<[length l1 := Some y]> (replicate ncap None)
          = replicate (length l1) None ++ Some y
              :: replicate (length l2) None ++ rest_n) as Hslot.
  { rewrite insert_replicate_lt by (unfold ncap; lia). do 2 f_equal.
    unfold rest_n. rewrite <- replicate_add. f_equal. unfold ncap. lia. }
  destruct (Emplace_relocate_by_move this b n l1 l2 nb ncap y
              (replicate (n - n) None) rest_n o
              (<[nb := replicate (length l1) None ++ Some y
                         :: replicate (length l2) None ++ rest_n]> h) e1 lk)
    as (l' & e2 & Hlen' & Hreloc); try done.
  { by rewrite lookup_insert_ne. }
  { by rewrite lookup_insert_eq. }
  fold n in Hlen'.
  destruct (destroy_n_eq l' (Ptr (Some b) 0) b 0
              (<[nb := (Some <$> l1) ++ Some y :: (Some <$> l2) ++ rest_n]>
                 (<[b := (Some <$> l') ++ replicate (n - n) None]>
                    (<[nb := replicate (length l1) None ++ Some y
                               :: replicate (length l2) None ++ rest_n]> h)))
              ((Some <$> l') ++ replicate (n - n) None) o e2 lk)
    as [e3 Hd]; eauto using points_to_start, live_range_app_l.
  { by rewrite lookup_insert_ne, lookup_insert_eq. }
  rewrite Hlen' in Hd.
  rewrite (block_clear_0 l' n (n - n) n) in Hd by lia.
  set (nd := mkRawMemory (Ptr (Some nb) 0) ncap).
  set (h4 := <[b := replicate n None]>
               (<[nb := (Some <$> l1) ++ Some y :: (Some <$> l2) ++ rest_n]>
                  (<[b := (Some <$> l') ++ replicate (n - n) None]>
                     (<[nb := replicate (length l1) None ++ Some y
                                :: replicate (length l2) None ++ rest_n]> h)))) in *.
  exists (mkVector nd (n + 1)), (delete b h4), e3.
  assert (delete b h4 !! nb
          = Some ((Some <$> (l1 ++ y :: l2))
                    ++ replicate (ncap - length (l1 ++ y :: l2)) None)) as Hfinal.
  { unfold h4. rewrite lookup_delete_ne by done.
    rewrite lookup_insert_ne, lookup_insert_eq by done. f_equal.
    rewrite fmap_app, <- app_assoc. simpl. do 3 f_equal.
    unfold rest_n. f_equal. rewrite length_app. simpl. lia. }
  split; [| split; [| split; [| split]]].
  - unfold Emplace.
    unfold cbegin. erewrite bind_Ret by (by eapply begin_eq).
    erewrite bind_Ret by (apply distance_same; lia).
    replace (Z.to_nat (Z.of_nat (length l1) - 0)) with (length l1) by lia.
    erewrite bind_Ret by (by apply get_obj_eq).
    unfold Capacity, RawMemory_Capacity, Emplace_new_capacity; simpl.
    unfold Capacity, RawMemory_Capacity; simpl.
    destruct (Nat.leb_spec n n) as [_ | ?]; [| lia].
    destruct (Nat.eqb_spec n 0) as [? | _]; [lia |].
    erewrite bind_Ret.
    2:{ eapply with_RawMemory_Ret; [lia | |].
        - erewrite bind_Ret by (apply RawMemory_plus_eq; simpl; lia).
          erewrite bind_Ret.
          2:{ unfold forward_construct. erewrite bind_Ret by apply Hmk'.
              simpl. erewrite bind_Ret.
              2:{ eapply (emplace_at_raw _ nb (length l1)).
                  { split; simpl; [done | lia]. }
                  { by rewrite lookup_insert_eq. }
                  apply lookup_replicate. split; [done | lia]. }
              unfold ret. fold nb. fold ncap.
              by rewrite insert_insert_eq, Hslot. }
          erewrite bind_Ret by exact Hreloc.
          erewrite bind_Ret by exact Hd.
          erewrite bind_Ret by (by apply swap_data_local_eq).
          done.
        - eapply Deallocate_raw. unfold h4. by rewrite lookup_insert_eq. }
    erewrite bind_Ret by (by apply incr_size_eq; rewrite lookup_insert_eq).
    erewrite bind_Ret by (by apply get_obj_eq; rewrite lookup_insert_eq).
    simpl. erewrite bind_Ret by (apply RawMemory_at_eq; simpl; lia).
    unfold ret. by rewrite insert_insert_eq.
  - replace (n + 1) with (length (l1 ++ y :: l2))
      by (rewrite length_app; simpl; lia).
    apply vec_rep_block; [| done].
    rewrite length_app; simpl. unfold ncap. lia.
  - erewrite (object_at_eq _ nb (length l1)); [| by split | exact Hfinal].
    rewrite lookup_app_l
      by (rewrite length_fmap, length_app; simpl; lia).
    rewrite list_lookup_fmap.
    by rewrite lookup_app_r, Nat.sub_diag by done.
  - done.
  - unfold heap_outside, h4; simpl. heap_del_eq.
Qed.

End EmplaceByMove.

(** C2 (defect of the code).  The claim: [Emplace] into a full vector
    yields old prefix, new element, old suffix.  The code, for an
    element type relocated by copy: the suffix is copied to the slots
    starting at [offset], not [offset + 1].  On the full vector [1, 2],
    [Emplace(begin(), 9)] leaves the block [1, 2, raw, raw] with
    [size_ = 3]: the new element [9] was overwritten and never
    destroyed, the last counted slot holds no object, and the returned
    cursor points at [1]. *)
Theorem Emplace_copy_relocation_overwrites :
  Emplace (elem := budgeted_element) Scenario.A (Scenario.slot 1 0)
          (FromConstLRef 9) (Scenario.full_pair 10)
  = Ret (Scenario.slot 2 0, FromConstLRef 9)
        (mkState {[Scenario.A := Scenario.vec 2 4 3]}
                 {[2%positive := [Some 1; Some 2; None; None]]} 7 [9]).
Proof. vm_compute. reflexivity. Qed.

(** C1 (defect of the code).  The claim: when relocation by copy fails
    during growth, the vector is left as before the call, what the call
    constructed is destroyed, and the exception reaches the caller.
    The code, in [Emplace]: with one construction left to succeed, on
    the full vector [1, 2], [Emplace(begin() + 1, 9)] constructs [9],
    the copy of the first element throws, the handler destroys [9] and
    releases the new block, and, since the handler does not rethrow,
    the function goes on: it destroys [1] and [2], installs the
    released block as [data_], increments [size_] and returns a cursor.
    No exception reaches the caller; the vector claims 3 elements in a
    block that is no longer allocated.  In [EmplaceBack], same state:
    the exception does reach the caller and the vector is as before,
    but the new element [9] is never destroyed. *)
Theorem Emplace_swallows_failed_copy :
  Emplace (elem := budgeted_element) Scenario.A (Scenario.slot 1 1)
          (FromConstLRef 9) (Scenario.full_pair 1)
  = Ret (Scenario.slot 2 1, FromConstLRef 9)
        (mkState {[Scenario.A := Scenario.vec 2 4 3]} empty 0 [])
  /\
  EmplaceBack (elem := budgeted_element) Scenario.A
          (FromConstLRef 9) (Scenario.full_pair 1)
  = Throw (mkState {[Scenario.A := Scenario.vec 1 2 2]}
                   {[1%positive := [Some 1; Some 2]]} 0 [9]).
Proof. split; vm_compute; reflexivity. Qed.

(** * Further properties *)

(** The vector of a scenario is valid and holds the given elements: by
    evaluation. *)
Ltac valid_by_evaluation :=
  split; [reflexivity |]; simpl;
  split; [reflexivity |]; split; [lia | reflexivity].
Ltac holds_by_evaluation v :=
  exists v; split; [reflexivity | valid_by_evaluation].

(** ** The scope of a storage block *)

Section BlockScope.
Context {T E : Type}.
Implicit Types (s : State T E) (r : RawMemory).

(** X2.  After [RawMemory<T> fresh(std::move(other))], or after
    [fresh = std::move(other)], both
    objects hold the address of the block of [other]: the destructor of
    the second one to go releases a block that is already released. *)
Theorem RawMemory_moved_pair_releases_twice (other this : RawMemory) b sl s :
  GetAddress other = Ptr (Some b) 0 -> heap s !! b = Some sl ->
  (RawMemory_dtor (RawMemory_move_ctor other).1 >>
   RawMemory_dtor (RawMemory_move_ctor other).2) s = Fault UndefinedBehaviour /\
  (RawMemory_dtor (RawMemory_move_assign this other).1 >>
   RawMemory_dtor (RawMemory_move_assign this other).2) s = Fault UndefinedBehaviour.
Proof.
  intros Hb Hh. destruct s as [o h e lk]. destruct other as [buf cap].
  simpl in *. subst buf.
  unfold RawMemory_dtor; simpl.
  split.
  - erewrite bind_Ret by (by apply Deallocate_eq).
    unfold Deallocate; simpl. by rewrite lookup_delete_eq.
  - erewrite bind_Ret by (by apply Deallocate_eq).
    unfold Deallocate; simpl. by rewrite lookup_delete_eq.
Qed.

End BlockScope.

(** X2, witness: [RawMemory<int> other(3)], moved from. *)
Lemma RawMemory_moved_pair_releases_twice_witness :
  (RawMemory_dtor (RawMemory_move_ctor Scenario.raw3).1 >>
   RawMemory_dtor (RawMemory_move_ctor Scenario.raw3).2) Scenario.raw3_state
  = Fault UndefinedBehaviour /\
  (RawMemory_dtor (RawMemory_move_assign RawMemory_default Scenario.raw3).1 >>
   RawMemory_dtor (RawMemory_move_assign RawMemory_default Scenario.raw3).2)
    Scenario.raw3_state
  = Fault UndefinedBehaviour.
Proof.
  apply (RawMemory_moved_pair_releases_twice Scenario.raw3 RawMemory_default
           1%positive [None; None; None] Scenario.raw3_state).
  - reflexivity.
  - reflexivity.
Defined.

(** ** Access to the elements *)

Section Access.
Context {T E : Type}.
Implicit Types (o : gmap vaddr Vector) (h : gmap block (list (option T)))
  (e : E) (lk : list T) (l : list T) (s : State T E).

Lemma vec_rep_object_at (v : Vector) l h i x :
  vec_rep v l h -> l !! i = Some x ->
  object_at (ptr_add (buffer_ (data_ v)) (Z.of_nat i)) h = Some x.
Proof.
  intros Hrep Hx.
  destruct (vec_rep_inv v l h Hrep) as [[-> ->] | (b & cap & -> & Hle & Hb)];
    [done |].
  simpl. erewrite (object_at_eq _ b i); [| by split | exact Hb].
  rewrite lookup_app_l by (rewrite length_fmap; eauto using lookup_lt_Some).
  by rewrite list_lookup_fmap, Hx.
Qed.

(** X3.  [v[i]] on a valid vector holding [l]: for [i] below the size, a
    reference to the element [l[i]], the state unchanged; for any other
    [i] the [assert] fails. *)
Theorem Vector_at_checks_index (this : vaddr) l (i : nat) s :
  holds this l s ->
  match l !! i with
  | Some x => exists p, Vector_at this i s = Ret p s /\ object_at p (heap s) = Some x
  | None => Vector_at this i s = Fault AssertionFailed
  end.
Proof.
  intros (v & Ho & Hrep). destruct s as [o h e lk]; simpl in *.
  unfold Vector_at. erewrite bind_Ret by (by apply get_obj_eq).
  pose proof Hrep as [Hsz _].
  destruct (l !! i) as [x |] eqn:Hx.
  - assert (i < length l) as Hi by eauto using lookup_lt_Some.
    pose proof (vec_rep_size_le v l h Hrep) as Hcap.
    unfold Capacity, RawMemory_Capacity in Hcap.
    destruct (Nat.ltb_spec i (size_ v)) as [_ | ?]; [| lia].
    simpl. erewrite bind_Ret by done.
    eexists. split.
    { apply RawMemory_at_eq. lia. }
    by eapply vec_rep_object_at.
  - apply lookup_ge_None_1 in Hx.
    destruct (Nat.ltb_spec i (size_ v)) as [? | _]; [lia | done].
Qed.

(** X4.  The cursors of a valid vector holding [l]: [end() - begin()] is the
    size, [begin() + i] designates [l[i]], and both are [nullptr] for an
    empty vector, whatever its capacity. *)
Theorem begin_end_delimit_elements (this : vaddr) l s :
  holds this l s ->
  exists first last : ptr,
    begin_ this s = Ret first s /\ end_ this s = Ret last s /\
    cbegin this s = Ret first s /\ cend this s = Ret last s /\
    ptr_diff last first = Some (Z.of_nat (length l)) /\
    (forall i x, l !! i = Some x ->
                 object_at (ptr_add first (Z.of_nat i)) (heap s) = Some x) /\
    (l = [] -> first = nullptr /\ last = nullptr).
Proof.
  intros (v & Ho & Hrep). destruct s as [o h e lk]; simpl in *.
  unfold cbegin, cend.
  destruct (vec_rep_inv v l h Hrep) as [[-> ->] | (b & cap & -> & Hle & Hb)].
  - exists nullptr, nullptr.
    assert (begin_ this (mkState o h e lk) = Ret nullptr (mkState o h e lk)) as Hbeg.
    { unfold begin_. by erewrite bind_Ret by (by apply get_obj_eq). }
    assert (end_ this (mkState o h e lk) = Ret nullptr (mkState o h e lk)) as Hend.
    { unfold end_. erewrite bind_Ret by exact Hbeg.
      by erewrite bind_Ret by (by apply get_obj_eq). }
    repeat split; try done.
  - destruct l as [| x0 l'].
    + exists nullptr, nullptr.
      assert (begin_ this (mkState o h e lk) = Ret nullptr (mkState o h e lk)) as Hbeg.
      { unfold begin_. by erewrite bind_Ret by (by apply get_obj_eq). }
      assert (end_ this (mkState o h e lk) = Ret nullptr (mkState o h e lk)) as Hend.
      { unfold end_. erewrite bind_Ret by exact Hbeg.
        by erewrite bind_Ret by (by apply get_obj_eq). }
      repeat split; try done.
    + exists (Ptr (Some b) 0), (Ptr (Some b) (Z.of_nat (length (x0 :: l')))).
      assert (0 < length (x0 :: l')) as Hpos by (simpl; lia).
      split; [by eapply begin_eq |]. split; [by eapply end_eq |].
      split; [by eapply begin_eq |]. split; [by eapply end_eq |].
      split.
      { unfold ptr_diff; simpl. by rewrite decide_True, Z.sub_0_r by done. }
      split; [| done].
      intros i x Hx.
      apply (vec_rep_object_at
               (mkVector (mkRawMemory (Ptr (Some b) 0) cap) (length (x0 :: l')))
               (x0 :: l') h i x); [| done].
      by apply vec_rep_block.
Qed.

End Access.

(** X3, witness: [v[1]] and [v[2]] on the vector holding [1, 2]. *)
Lemma Vector_at_checks_index_witness :
  (exists p, Vector_at Scenario.A 1 (Scenario.full_pair 0)
             = Ret p (Scenario.full_pair 0) /\
             object_at p (heap (Scenario.full_pair 0)) = Some 2) /\
  Vector_at Scenario.A 2 (Scenario.full_pair 0) = Fault AssertionFailed.
Proof.
  assert (holds Scenario.A [1; 2] (Scenario.full_pair 0)) as H.
  { exists (Scenario.vec 1 2 2). split; [reflexivity |].
    split; [reflexivity |]. simpl. split; [reflexivity |]. split; [lia | reflexivity]. }
  split.
  - apply (Vector_at_checks_index Scenario.A [1; 2] 1 _ H).
  - apply (Vector_at_checks_index Scenario.A [1; 2] 2 _ H).
Defined.

(** X4, witness: the cursors of the vector holding [1, 2, 3]. *)
Lemma begin_end_delimit_elements_witness :
  exists first last : ptr,
    begin_ Scenario.A Scenario.roomy_ints = Ret first Scenario.roomy_ints /\
    end_ Scenario.A Scenario.roomy_ints = Ret last Scenario.roomy_ints /\
    cbegin Scenario.A Scenario.roomy_ints = Ret first Scenario.roomy_ints /\
    cend Scenario.A Scenario.roomy_ints = Ret last Scenario.roomy_ints /\
    ptr_diff last first = Some (Z.of_nat (length [1; 2; 3])) /\
    (forall i x, [1; 2; 3] !! i = Some x ->
                 object_at (ptr_add first (Z.of_nat i)) (heap Scenario.roomy_ints)
                 = Some x) /\
    ([1; 2; 3] = [] -> first = nullptr /\ last = nullptr).
Proof.
  apply (begin_end_delimit_elements Scenario.A [1; 2; 3] Scenario.roomy_ints).
  holds_by_evaluation (Scenario.vec 1 4 3).
Defined.

(** ** Construction, destruction and exchange of vectors *)

Section Lifetime.
Context {T E : Type} {elem : Element T E} {laws : ElementLaws T E}.
Implicit Types (o : gmap vaddr Vector) (h : gmap block (list (option T)))
  (e : E) (lk : list T) (l : list T) (s : State T E).

(** [Vector(size_t size)] with the idealised store either returns, the
    new vector then holding the objects that [size] calls of [T()]
    construct, in a block of exactly [size] slots that was not
    allocated before (no block for [size == 0]), or throws; then no
    vector exists at [this], the heap is the one before the call and
    nothing is leaked. *)
Lemma Vector_ctor_sized_run (this : vaddr) (n : nat) s :
  match Vector_ctor_sized this n s with
  | Ret _ s' =>
      exists ys v,
        value_constructed n (env s) = Some (ys, env s') /\
        objs s' = <[this := v]> (objs s) /\
        vec_rep v ys (heap s') /\ Capacity v = n /\
        heap_outside v (heap s') = heap s /\ leaked s' = leaked s
  | Throw s' => objs s' = objs s /\ heap s' = heap s /\ leaked s' = leaked s
  | Fault _ => False
  end.
Proof.
  destruct s as [o h e lk]. unfold Vector_ctor_sized.
  destruct (decide (n = 0)) as [-> | Hn].
  { simpl. exists [], (mkVector (mkRawMemory nullptr 0) 0). by repeat split. }
  erewrite bind_Ret by (by apply RawMemory_ctor_eq).
  set (nb := fresh (dom h)).
  assert (h !! nb = None) as Hfresh by apply fresh_block_None.
  pose proof (uninitialized_value_construct_n_values n (Ptr (Some nb) 0) nb 0
                (<[nb := replicate n None]> h) (replicate n None) o e lk
                (points_to_start nb)) as Hrun.
  rewrite lookup_insert_eq in Hrun. specialize (Hrun eq_refl).
  assert (raw_range (replicate n (@None T)) 0 n) as Hraw
    by (apply raw_range_replicate; lia).
  specialize (Hrun Hraw). simpl.
  destruct (value_constructed n e) as [[ys e'] |] eqn:Hval.
  - pose proof (value_constructed_length _ _ _ _ Hval) as Hlen.
    erewrite bind_Ret by (apply on_unwind_Ret; exact Hrun).
    unfold put_obj, set_objs; simpl.
    exists ys, (mkVector (mkRawMemory (Ptr (Some nb) 0) n) n).
    rewrite insert_insert_eq.
    rewrite block_fill_new by lia.
    split; [done |]. split; [done |]. split.
    { rewrite <- Hlen at 2.
      apply vec_rep_block; [lia |]. rewrite lookup_insert_eq.
      by rewrite Hlen. }
    split; [done |]. split; [| done].
    unfold heap_outside; simpl. by rewrite delete_insert_id.
  - destruct Hrun as [e' Hrun].
    erewrite bind_Throw.
    2:{ eapply on_unwind_Throw; [exact Hrun |].
        unfold RawMemory_dtor; simpl.
        eapply Deallocate_raw. by rewrite lookup_insert_eq. }
    simpl. by rewrite delete_insert_id.
Qed.
(** [Vector(const Vector& other)] for a valid [other] holding [l],
    with the idealised store: it either returns, the new vector then
    holding [l] in a block of its own of exactly [length l] slots,
    [other] untouched, or throws because a copy constructor threw; then
    no vector exists at [this], the heap is the one before the call and
    nothing is leaked. *)
Lemma Vector_ctor_copy_run (this other : vaddr) l s :
  is_copy_constructible = true -> this <> other -> holds other l s ->
  match Vector_ctor_copy this other s with
  | Ret _ s' =>
      exists v,
        objs s' = <[this := v]> (objs s) /\
        vec_rep v l (heap s') /\ Capacity v = length l /\
        heap_outside v (heap s') = heap s /\ leaked s' = leaked s /\
        holds other l s'
  | Throw s' =>
      copy_ctor_can_throw /\
      objs s' = objs s /\ heap s' = heap s /\ leaked s' = leaked s
  | Fault _ => False
  end.
Proof.
  intros Hcc Hne (vo & Ho & Hrep). destruct s as [o h e lk]; simpl in *.
  destruct l as [| x0 l'].
  - unfold Vector_ctor_copy.
    erewrite bind_Ret by (by apply get_obj_eq).
    destruct Hrep as [Hsz Hblock]. rewrite Hsz. simpl.
    exists (mkVector (mkRawMemory nullptr 0) 0).
    repeat split; try done.
    exists vo. simpl. by rewrite lookup_insert_ne.
  - destruct (vec_rep_inv vo _ h Hrep) as [[_ ?] | (b & cap & -> & Hle & Hb)];
      [done |].
    destruct (Vector_ctor_copy_cases this other (x0 :: l') b cap o h e lk)
      as (e' & [Hrun | [Hrun Hthrow]]); try done.
    + rewrite Hrun. simpl.
      set (nb := fresh (dom h)).
      assert (h !! nb = None) as Hfresh by apply fresh_block_None.
      eexists. split; [done |]. split.
      { apply (vec_rep_block nb (S (length l')) (x0 :: l')); [done |].
        rewrite lookup_insert_eq. simpl.
        by rewrite Nat.sub_diag, app_nil_r. }
      split; [done |]. split.
      { unfold heap_outside; simpl. fold nb. by rewrite delete_insert_id. }
      split; [done |].
      eexists. simpl. rewrite lookup_insert_ne by done. split; [done |].
      by apply vec_rep_insert_fresh.
    + rewrite Hrun. done.
Qed.

(** X7.  [~Vector()] on a valid vector returns: the object is gone, its
    block is released with no object alive in it (so nothing is
    leaked), and the storage outside the vector is as it was. *)
Theorem Vector_dtor_releases (this : vaddr) l s :
  holds this l s ->
  exists v s',
    objs s !! this = Some v /\
    Vector_dtor this s = Ret tt s' /\
    objs s' = delete this (objs s) /\
    heap s' = heap_outside v (heap s) /\
    leaked s' = leaked s.
Proof.
  intros (v & Ho & Hrep). destruct s as [o h e lk]; simpl in *.
  destruct (Vector_dtor_eq this v l o h e lk Ho Hrep) as [e' Hrun].
  exists v. eexists. split; [done |]. split; [exact Hrun |]. done.
Qed.

(** X8.  [a.Swap(b)] for two distinct valid vectors exchanges what they
    hold; no element is constructed, assigned or destroyed, the heap is
    untouched, and a second [a.Swap(b)] restores the state. *)
Theorem Swap_exchanges (A B : vaddr) (lA lB : list T) s :
  A <> B -> holds A lA s -> holds B lB s ->
  exists s',
    Swap A B s = Ret tt s' /\
    holds A lB s' /\ holds B lA s' /\
    heap s' = heap s /\ env s' = env s /\ leaked s' = leaked s /\
    Swap A B s' = Ret tt s.
Proof.
  intros Hne (vA & HA & HrA) (vB & HB & HrB).
  destruct s as [o h e lk]; simpl in *.
  assert (forall o' va vb, o' !! A = Some va -> o' !! B = Some vb ->
            Swap A B (mkState o' h e lk)
            = Ret tt (mkState (<[A := vb]> (<[B := va]> o')) h e lk)) as Hswap.
  { intros o' va vb Ha Hb. unfold Swap. by apply swap_members_eq. }
  eexists. split; [by apply Hswap |]. simpl.
  split. { exists vB. simpl. by rewrite lookup_insert_eq. }
  split. { exists vA. simpl. by rewrite lookup_insert_ne, lookup_insert_eq. }
  do 3 (split; [done |]).
  erewrite Hswap.
  2:{ by rewrite lookup_insert_eq. }
  2:{ by rewrite lookup_insert_ne, lookup_insert_eq. }
  f_equal. f_equal.
  apply map_eq; intros k.
  repeat (rewrite lookup_insert; case_decide; subst); congruence.
Qed.

(** X9.  [Vector(Vector&& other)] for a valid [other] holding [l] returns:
    the new vector holds [l] in the block [other] had, and [other] is
    left as a default-constructed vector, without a block; no element
    is constructed or destroyed and the heap is untouched. *)
Theorem Vector_ctor_move_takes (this other : vaddr) l s :
  this <> other -> holds other l s ->
  exists s',
    Vector_ctor_move this other s = Ret tt s' /\
    holds this l s' /\
    objs s' !! other = Some (mkVector RawMemory_default 0) /\
    holds other [] s' /\
    heap s' = heap s /\ env s' = env s /\ leaked s' = leaked s.
Proof.
  intros Hne (vo & Ho & Hrep). destruct s as [o h e lk]; simpl in *.
  unfold Vector_ctor_move.
  erewrite bind_Ret by reflexivity.
  unfold set_objs; simpl.
  erewrite (move_assignment_run this other (mkVector RawMemory_default 0) vo);
    [| done | by rewrite lookup_insert_eq | by rewrite lookup_insert_ne].
  eexists. split; [done |]. simpl.
  split. { exists vo. simpl. by rewrite lookup_insert_ne, lookup_insert_eq. }
  split. { by rewrite lookup_insert_eq. }
  split; [| done].
  exists (mkVector RawMemory_default 0). simpl. rewrite lookup_insert_eq.
  by repeat split.
Qed.

(** X10.  [PopBack()] on a valid vector: undefined behaviour when the vector
    is empty (the destructor is run on the slot before the block); when
    it holds [l' ++ [x]], it then holds [l'] in the same block with the
    same capacity, the last element destroyed and nothing else
    touched. *)
Theorem PopBack_outcomes (this : vaddr) l s :
  holds this l s ->
  (l = [] -> PopBack this s = Fault UndefinedBehaviour) /\
  (forall l' x, l = l' ++ [x] ->
     exists v s',
       objs s !! this = Some v /\
       PopBack this s = Ret tt s' /\
       objs s' = <[this := mkVector (data_ v) (length l')]> (objs s) /\
       holds this l' s' /\
       heap_outside v (heap s') = heap_outside v (heap s) /\
       leaked s' = leaked s).
Proof.
  intros (v & Ho & Hrep). destruct s as [o h e lk]; simpl in *.
  split.
  - intros ->. unfold PopBack.
    erewrite bind_Ret by (by apply get_obj_eq).
    destruct (vec_rep_inv v [] h Hrep) as [[-> _] | (b & cap & -> & Hle & Hb)].
    + done.
    + simpl. unfold bind, destroy_at, storage; simpl. rewrite Hb.
      done.
  - intros l' x ->.
    destruct (PopBack_run this v l' x o h e lk Ho Hrep)
      as (h' & e' & Hrun & Hrep' & Hout).
    exists v. eexists. split; [done |]. split; [exact Hrun |].
    simpl. split; [done |]. split; [| done].
    by apply holds_after.
Qed.

End Lifetime.

(** X7, witness: the end of the vector holding [1, 2, 3]. *)
Lemma Vector_dtor_releases_witness :
  exists v s',
    objs Scenario.roomy_ints !! Scenario.A = Some v /\
    Vector_dtor (elem := plain_element) Scenario.A Scenario.roomy_ints = Ret tt s' /\
    objs s' = delete Scenario.A (objs Scenario.roomy_ints) /\
    heap s' = heap_outside v (heap Scenario.roomy_ints) /\
    leaked s' = leaked Scenario.roomy_ints.
Proof.
  apply (Vector_dtor_releases (elem := plain_element)
           Scenario.A [1; 2; 3] Scenario.roomy_ints).
  holds_by_evaluation (Scenario.vec 1 4 3).
Defined.

(** X8, witness: [A.Swap(B)] for [A] holding [1] and [B] holding [2]. *)
Lemma Swap_exchanges_witness :
  exists s',
    Swap Scenario.A Scenario.B Scenario.two_ints = Ret tt s' /\
    holds Scenario.A [2] s' /\ holds Scenario.B [1] s' /\
    heap s' = heap Scenario.two_ints /\ env s' = env Scenario.two_ints /\
    leaked s' = leaked Scenario.two_ints /\
    Swap Scenario.A Scenario.B s' = Ret tt Scenario.two_ints.
Proof.
  apply (Swap_exchanges Scenario.A Scenario.B [1] [2] Scenario.two_ints).
  - discriminate.
  - holds_by_evaluation (Scenario.vec 1 1 1).
  - holds_by_evaluation (Scenario.vec 2 1 1).
Defined.

(** X9, witness: [Vector<int> B(std::move(A))] for [A] holding [7]. *)
Lemma Vector_ctor_move_takes_witness :
  exists s',
    Vector_ctor_move Scenario.B Scenario.A Scenario.one_int = Ret tt s' /\
    holds Scenario.B [7] s' /\
    objs s' !! Scenario.A = Some (mkVector RawMemory_default 0) /\
    holds Scenario.A [] s' /\
    heap s' = heap Scenario.one_int /\ env s' = env Scenario.one_int /\
    leaked s' = leaked Scenario.one_int.
Proof.
  apply (Vector_ctor_move_takes Scenario.B Scenario.A [7] Scenario.one_int).
  - discriminate.
  - holds_by_evaluation (Scenario.vec 1 1 1).
Defined.

(** X10, witness: [PopBack()] on the vector holding [1, 2, 3]. *)
Lemma PopBack_outcomes_witness :
  ([1; 2; 3] = [] ->
   PopBack (elem := plain_element) Scenario.A Scenario.roomy_ints
   = Fault UndefinedBehaviour) /\
  (forall l' x, [1; 2; 3] = l' ++ [x] ->
     exists v s',
       objs Scenario.roomy_ints !! Scenario.A = Some v /\
       PopBack (elem := plain_element) Scenario.A Scenario.roomy_ints = Ret tt s' /\
       objs s' = <[Scenario.A := mkVector (data_ v) (length l')]>
                   (objs Scenario.roomy_ints) /\
       holds Scenario.A l' s' /\
       heap_outside v (heap s') = heap_outside v (heap Scenario.roomy_ints) /\
       leaked s' = leaked Scenario.roomy_ints).
Proof.
  apply (PopBack_outcomes (elem := plain_element)
           Scenario.A [1; 2; 3] Scenario.roomy_ints).
  holds_by_evaluation (Scenario.vec 1 4 3).
Defined.

(** ** Capacity and size *)

Section Sizes.
Context {T E : Type} {elem : Element T E} {laws : ElementLaws T E}.
Implicit Types (o : gmap vaddr Vector) (h : gmap block (list (option T)))
  (e : E) (lk : list T) (l : list T) (s : State T E).

(** The fill of a growing [Resize] on a valid vector with room for [n]
    elements: the new elements are those [n - size] successive calls of
    [T()] construct. *)
Lemma Resize_fill_cases this (v : Vector) l n o h e lk :
  o !! this = Some v -> vec_rep v l h ->
  n <= capacity_ (data_ v) -> length l <= n ->
  match value_constructed (n - length l) e with
  | Some (ys, e2) =>
      exists h2,
        Resize_fill this n (mkState o h e lk) = Ret tt (mkState o h2 e2 lk) /\
        vec_rep (mkVector (data_ v) n) (l ++ ys) h2 /\
        heap_outside v h2 = heap_outside v h
  | None =>
      exists e2, Resize_fill this n (mkState o h e lk) = Throw (mkState o h e2 lk)
  end.
Proof.
  intros Ho Hrep Hcap Hn. unfold Resize_fill.
  erewrite bind_Ret by (by apply get_obj_eq).
  destruct (vec_rep_inv v l h Hrep) as [[-> ->] | (b & cap & -> & Hle & Hb)];
    simpl in *.
  - assert (n = 0) as -> by lia. simpl. exists h. repeat split; done.
  - pose proof (uninitialized_value_construct_n_values (n - length l)
                  (ptr_add (Ptr (Some b) 0) (Z.of_nat (length l))) b (length l) h
                  ((Some <$> l) ++ replicate (cap - length l) None) o e lk)
      as Hrun.
    destruct (value_constructed (n - length l) e) as [[ys e2] |] eqn:Hval.
    + pose proof (value_constructed_length _ _ _ _ Hval) as Hlen.
      eexists. split.
      { apply Hrun; try done.
        intros k Hk. rewrite lookup_app_r by (rewrite length_fmap; lia).
        rewrite length_fmap. apply lookup_replicate. split; [done | lia]. }
      pose proof (block_fill_middle (Some <$> l) ys (cap - length l)) as Hfill.
      rewrite length_fmap in Hfill. rewrite Hfill by lia.
      split.
      * replace n with (length (l ++ ys)) at 1 by (rewrite length_app; lia).
        apply vec_rep_block; [rewrite length_app; lia |].
        rewrite lookup_insert_eq, fmap_app, <- app_assoc, length_app.
        do 4 f_equal. lia.
      * unfold heap_outside; simpl. by rewrite delete_insert_eq.
    + apply Hrun; try done.
      intros k Hk. rewrite lookup_app_r by (rewrite length_fmap; lia).
      rewrite length_fmap. apply lookup_replicate. split; [done | lia].
Qed.

(** [Resize(n)] on a valid vector holding [l], with the idealised
    store.  It returns with [n] elements: the first [n] of [l],
    followed, when [n] is not below the size, by the objects that
    [n - size] calls of [T()] construct after [Reserve(n)]; the
    capacity is the larger of [n] and the capacity before; nothing is
    leaked and the storage outside the vector is as it was.  It throws
    only when it grows; nothing is leaked then, and unless the
    relocation moves the elements the vector still holds [l]. *)
Lemma Resize_run (this : vaddr) l (n : nat) s :
  holds this l s ->
  exists v, objs s !! this = Some v /\
    match Resize this n s with
    | Ret _ s' =>
        exists ys v',
          length ys = n - length l /\
          objs s' = <[this := v']> (objs s) /\
          vec_rep v' (take n l ++ ys) (heap s') /\
          Capacity v' = Nat.max (Capacity v) n /\
          heap_outside v' (heap s') = heap_outside v (heap s) /\
          leaked s' = leaked s /\
          (length l <= n ->
           exists s1, Reserve this n s = Ret tt s1 /\
                      value_constructed (n - length l) (env s1)
                      = Some (ys, env s'))
    | Throw s' =>
        length l < n /\ leaked s' = leaked s /\
        (relocate_by_move = false -> holds this l s')
    | Fault _ => False
    end.
Proof.
  intros (v & Ho & Hrep). destruct s as [o h e lk]; simpl in *.
  exists v. split; [done |].
  unfold Resize. erewrite bind_Ret by (by apply get_obj_eq).
  pose proof Hrep as [Hsz _]. rewrite Hsz.
  unfold Capacity, RawMemory_Capacity.
  destruct (Nat.ltb_spec n (length l)) as [Hlt | Hge].
  - (* shrink *)
    destruct (vec_rep_inv v l h Hrep) as [[_ ->] | (b & cap & -> & Hle & Hb)];
      [simpl in Hlt; lia |].
    simpl.
    destruct (destroy_n_eq (drop n l)
                (ptr_add (Ptr (Some b) 0) (Z.of_nat n)) b n h
                ((Some <$> l) ++ replicate (cap - length l) None) o e lk)
      as [e' Hd]; [by split | exact Hb | apply live_range_drop |].
    rewrite length_drop in Hd.
    erewrite bind_Ret by exact Hd.
    erewrite set_size_eq by done. simpl.
    exists [], (mkVector (mkRawMemory (Ptr (Some b) 0) cap) n).
    rewrite app_nil_r.
    assert (list_inserts n (replicate (length l - n) None)
              ((Some <$> l) ++ replicate (cap - length l) None)
            = (Some <$> take n l) ++ replicate (cap - length (take n l)) None)
      as ->.
    { pose proof (block_clear_middle (Some <$> take n l)
                    (replicate (cap - length l) None) (drop n l)) as Hclear.
      assert ((Some <$> take n l) ++ (Some <$> drop n l)
                ++ replicate (cap - length l) None
              = (Some <$> l) ++ replicate (cap - length l) None) as Heq
        by (by rewrite app_assoc, <- fmap_app, take_drop).
      rewrite Heq in Hclear.
      rewrite length_fmap, length_take_le, length_drop in Hclear by lia.
      rewrite Hclear, <- replicate_add, length_take_le by lia.
      do 2 f_equal. lia. }
    split; [simpl; lia |]. split; [done |]. split.
    { replace n with (length (take n l)) at 1 by (rewrite length_take_le; lia).
      apply vec_rep_block; [rewrite length_take_le; lia |].
      by rewrite lookup_insert_eq. }
    split; [simpl; lia |]. split.
    { unfold heap_outside; simpl. by rewrite delete_insert_eq. }
    split; [done |]. lia.
  - (* grow *)
    rewrite take_ge by done.
    destruct (Reserve_run this v l n o h e lk Ho Hrep)
      as [[Hle Hrun] | [Hgt [(v1 & h1 & e1 & Hrun & Hrep1 & Hcap & Hout)
                            | (h1 & e1 & Hrun & Hthrow)]]].
    + pose proof (Resize_fill_cases this v l n o h e lk Ho Hrep Hle Hge) as Hfill.
      destruct (value_constructed (n - length l) e) as [[ys e2] |] eqn:Hval.
      * destruct Hfill as (h2 & Hfill & Hrep2 & Hout2).
        erewrite bind_Ret.
        2:{ erewrite bind_Ret by exact Hrun. exact Hfill. }
        erewrite set_size_eq by done. simpl.
        exists ys, (mkVector (data_ v) n).
        split; [by eapply value_constructed_length |].
        split; [done |]. split; [done |].
        split; [simpl; lia |]. split; [done |]. split; [done |].
        intros _. eexists. split; [exact Hrun |]. done.
      * destruct Hfill as (e2 & Hfill).
        erewrite bind_Throw.
        2:{ erewrite bind_Ret by exact Hrun. exact Hfill. }
        simpl. split.
        { destruct (decide (length l < n)) as [? | Hn]; [done |].
          exfalso. assert (n = length l) as -> by lia.
          by rewrite Nat.sub_diag in Hval. }
        split; [done |].
        intros _. by exists v.
    + assert (n <= capacity_ (data_ v1)) as Hle1 by lia.
      pose proof (Resize_fill_cases this v1 l n (<[this := v1]> o) h1 e1 lk)
        as Hfill.
      rewrite lookup_insert_eq in Hfill.
      specialize (Hfill eq_refl Hrep1 Hle1 Hge).
      destruct (value_constructed (n - length l) e1) as [[ys e2] |] eqn:Hval.
      * destruct Hfill as (h2 & Hfill & Hrep2 & Hout2).
        erewrite bind_Ret.
        2:{ erewrite bind_Ret by exact Hrun. exact Hfill. }
        erewrite set_size_eq by (by rewrite lookup_insert_eq). simpl.
        exists ys, (mkVector (data_ v1) n).
        rewrite insert_insert_eq.
        split; [by eapply value_constructed_length |].
        split; [done |]. split; [done |].
        split; [simpl; lia |]. split.
        { change (heap_outside (mkVector (data_ v1) n) h2)
            with (heap_outside v1 h2). congruence. }
        split; [done |].
        intros _. eexists. split; [exact Hrun |]. done.
      * destruct Hfill as (e2 & Hfill).
        erewrite bind_Throw.
        2:{ erewrite bind_Ret by exact Hrun. exact Hfill. }
        simpl. split.
        { pose proof (vec_rep_size_le v l h Hrep) as Hsl.
          unfold Capacity, RawMemory_Capacity in Hsl. lia. }
        split; [done |].
        intros _. by apply holds_after.
    + erewrite bind_Throw.
      2:{ apply bind_Throw. exact Hrun. }
      simpl. split.
      { pose proof (vec_rep_size_le v l h Hrep) as Hsl.
        unfold Capacity, RawMemory_Capacity in Hsl. lia. }
      split; [done |].
      intros Hcopy. rewrite Hcopy in Hthrow. destruct Hthrow as [_ ->].
      by exists v.
Qed.

End Sizes.

(** ** Appending *)

Section Appending.
Context {T E : Type} {elem : Element T E} {laws : ElementLaws T E}.
Implicit Types (o : gmap vaddr Vector) (h : gmap block (list (option T)))
  (e : E) (lk : list T) (l : list T) (s : State T E) (args : CtorArgs T E).

Lemma vec_rep_last_object (v : Vector) l (y : T) h :
  vec_rep v (l ++ [y]) h ->
  object_at (ptr_add (buffer_ (data_ v)) (Z.of_nat (length l))) h = Some y.
Proof.
  intros Hrep.
  destruct (vec_rep_inv v _ h Hrep) as [[_ ?] | (b & cap & -> & Hle & Hb)];
    [by destruct l |].
  simpl. erewrite (object_at_eq _ b (length l)); [| by split | exact Hb].
  rewrite lookup_app_l by (rewrite length_fmap, length_app; simpl; lia).
  by rewrite list_lookup_fmap, lookup_app_r, Nat.sub_diag.
Qed.

(** X13.  [EmplaceBack(args...)] on a valid vector holding [l].  When it
    returns, the vector holds [l] followed by the object [y] the
    constructor made of the arguments, and the result refers to that
    new last element.  With a free slot the block and the capacity are
    kept; without one the elements are relocated into a new block of
    twice the capacity (of one slot for a capacity of 0) and the old
    block is released.  Nothing is leaked and the storage outside the
    vector is as it was.  When it throws, the vector object is as
    before.  It goes wrong only as a [const T&] argument for a [T] that
    cannot be copied, which does not compile. *)
Theorem EmplaceBack_outcomes (this : vaddr) l args s :
  holds this l s ->
  exists v, objs s !! this = Some v /\
    match EmplaceBack this args s with
    | Ret (p, a') s' =>
        exists y s1 v',
          make_from args s = Ret (y, a') s1 /\
          objs s' = <[this := v']> (objs s) /\
          vec_rep v' (l ++ [y]) (heap s') /\
          p = ptr_add (buffer_ (data_ v')) (Z.of_nat (length l)) /\
          object_at p (heap s') = Some y /\
          (if length l <? Capacity v then data_ v' = data_ v
           else Capacity v' = if Capacity v =? 0 then 1 else Capacity v * 2) /\
          heap_outside v' (heap s') = heap_outside v (heap s) /\
          leaked s' = leaked s
    | Throw s' => objs s' = objs s
    | Fault f => f = IllFormed /\ is_copy_constructible = false
    end.
Proof.
  intros (v & Ho & Hrep). destruct s as [o h e lk]; simpl in *.
  exists v. split; [done |].
  destruct (make_from args (mkState o h e lk)) as [[y a'] s1 | s1 | f] eqn:Hmk.
  - destruct (EmplaceBack_run this v l args y a' o h e lk s1 Ho Hrep Hmk)
      as [(v' & h' & e' & Hrun & Hrep' & Hout & Hcap) | (h' & e' & Hrun & _)];
      rewrite Hrun; [| done].
    exists y, s1, v'. simpl.
    split; [done |]. split; [done |]. split; [done |]. split; [done |].
    split; [by apply vec_rep_last_object |]. done.
  - erewrite EmplaceBack_ctor_throws; eauto using vec_rep_size_le.
    by destruct (make_from_Throw_frame args o h e lk s1 Hmk) as (e1 & -> & _).
  - pose proof (vec_rep_size_le v l h Hrep) as Hle.
    unfold Capacity, RawMemory_Capacity in Hle.
    assert (f = IllFormed /\ is_copy_constructible = false) as Hf.
    { destruct args as [x | x | x | mk]; unfold make_from in Hmk.
      - destruct is_copy_constructible; [| by injection Hmk as <-].
        simpl in Hmk. by destruct (copy_ctor x e) as [[?|] ?].
      - simpl in Hmk. by destruct (move_ctor x e) as [[[?|] ?] ?].
      - destruct is_copy_constructible; [| by injection Hmk as <-].
        simpl in Hmk. by destruct (copy_ctor x e) as [[?|] ?].
      - simpl in Hmk. by destruct (mk e) as [[?|] ?]. }
    destruct Hf as [-> Hncc].
    assert (forall o' h' lk',
              make_from args (mkState o' h' e lk') = Fault IllFormed) as Hmk'.
    { destruct (make_from_env args o h e lk)
        as [(y0 & a0 & e0 & H) | [(e0 & H) | H]]; [| | done];
        by rewrite H in Hmk. }
    assert (EmplaceBack this args (mkState o h e lk) = Fault IllFormed) as ->;
      [| done].
    unfold EmplaceBack.
    erewrite bind_Ret by (by apply get_obj_eq).
    apply bind_Fault.
    unfold Capacity, RawMemory_Capacity.
    destruct (Nat.ltb_spec (size_ v) (capacity_ (data_ v))) as [Hlt | Hge].
    + erewrite bind_Ret by (apply RawMemory_plus_eq; lia).
      unfold forward_construct. by apply bind_Fault.
    + unfold with_RawMemory.
      assert (size_ v = Capacity v) as Heq
        by (unfold Capacity, RawMemory_Capacity; lia).
      pose proof (EmplaceBack_new_capacity_pos v Heq) as Hpos.
      erewrite bind_Ret by (apply RawMemory_ctor_eq; lia).
      apply bind_Fault. unfold on_unwind, try_catch.
      erewrite bind_Ret by (by apply RawMemory_plus_eq; simpl; lia).
      unfold forward_construct.
      erewrite bind_Fault; [done |]. by apply bind_Fault.
Qed.





(** *** The growth of the capacity *)





End Appending.

(** X13, witness: [EmplaceBack(9)] on the vector holding [1, 2, 3] with
    one free slot. *)
Lemma EmplaceBack_outcomes_witness :
  exists v, objs Scenario.roomy_ints !! Scenario.A = Some v /\
    match EmplaceBack (elem := plain_element) Scenario.A (FromConstLRef 9)
            Scenario.roomy_ints with
    | Ret (p, a') s' =>
        exists y s1 v',
          make_from (elem := plain_element) (FromConstLRef 9) Scenario.roomy_ints
          = Ret (y, a') s1 /\
          objs s' = <[Scenario.A := v']> (objs Scenario.roomy_ints) /\
          vec_rep v' ([1; 2; 3] ++ [y]) (heap s') /\
          p = ptr_add (buffer_ (data_ v')) (Z.of_nat (length [1; 2; 3])) /\
          object_at p (heap s') = Some y /\
          (if length [1; 2; 3] <? Capacity v then data_ v' = data_ v
           else Capacity v' = if Capacity v =? 0 then 1 else Capacity v * 2) /\
          heap_outside v' (heap s') = heap_outside v (heap Scenario.roomy_ints) /\
          leaked s' = leaked Scenario.roomy_ints
    | Throw s' => objs s' = objs Scenario.roomy_ints
    | Fault f => f = IllFormed /\ is_copy_constructible (Element := plain_element) = false
    end.
Proof.
  apply (EmplaceBack_outcomes (laws := plain_element_laws)
           Scenario.A [1; 2; 3] (FromConstLRef 9) Scenario.roomy_ints).
  holds_by_evaluation (Scenario.vec 1 4 3).
Defined.




(** ** Removing and inserting at a position *)

Section Positions.
Context {T E : Type} {elem : Element T E} {laws : ElementLaws T E}.
Implicit Types (o : gmap vaddr Vector) (h : gmap block (list (option T)))
  (e : E) (lk : list T) (l : list T) (s : State T E) (args : CtorArgs T E).

(** X17.  [Erase(pos)] for a [T] whose move assignment is [noexcept], on a
    valid vector that holds [l1 ++ x :: l2] with another element beside
    [x], at [pos == begin() + length l1]: the vector then holds
    [l1 ++ l2] in the same block with the same capacity, the result is
    [pos], which is [end()] when [x] was the last element; nothing is
    leaked and the storage outside the vector is as it was. *)
Theorem Erase_removes_element (this : vaddr) (v : Vector) l1 (x : T) l2 s :
  is_nothrow_move_assignable = true ->
  l1 ++ l2 <> [] ->
  objs s !! this = Some v -> vec_rep v (l1 ++ x :: l2) (heap s) ->
  exists s' v',
    Erase this (ptr_add (buffer_ (data_ v)) (Z.of_nat (length l1))) s
    = Ret (ptr_add (buffer_ (data_ v)) (Z.of_nat (length l1))) s' /\
    objs s' = <[this := v']> (objs s) /\
    vec_rep v' (l1 ++ l2) (heap s') /\
    data_ v' = data_ v /\
    heap_outside v' (heap s') = heap_outside v (heap s) /\
    leaked s' = leaked s /\
    (l2 = [] ->
     end_ this s' = Ret (ptr_add (buffer_ (data_ v)) (Z.of_nat (length l1))) s').
Proof.
  intros Hnt Hne Ho Hrep. destruct s as [o h e lk]; simpl in *.
  destruct (vec_rep_inv v _ h Hrep) as [[_ ?] | (b & cap & -> & Hle & Hb)];
    [by destruct l1 |].
  destruct (Erase_keeps_others this b cap l1 x l2 o h e lk)
    as (v' & h' & e' & Hrun & Hrep' & Hend & Hdata & Hout); try done.
  eexists _, v'. split.
  { unfold ptr_add; simpl. exact Hrun. }
  simpl. split; [done |]. split; [done |]. split; [done |].
  split.
  { unfold heap_outside. by rewrite Hdata. }
  split; [done |].
  intros ->. rewrite Hend, app_nil_r. done.
Qed.

(** [Emplace] into a full vector: when the constructor of the new
    element throws or does not compile, so does [Emplace], and the
    state is the one the constructor left. *)
Lemma Emplace_full_ctor_fails this b l1 l2 args o h e lk :
  l1 ++ l2 <> [] ->
  o !! this = Some (mkVector (mkRawMemory (Ptr (Some b) 0) (length (l1 ++ l2)))
                      (length (l1 ++ l2))) ->
  (forall s1, make_from args (mkState o h e lk) = Throw s1 ->
     Emplace this (Ptr (Some b) (Z.of_nat (length l1))) args (mkState o h e lk)
     = Throw s1) /\
  (forall f, make_from args (mkState o h e lk) = Fault f ->
     Emplace this (Ptr (Some b) (Z.of_nat (length l1))) args (mkState o h e lk)
     = Fault f).
Proof.
  intros Hne Ho.
  set (n := length (l1 ++ l2)) in *.
  assert (n = length l1 + length l2) as Hn by (unfold n; by rewrite length_app).
  assert (0 < n) as Hpos by (unfold n; destruct (l1 ++ l2); simpl; [done | lia]).
  assert (forall k : RawMemory -> Comp (State T E) (CtorArgs T E * RawMemory),
            Emplace this (Ptr (Some b) (Z.of_nat (length l1))) args (mkState o h e lk)
            = (let* args' :=
                 with_RawMemory (n * 2) (fun new_data =>
                   let* slot := RawMemory_plus new_data (length l1) in
                   let* args' := forward_construct args slot in
                   Emplace_relocate this (Ptr (Some b) (Z.of_nat (length l1)))
                     (length l1) new_data >>
                   destroy_n (Ptr (Some b) 0) n >>
                   let* new_data' := swap_data_local this new_data in
                   ret (args', new_data')) in
               incr_size this >>
               let* v' := get_obj this in
               let* r := RawMemory_at (data_ v') (length l1) in
               ret (r, args')) (mkState o h e lk)) as Hunfold.
  { intros _. unfold Emplace.
    unfold cbegin. erewrite bind_Ret by (by eapply begin_eq).
    erewrite bind_Ret by (apply distance_same; lia).
    replace (Z.to_nat (Z.of_nat (length l1) - 0)) with (length l1) by lia.
    erewrite bind_Ret by (by apply get_obj_eq).
    unfold Capacity, RawMemory_Capacity, Emplace_new_capacity; simpl.
    unfold Capacity, RawMemory_Capacity; simpl.
    destruct (Nat.leb_spec n n) as [_ | ?]; [| lia].
    by destruct (Nat.eqb_spec n 0) as [? | _]; [lia |]. }
  rewrite (Hunfold (fun _ => fail IllFormed)). clear Hunfold.
  split.
  - intros s1 Hmk.
    destruct (make_from_Throw_frame args o h e lk s1 Hmk) as (e1 & -> & Hmk').
    apply bind_Throw.
    eapply with_RawMemory_Throw; [lia | |].
    + erewrite bind_Ret by (apply RawMemory_plus_eq; simpl; lia).
      apply bind_Throw. unfold forward_construct. apply bind_Throw. apply Hmk'.
    + unfold RawMemory_dtor; simpl.
      erewrite Deallocate_raw by (by rewrite lookup_insert_eq).
      by rewrite delete_insert_id by apply fresh_block_None.
  - intros f Hmk.
    assert (forall o' h' lk',
              make_from args (mkState o' h' e lk') = Fault f) as Hmk'.
    { destruct (make_from_env args o h e lk)
        as [(y0 & a0 & e0 & H) | [(e0 & H) | H]];
        rewrite H in Hmk; try done.
      injection Hmk as <-. done. }
    apply bind_Fault. unfold with_RawMemory.
    erewrite bind_Ret by (apply RawMemory_ctor_eq; lia).
    apply bind_Fault. unfold on_unwind, try_catch.
    erewrite bind_Ret by (by apply RawMemory_plus_eq; simpl; lia).
    unfold forward_construct.
    erewrite bind_Fault; [done |]. by apply bind_Fault.
Qed.

(** The outcomes of [Emplace] into a full vector for a [T] whose move
    constructor is [noexcept]. *)
Lemma Emplace_full_cases (this : vaddr) (v : Vector) l1 l2 args s :
  is_nothrow_move_constructible = true ->
  l1 ++ l2 <> [] ->
  objs s !! this = Some v -> vec_rep v (l1 ++ l2) (heap s) ->
  Capacity v = length (l1 ++ l2) ->
  match Emplace this (ptr_add (buffer_ (data_ v)) (Z.of_nat (length l1))) args s with
  | Ret (p, a') s' =>
      exists y s1 v',
        make_from args s = Ret (y, a') s1 /\
        objs s' = <[this := v']> (objs s) /\
        vec_rep v' (l1 ++ y :: l2) (heap s') /\
        p = ptr_add (buffer_ (data_ v')) (Z.of_nat (length l1)) /\
        object_at p (heap s') = Some y /\
        Capacity v' = Capacity v * 2 /\
        heap_outside v' (heap s') = heap_outside v (heap s) /\
        leaked s' = leaked s
  | Throw s' =>
      make_from args s = Throw s' /\
      objs s' = objs s /\ heap s' = heap s /\ leaked s' = leaked s
  | Fault f => f = IllFormed /\ make_from args s = Fault IllFormed
  end.
Proof.
  intros Hnt Hne Ho Hrep Hfull. destruct s as [o h e lk]; simpl in *.
  destruct (vec_rep_inv v _ h Hrep) as [[_ ?] | (b & cap & -> & Hle & Hb)];
    [done |].
  unfold Capacity, RawMemory_Capacity in *; simpl in Hfull. subst cap.
  change (ptr_add (buffer_ (data_ (mkVector (mkRawMemory (Ptr (Some b) 0)
                                               (length (l1 ++ l2)))
                                    (length (l1 ++ l2)))))
            (Z.of_nat (length l1)))
    with (Ptr (Some b) (Z.of_nat (length l1))).
  destruct (make_from args (mkState o h e lk)) as [[y a'] s1 | s1 | f] eqn:Hmk.
  - destruct (Emplace_full_by_move this b l1 l2 args y a' o h e lk s1)
      as (v' & h' & e' & Hrun & Hrep' & Hobj & Hcap & Hout); try done.
    rewrite Hrun. exists y, s1, v'. simpl.
    split; [done |]. split; [done |]. split; [done |]. split; [done |].
    split; [done |]. split; [done |]. done.
  - destruct (Emplace_full_ctor_fails this b l1 l2 args o h e lk Hne Ho)
      as [Hthrow _].
    rewrite (Hthrow s1 Hmk).
    by destruct (make_from_Throw_frame args o h e lk s1 Hmk) as (e1 & -> & _).
  - destruct (Emplace_full_ctor_fails this b l1 l2 args o h e lk Hne Ho)
      as [_ Hfault].
    rewrite (Hfault f Hmk).
    destruct (make_from_env args o h e lk)
      as [(y0 & a0 & e0 & H) | [(e0 & H) | H]];
      rewrite H in Hmk; try done.
    by injection Hmk as <-.
Qed.


(** [Insert(pos, value)] into a full vector of a [T] whose move
    constructor is [noexcept], at [pos == begin() + length l1], with
    the idealised store:
    - for an rvalue [value] it returns, the vector then holding
      [l1 ++ value :: l2];
    - for a [const T&] [value] of a copy-constructible [T] it returns,
      the vector then holding [l1 ++ value :: l2], unless the copy
      constructor throws; the call then throws and objects, heap and
      leaks are those before it. *)
Lemma Insert_full_run (this : vaddr) (v : Vector) l1 l2 (value : T) s :
  is_nothrow_move_constructible = true ->
  l1 ++ l2 <> [] ->
  objs s !! this = Some v -> vec_rep v (l1 ++ l2) (heap s) ->
  Capacity v = length (l1 ++ l2) ->
  (exists p a' s',
     Insert_move this (ptr_add (buffer_ (data_ v)) (Z.of_nat (length l1))) value s
     = Ret (p, a') s' /\
     holds this (l1 ++ value :: l2) s' /\
     object_at p (heap s') = Some value /\
     leaked s' = leaked s) /\
  (is_copy_constructible = true ->
   match Insert_const this (ptr_add (buffer_ (data_ v)) (Z.of_nat (length l1)))
           value s with
   | Ret (p, a') s' =>
       holds this (l1 ++ value :: l2) s' /\
       object_at p (heap s') = Some value /\
       leaked s' = leaked s
   | Throw s' =>
       objs s' = objs s /\ heap s' = heap s /\ leaked s' = leaked s
   | Fault _ => False
   end).
Proof.
  intros Hnt Hne Ho Hrep Hfull.
  split.
  - pose proof (Emplace_full_cases this v l1 l2 (FromRRef value) s
                  Hnt Hne Ho Hrep Hfull) as Hrun.
    unfold Insert_move.
    destruct s as [o h e lk]; simpl in *.
    pose proof (nothrow_move_ctor value e Hnt) as [y Hy].
    destruct (move_ctor value e) as [[r x'] e1] eqn:Hmv. simpl in Hy. subst r.
    pose proof (move_ctor_value _ _ _ _ _ Hmv) as ->.
    destruct (Emplace _ _ _ _) as [[p a'] s' | s' | f].
    + destruct Hrun as (y & s1 & v' & Hmk & Ho' & Hrep' & _ & Hobj & _ & _ & Hlk).
      unfold make_from in Hmk; simpl in Hmk; rewrite ?Hmv in Hmk.
      injection Hmk as <- _ _.
      exists p, a', s'. split; [done |]. split; [| done].
      exists v'. rewrite Ho'. by rewrite lookup_insert_eq.
    + destruct Hrun as [Hmk _].
      unfold make_from in Hmk; simpl in Hmk; rewrite ?Hmv in Hmk. done.
    + destruct Hrun as [_ Hmk].
      unfold make_from in Hmk; simpl in Hmk; rewrite ?Hmv in Hmk. done.
  - intros Hcc.
    pose proof (Emplace_full_cases this v l1 l2 (FromConstLRef value) s
                  Hnt Hne Ho Hrep Hfull) as Hrun.
    unfold Insert_const.
    destruct s as [o h e lk]; simpl in *.
    destruct (Emplace _ _ _ _) as [[p a'] s' | s' | f].
    + destruct Hrun as (y & s1 & v' & Hmk & Ho' & Hrep' & _ & Hobj & _ & _ & Hlk).
      unfold make_from in Hmk; rewrite ?Hcc in Hmk; cbn in Hmk.
      destruct (copy_ctor value e) as [[y0 |] e1] eqn:Hcp; [| done].
      pose proof (copy_ctor_value _ _ _ _ Hcp) as ->.
      injection Hmk as <- <- _.
      split; [| done].
      exists v'. rewrite Ho'. by rewrite lookup_insert_eq.
    + by destruct Hrun as (Hmk & ? & ? & ?).
    + destruct Hrun as [_ Hmk].
      unfold make_from in Hmk; rewrite ?Hcc in Hmk; cbn in Hmk.
      by destruct (copy_ctor value e) as [[y0 |] e1] eqn:Hcp.
Qed.

End Positions.

(** X17, witness: [Erase(begin() + 1)] on the vector holding
    [1, 2, 3]. *)
Lemma Erase_removes_element_witness :
  exists s' v',
    Erase (elem := plain_element) Scenario.A
      (ptr_add (buffer_ (data_ (Scenario.vec 1 4 3))) (Z.of_nat (length [1])))
      Scenario.roomy_ints
    = Ret (ptr_add (buffer_ (data_ (Scenario.vec 1 4 3))) (Z.of_nat (length [1]))) s' /\
    objs s' = <[Scenario.A := v']> (objs Scenario.roomy_ints) /\
    vec_rep v' ([1] ++ [3]) (heap s') /\
    data_ v' = data_ (Scenario.vec 1 4 3) /\
    heap_outside v' (heap s')
    = heap_outside (Scenario.vec 1 4 3) (heap Scenario.roomy_ints) /\
    leaked s' = leaked Scenario.roomy_ints /\
    ([3] = [] ->
     end_ Scenario.A s'
     = Ret (ptr_add (buffer_ (data_ (Scenario.vec 1 4 3))) (Z.of_nat (length [1]))) s').
Proof.
  apply (Erase_removes_element (laws := plain_element_laws)
           Scenario.A (Scenario.vec 1 4 3) [1] 2 [3] Scenario.roomy_ints).
  - reflexivity.
  - discriminate.
  - reflexivity.
  - valid_by_evaluation.
Defined.


(** ** Inserting into a vector with a free slot *)

Section Room.
Context {T E : Type} {elem : Element T E} {laws : ElementLaws T E}.
Implicit Types (o : gmap vaddr Vector) (h : gmap block (list (option T)))
  (e : E) (lk : list T) (l : list T) (s : State T E) (args : CtorArgs T E).

(** The start of [Emplace] on a vector with a free slot, up to the
    shift of the elements behind [pos]. *)
Lemma Emplace_with_room_unfold this b cap l (i : nat) args y a' o h e e1 lk :
  l <> [] -> length l < cap -> i <= length l ->
  o !! this = Some (mkVector (mkRawMemory (Ptr (Some b) 0) cap) (length l)) ->
  make_from args (mkState o h e lk) = Ret (y, a') (mkState o h e1 lk) ->
  Emplace this (Ptr (Some b) (Z.of_nat i)) args (mkState o h e lk)
  = (let* args' :=
       (on_unwind
          (move_backward_loop (Ptr (Some b) (Z.of_nat (length l)))
             (length l - i) (Ptr (Some b) (Z.of_nat (length l) + 1)))
          (fun s => Ret tt (set_env (dtor y (env s)) s)) >>
        let* slot := RawMemory_plus (mkRawMemory (Ptr (Some b) 0) cap) i in
        construct_from_local y slot >>
        ret a') in
     incr_size this >>
     let* v' := get_obj this in
     let* r := RawMemory_at (data_ v') i in
     ret (r, args')) (mkState o h e1 lk).
Proof.
  intros Hne Hlt Hi Ho Hmk.
  assert (0 < length l) as Hpos by (destruct l; simpl; [done | lia]).
  unfold Emplace.
  unfold cbegin. erewrite bind_Ret by (eapply begin_eq; [| | done]; lia).
  erewrite bind_Ret by (apply distance_same; lia).
  replace (Z.to_nat (Z.of_nat i - 0)) with i by lia.
  erewrite bind_Ret by (by apply get_obj_eq).
  unfold Capacity, RawMemory_Capacity; simpl.
  destruct (Nat.leb_spec cap (length l)) as [? | _]; [lia |].
  erewrite bind_bind_Ret by exact Hmk. simpl.
  apply bind_same_state. apply bind_same_state.
  unfold on_unwind, try_catch.
  erewrite bind_Ret by (eapply begin_eq; [| | done]; lia).
  erewrite bind_Ret by (eapply end_eq; [| | done]; lia).
  unfold move_backward, ptr_diff, ptr_add; simpl.
  rewrite decide_True by done.
  rewrite decide_True by lia.
  replace (Z.to_nat (Z.of_nat (length l) - (0 + Z.of_nat i))) with (length l - i)
    by lia.
  by rewrite Z.add_0_l.
Qed.


(** X21.  [Emplace(pos, args...)] with [pos] before [end()] on a valid
    vector that has a free slot, for a [T] that is not a trivially
    copyable implicit-lifetime type, when the constructor of the new element
    returns: [std::move_backward] starts by move-assigning the last
    element to the slot behind it, where no object has been
    constructed.  The call goes wrong. *)
Theorem Emplace_before_end_with_room_goes_wrong
    (this : vaddr) (v : Vector) l1 (x : T) l2 args (y : T) a' s s1 :
  implicit_object = None ->
  objs s !! this = Some v -> vec_rep v (l1 ++ x :: l2) (heap s) ->
  length (l1 ++ x :: l2) < Capacity v ->
  make_from args s = Ret (y, a') s1 ->
  Emplace this (ptr_add (buffer_ (data_ v)) (Z.of_nat (length l1))) args s
  = Fault UndefinedBehaviour.
Proof.
  intros Himp Ho Hrep Hroom Hmk. destruct s as [o h e lk]; simpl in *.
  destruct (make_from_Ret_frame args y a' o h e lk s1 Hmk) as (e1 & -> & _).
  destruct (vec_rep_inv v _ h Hrep) as [[_ ?] | (b & cap & -> & Hle & Hb)];
    [by destruct l1 |].
  unfold Capacity, RawMemory_Capacity in Hroom; simpl in Hroom.
  set (l := l1 ++ x :: l2) in *.
  assert (length l = length l1 + S (length l2)) as Hlen
    by (unfold l; rewrite length_app; simpl; lia).
  change (ptr_add (buffer_ (data_ (mkVector (mkRawMemory (Ptr (Some b) 0) cap)
                                    (length l))))
            (Z.of_nat (length l1)))
    with (Ptr (Some b) (0 + Z.of_nat (length l1))).
  rewrite Z.add_0_l.
  rewrite (Emplace_with_room_unfold this b cap l (length l1) args y a' o h e e1 lk);
    [| unfold l; by destruct l1 | done | lia | done | done].
  apply bind_Fault. apply bind_Fault.
  unfold on_unwind, try_catch.
  replace (length l - length l1) with (S (length l2)) by lia.
  simpl move_backward_loop.
  assert (exists z, (Some <$> l) !! (length l - 1) = Some (Some z)) as [z Hz].
  { destruct (lookup_lt_is_Some_2 l (length l - 1)) as [z Hz]; [lia |].
    exists z. by rewrite list_lookup_fmap, Hz. }
  erewrite bind_Fault; [done |].
  unfold move_assign_at.
  erewrite bind_Ret.
  2:{ eapply (load_eq _ b (length l - 1)); [| exact Hb |].
      - split; simpl; [done | lia].
      - rewrite lookup_app_l by (rewrite length_fmap; lia). exact Hz. }
  apply bind_Fault.
  unfold assignee; simpl.
  erewrite (storage_eq _ b (length l));
    [| split; simpl; [done | lia] | exact Hb
     | rewrite length_app, length_fmap, length_replicate; lia].
  rewrite lookup_app_r by (by rewrite length_fmap).
  rewrite length_fmap, Nat.sub_diag.
  rewrite lookup_replicate_2 by lia. by rewrite Himp.
Qed.

End Room.


(** X21, witness: [Emplace(begin() + 1, 9)] on the vector holding
    [1, 2] with one free slot, of the type with a user-provided copy
    constructor. *)
Lemma Emplace_before_end_with_room_goes_wrong_witness :
  Emplace (elem := budgeted_element) Scenario.A
    (ptr_add (buffer_ (data_ (Scenario.vec 2 3 2))) (Z.of_nat (length [1])))
    (FromConstLRef 9) (Scenario.reserved_pair 3)
  = Fault UndefinedBehaviour.
Proof.
  apply (Emplace_before_end_with_room_goes_wrong (elem := budgeted_element)
           Scenario.A (Scenario.vec 2 3 2) [1] 2 [] (FromConstLRef 9) 9
           (FromConstLRef 9) (Scenario.reserved_pair 3) (Scenario.reserved_pair 2)).
  - reflexivity.
  - reflexivity.
  - valid_by_evaluation.
  - unfold Capacity, RawMemory_Capacity. simpl. lia.
  - reflexivity.
Defined.

(** ** An insertion undone *)

Section Compositions.
Context {T E : Type} {elem : Element T E} {laws : ElementLaws T E}.
Implicit Types (o : gmap vaddr Vector) (h : gmap block (list (option T)))
  (e : E) (lk : list T) (l : list T) (s : State T E) (args : CtorArgs T E).

(** [Insert(pos, std::move(value))] into a full vector followed by
    [Erase] of the cursor it returned, for a [T] whose move constructor
    and move assignment are [noexcept], with the idealised store: both
    calls return, [Erase] returns the same cursor, and the vector holds
    the elements it held before, in order; nothing is leaked. *)
Lemma Insert_then_Erase_run (this : vaddr) (v : Vector) l1 l2 (value : T) s :
  is_nothrow_move_constructible = true ->
  is_nothrow_move_assignable = true ->
  l1 ++ l2 <> [] ->
  objs s !! this = Some v -> vec_rep v (l1 ++ l2) (heap s) ->
  Capacity v = length (l1 ++ l2) ->
  exists p a' s1 s2,
    Insert_move this (ptr_add (buffer_ (data_ v)) (Z.of_nat (length l1))) value s
    = Ret (p, a') s1 /\
    holds this (l1 ++ value :: l2) s1 /\
    Erase this p s1 = Ret p s2 /\
    holds this (l1 ++ l2) s2 /\
    leaked s2 = leaked s.
Proof.
  intros Hmc Hma Hne Ho Hrep Hfull. destruct s as [o h e lk]; simpl in *.
  destruct (vec_rep_inv v _ h Hrep) as [[_ ?] | (b & cap & -> & Hle & Hb)];
    [done |].
  unfold Capacity, RawMemory_Capacity in Hfull; simpl in Hfull. subst cap.
  change (ptr_add (buffer_ (data_ (mkVector (mkRawMemory (Ptr (Some b) 0)
                                               (length (l1 ++ l2)))
                                    (length (l1 ++ l2)))))
            (Z.of_nat (length l1)))
    with (Ptr (Some b) (Z.of_nat (length l1))).
  unfold Insert_move.
  destruct (make_from_rvalue value o h e lk)
    as [(x' & e1 & Hc & Hmk) | (x' & e1 & Hc & Hmk)].
  2:{ pose proof (nothrow_move_ctor value e Hmc) as [y Hy].
      rewrite Hc in Hy. done. }
  destruct (Emplace_full_by_move this b l1 l2 _ _ _ o h e lk _ Hmc Hne Ho Hb Hmk)
    as (v' & h' & e' & Hrun & Hrep' & _ & _ & _).
  destruct (vec_rep_inv v' _ h' Hrep') as [[_ ?] | (nb & ncap & -> & Hle' & Hnb)];
    [by destruct l1 |].
  destruct (Erase_keeps_others this nb ncap l1 value l2
              (<[this := mkVector (mkRawMemory (Ptr (Some nb) 0) ncap)
                           (length (l1 ++ value :: l2))]> o) h' e' lk)
    as (v2 & h2 & e2 & Herase & Hrep2 & _); try done.
  { by rewrite lookup_insert_eq. }
  eexists _, _, _, _. split; [exact Hrun |].
  split; [by apply holds_after |].
  split.
  { change (ptr_add (buffer_ (data_ (mkVector (mkRawMemory (Ptr (Some nb) 0) ncap)
                                       (length (l1 ++ value :: l2)))))
              (Z.of_nat (length l1)))
      with (Ptr (Some nb) (0 + Z.of_nat (length l1))).
    rewrite Z.add_0_l. exact Herase. }
  split; [| done].
  by apply holds_after.
Qed.

End Compositions.

(** * Properties on any free store *)

(** [operator new] may throw [std::bad_alloc], and a request of
    [n * sizeof(T)] bytes is computed in [size_t].  On any store, a
    function that allocates does what it does on the idealised one or
    throws before it has changed anything, provided the request does
    not wrap. *)

(** ** Any free store against the idealised one *)

Section Store.
Context {T E : Type} {elem : Element T E} {free_store : FreeStore}.
Implicit Types (s : State T E) (l : list T).

(** A request that does not wrap is for as many slots as asked for. *)
Lemma fits_slots (n : nat) : fits_size_t n -> slots_in (request_bytes n) = n.
Proof.
  unfold fits_size_t, slots_in, request_bytes.
  destruct size_modulus as [m |]; intros Hfit.
  - rewrite N.mod_small by done. rewrite N.div_mul by done. apply Nat2N.id.
  - rewrite N.div_mul by done. apply Nat2N.id.
Qed.

(** A step that reads the state, then a continuation that does what it
    does with the idealised store or throws at once. *)
Lemma bind_store {A B} (m : Comp (State T E) A) (k k' : A -> Comp (State T E) B) s :
  (forall a s', m s = Ret a s' ->
                s' = s /\ (k a s = k' a s \/ k a s = Throw s)) ->
  bind m k s = bind m k' s \/ bind m k s = Throw s.
Proof.
  unfold bind. destruct (m s) as [a s' | s' | f]; [| by left ..].
  intros H. by destruct (H a s' eq_refl) as [-> ?].
Qed.

Lemma then_store {A B} (m m' : Comp (State T E) A) (k : A -> Comp (State T E) B) s :
  m s = m' s \/ m s = Throw s ->
  bind m k s = bind m' k s \/ bind m k s = Throw s.
Proof.
  intros [H | H]; [left | right].
  - by apply bind_same_state.
  - by apply bind_Throw.
Qed.

Lemma get_obj_reads this s v s' :
  get_obj this s = Ret v s' -> s' = s /\ objs s !! this = Some v.
Proof.
  unfold get_obj. destruct (objs s !! this); [| done].
  by intros [= -> ->].
Qed.

Lemma begin_reads this s (p : ptr) s' : begin_ this s = Ret p s' -> s' = s.
Proof.
  unfold begin_, bind, get_obj. destruct (objs s !! this) as [v |]; [| done].
  destruct (0 <? size_ v).
  - unfold RawMemory_at, bind, assert. destruct (0 <? capacity_ (data_ v)); [| done].
    by intros [= _ ->].
  - by intros [= _ ->].
Qed.

Lemma distance_reads (first last : ptr) s (n : nat) s' :
  distance first last s = Ret n s' -> s' = s.
Proof.
  unfold distance, ptr_distance, bind. destruct (ptr_diff last first) as [d |]; [| done].
  simpl. destruct (decide (0 <= d)%Z); [| done]. by intros [= _ ->].
Qed.

(** [operator new] for a request that does not wrap: the block the
    idealised store gives, or [std::bad_alloc]. *)
Lemma Allocate_store (n : nat) s :
  fits_size_t n ->
  Allocate n s = Allocate (free_store := ideal_store) n s \/
  (n <> 0 /\ Allocate n s = Throw s).
Proof.
  intros Hfit. unfold Allocate.
  destruct (decide (n <> 0)) as [Hn |]; [| by left].
  rewrite fits_slots by done. rewrite ideal_slots.
  unfold new_succeeds at 2. simpl.
  destruct (new_succeeds _ _); [by left | by right].
Qed.

Lemma RawMemory_ctor_store (n : nat) s :
  fits_size_t n ->
  RawMemory_ctor n s = RawMemory_ctor (free_store := ideal_store) n s \/
  (n <> 0 /\ RawMemory_ctor n s = Throw s).
Proof.
  intros Hfit. unfold RawMemory_ctor.
  destruct (Allocate_store n s Hfit) as [H | [Hn H]]; [left | right].
  - by apply bind_same_state.
  - split; [done |]. by apply bind_Throw.
Qed.

Lemma with_RawMemory_store {A} (n : nat)
    (body : RawMemory -> Comp (State T E) (A * RawMemory)) s :
  fits_size_t n ->
  with_RawMemory n body s = with_RawMemory (free_store := ideal_store) n body s \/
  with_RawMemory n body s = Throw s.
Proof.
  intros Hfit. unfold with_RawMemory. apply then_store.
  destruct (RawMemory_ctor_store n s Hfit) as [H | [_ H]]; [by left | by right].
Qed.

Lemma Vector_ctor_sized_store (this : vaddr) (n : nat) s :
  fits_size_t n ->
  Vector_ctor_sized this n s = Vector_ctor_sized (free_store := ideal_store) this n s \/
  (n <> 0 /\ Vector_ctor_sized this n s = Throw s).
Proof.
  intros Hfit. unfold Vector_ctor_sized.
  destruct (RawMemory_ctor_store n s Hfit) as [H | [Hn H]]; [left | right].
  - by apply bind_same_state.
  - split; [done |]. by apply bind_Throw.
Qed.

Lemma Vector_ctor_copy_store (this other : vaddr) s :
  (forall v, objs s !! other = Some v -> fits_size_t (size_ v)) ->
  Vector_ctor_copy this other s
  = Vector_ctor_copy (free_store := ideal_store) this other s \/
  Vector_ctor_copy this other s = Throw s.
Proof.
  intros Hfit. unfold Vector_ctor_copy. apply bind_store.
  intros v s' [-> Hv]%get_obj_reads. split; [done |].
  apply then_store.
  destruct (RawMemory_ctor_store (size_ v) s (Hfit v Hv)) as [H | [_ H]];
    [by left | by right].
Qed.

Lemma Reserve_store (this : vaddr) (n : nat) s :
  (forall v, objs s !! this = Some v -> capacity_ (data_ v) < n -> fits_size_t n) ->
  Reserve this n s = Reserve (free_store := ideal_store) this n s \/
  (Reserve this n s = Throw s /\
   forall v, objs s !! this = Some v -> capacity_ (data_ v) < n).
Proof.
  intros Hfit. unfold Reserve.
  destruct (get_obj this s) as [v s' | s' | f] eqn:Hget.
  - apply get_obj_reads in Hget as Hs. destruct Hs as [-> Hv].
    rewrite (bind_Ret _ _ _ _ _ Hget), (bind_Ret _ _ _ _ _ Hget).
    unfold RawMemory_Capacity.
    destruct (Nat.leb_spec n (capacity_ (data_ v))) as [Hle | Hgt]; [by left |].
    destruct (with_RawMemory_store n
                (fun new_data => let* new_data' := MoveOrCopy this new_data in
                                 ret (tt, new_data')) s (Hfit v Hv Hgt)) as [H | H];
      [by left | right].
    split; [done |]. intros v' Hv'. rewrite Hv in Hv'. by injection Hv' as <-.
  - left. by rewrite (bind_Throw _ _ _ _ Hget), (bind_Throw _ _ _ _ Hget).
  - left. by rewrite (bind_Fault _ _ _ _ Hget), (bind_Fault _ _ _ _ Hget).
Qed.

Lemma Resize_store (this : vaddr) (n : nat) s :
  (forall v, objs s !! this = Some v -> capacity_ (data_ v) < n -> fits_size_t n) ->
  (Resize this n s = Resize (free_store := ideal_store) this n s /\
   (forall v, objs s !! this = Some v -> size_ v <= n ->
              Reserve this n s = Reserve (free_store := ideal_store) this n s)) \/
  (Resize this n s = Throw s /\
   forall v, objs s !! this = Some v -> capacity_ (data_ v) < n).
Proof.
  intros Hfit. unfold Resize.
  destruct (get_obj this s) as [v s' | s' | f] eqn:Hget.
  - apply get_obj_reads in Hget as Hs. destruct Hs as [-> Hv].
    rewrite (bind_Ret _ _ _ _ _ Hget), (bind_Ret _ _ _ _ _ Hget).
    destruct (n <? size_ v) eqn:Hlt.
    + left. split; [done |]. intros v' Hv' Hle.
      rewrite Hv in Hv'. injection Hv' as <-. apply Nat.ltb_lt in Hlt. lia.
    + destruct (Reserve_store this n s Hfit) as [Hres | [Hres Hcap]].
      * left. split; [| done].
        apply bind_same_state. by apply bind_same_state.
      * right. split; [| done]. apply bind_Throw. by apply bind_Throw.
  - left. split.
    { by rewrite (bind_Throw _ _ _ _ Hget), (bind_Throw _ _ _ _ Hget). }
    intros v Hv. unfold get_obj in Hget. by rewrite Hv in Hget.
  - left. split.
    { by rewrite (bind_Fault _ _ _ _ Hget), (bind_Fault _ _ _ _ Hget). }
    intros v Hv. unfold get_obj in Hget. by rewrite Hv in Hget.
Qed.

(** [Emplace] and [EmplaceBack], when the capacity they ask for, if
    they ask, does not wrap. *)
Lemma Emplace_store (this : vaddr) (pos : ptr) (args : CtorArgs T E) s :
  (forall v, objs s !! this = Some v -> Capacity v <= size_ v ->
             fits_size_t (Emplace_new_capacity v)) ->
  Emplace this pos args s = Emplace (free_store := ideal_store) this pos args s \/
  Emplace this pos args s = Throw s.
Proof.
  intros Hfit. unfold Emplace. apply bind_store.
  intros cb s' ->%begin_reads. split; [done |].
  apply bind_store.
  intros offset s' ->%distance_reads. split; [done |].
  apply bind_store.
  intros v s' [-> Hv]%get_obj_reads. split; [done |].
  apply then_store.
  destruct (Nat.leb_spec (Capacity v) (size_ v)); [| by left].
  apply with_RawMemory_store. by apply Hfit.
Qed.


End Store.

(** ** PushBack of an lvalue that lives in the free store *)

Section ArgumentInStore.
Context {T E : Type} {elem : Element T E} {laws : ElementLaws T E}
  {free_store : FreeStore}.
Implicit Types (o : gmap vaddr Vector) (h : gmap block (list (option T)))
  (e : E) (lk : list T) (l : list T) (s : State T E).







End ArgumentInStore.



(** ** The scope of a storage block, on any free store *)

Section BlockScopeStore.
Context {T E : Type} {free_store : FreeStore}.
Implicit Types (s : State T E) (r : RawMemory).

(** X1.  [RawMemory<T> r(n)] either returns or throws
    [std::bad_alloc], the state then untouched; for [n == 0] it
    returns, with [nullptr].  When it returns for another [n], [r] has
    capacity [n] and a block that was not allocated before, all raw,
    of as many slots as [n * sizeof(T)] bytes, the product taken in
    [size_t], have room for: [n] slots when the product does not wrap.
    The destructor of [r], run on the state the constructor left,
    restores the state before the constructor. *)
Theorem RawMemory_scope_restores (n : nat) s :
  match RawMemory_ctor n s with
  | Ret r s1 =>
      RawMemory_Capacity r = n /\
      (if decide (n = 0) then GetAddress r = nullptr /\ s1 = s
       else exists b, GetAddress r = Ptr (Some b) 0 /\
                      heap s !! b = None /\
                      heap s1 !! b
                      = Some (replicate (slots_in (request_bytes n)) None) /\
                      (fits_size_t n -> slots_in (request_bytes n) = n)) /\
      RawMemory_dtor r s1 = Ret tt s
  | Throw s' => n <> 0 /\ s' = s
  | Fault _ => False
  end.
Proof.
  destruct s as [o h e lk]. unfold RawMemory_ctor, bind, Allocate.
  destruct (decide (n <> 0)) as [Hn | Hn].
  - simpl. destruct (new_succeeds _ _); [| done].
    simpl. split; [done |]. rewrite decide_False by done. split.
    + exists (fresh (dom h)). split; [done |].
      split; [apply fresh_block_None |].
      split; [by rewrite lookup_insert_eq | apply fits_slots].
    + unfold RawMemory_dtor; simpl. unfold set_heap; simpl.
      erewrite Deallocate_raw by (by rewrite lookup_insert_eq).
      by rewrite delete_insert_id by apply fresh_block_None.
  - assert (n = 0) as -> by (destruct n; [done | by destruct Hn]).
    simpl. by repeat split.
Qed.

End BlockScopeStore.

(** X1, witness: [RawMemory<int> r(5)] on a machine whose [size_t] has
    4 bits: the request is for [20 mod 16] bytes, and [r], of capacity
    5, owns a block of one slot. *)
Lemma RawMemory_scope_restores_witness :
  exists r s1,
    RawMemory_ctor (free_store := Scenario.narrow_store) 5 Scenario.nothing
    = Ret r s1 /\
    RawMemory_Capacity r = 5 /\
    heap s1 !! 1%positive = Some [None] /\
    RawMemory_dtor r s1 = Ret tt Scenario.nothing.
Proof.
  pose proof (RawMemory_scope_restores (free_store := Scenario.narrow_store)
                5 Scenario.nothing) as H.
  destruct (RawMemory_ctor 5 Scenario.nothing) as [r s1 | s' | f] eqn:Hrun.
  - exists r, s1. destruct H as (Hcap & Hblock & Hd).
    split; [reflexivity |]. split; [exact Hcap |]. split; [| exact Hd].
    vm_compute in Hrun. injection Hrun as <- <-. reflexivity.
  - vm_compute in Hrun. discriminate Hrun.
  - destruct H.
Defined.

(** ** Construction, capacity and size, on any free store *)

Section SizesStore.
Context {T E : Type} {elem : Element T E} {laws : ElementLaws T E}
  {free_store : FreeStore}.
Implicit Types (o : gmap vaddr Vector) (h : gmap block (list (option T)))
  (e : E) (lk : list T) (l : list T) (s : State T E).

(** X5.  [Vector(size_t size)], when [size * sizeof(T)] does not wrap,
    either returns or throws.  When it returns, the new vector holds
    the objects that [size] successive calls of [T()] construct, in a
    block of exactly [size] slots that was not allocated before (no
    block for [size == 0]), and nothing is leaked.  When it throws, no
    vector exists at [this], the heap is the one before the call and
    nothing is leaked. *)
Theorem Vector_ctor_sized_outcome (this : vaddr) (n : nat) s :
  fits_size_t n ->
  match Vector_ctor_sized this n s with
  | Ret _ s' =>
      exists ys v,
        value_constructed n (env s) = Some (ys, env s') /\
        objs s' = <[this := v]> (objs s) /\
        vec_rep v ys (heap s') /\ Capacity v = n /\
        heap_outside v (heap s') = heap s /\ leaked s' = leaked s
  | Throw s' => objs s' = objs s /\ heap s' = heap s /\ leaked s' = leaked s
  | Fault _ => False
  end.
Proof.
  intros Hfit.
  destruct (Vector_ctor_sized_store this n s Hfit) as [-> | [_ ->]].
  - apply Vector_ctor_sized_run.
  - done.
Qed.

(** X6.  [Vector(const Vector& other)] for a valid [other] holding [l]
    of a copy-constructible [T], when [size * sizeof(T)] does not wrap,
    either returns or throws.  When it returns, the new vector holds
    [l] in a block of its own of exactly [length l] slots, [other] is
    untouched and nothing is leaked.  When it throws, no vector exists
    at [this], the heap is the one before the call and nothing is
    leaked. *)
Theorem Vector_ctor_copy_outcome (this other : vaddr) l s :
  is_copy_constructible = true -> this <> other -> holds other l s ->
  fits_size_t (length l) ->
  match Vector_ctor_copy this other s with
  | Ret _ s' =>
      exists v,
        objs s' = <[this := v]> (objs s) /\
        vec_rep v l (heap s') /\ Capacity v = length l /\
        heap_outside v (heap s') = heap s /\ leaked s' = leaked s /\
        holds other l s'
  | Throw s' => objs s' = objs s /\ heap s' = heap s /\ leaked s' = leaked s
  | Fault _ => False
  end.
Proof.
  intros Hcc Hne Hh Hfit.
  pose proof (Vector_ctor_copy_run this other l s Hcc Hne Hh) as Hrun.
  destruct (Vector_ctor_copy_store this other s) as [-> | ->].
  { destruct Hh as (vo & Ho & [Hsz _]). intros v Hv.
    rewrite Ho in Hv. injection Hv as <-. by rewrite Hsz. }
  - destruct (Vector_ctor_copy _ _ _) as [[] s' | s' | f]; [done | | done].
    by destruct Hrun as (_ & ? & ? & ?).
  - done.
Qed.

(** X11.  [Reserve(n)] on a valid vector [v] holding [l], when
    [n * sizeof(T)] does not wrap if [n] is above the capacity: a call
    with [n] not above the capacity changes nothing at all; otherwise
    it either returns, the vector then holding [l] in a new block of
    exactly [n] slots, the old block released, nothing leaked and the
    storage outside the vector as it was, or it throws with the vector
    object unchanged, nothing leaked and, unless the relocation moves
    the elements, the heap unchanged. *)
Theorem Reserve_outcomes (this : vaddr) (v : Vector) l (n : nat) s :
  objs s !! this = Some v -> vec_rep v l (heap s) ->
  (Capacity v < n -> fits_size_t n) ->
  match Reserve this n s with
  | Ret _ s' =>
      if n <=? Capacity v then s' = s
      else exists v',
          objs s' = <[this := v']> (objs s) /\
          vec_rep v' l (heap s') /\ Capacity v' = n /\
          heap_outside v' (heap s') = heap_outside v (heap s) /\
          leaked s' = leaked s
  | Throw s' =>
      Capacity v < n /\ objs s' = objs s /\ leaked s' = leaked s /\
      (relocate_by_move = false -> heap s' = heap s)
  | Fault _ => False
  end.
Proof.
  intros Ho Hrep Hfit.
  destruct (Reserve_store this n s) as [-> | [-> Hcap]].
  { intros v' Hv'. rewrite Ho in Hv'. by injection Hv' as <-. }
  2:{ split; [by apply Hcap |]. done. }
  destruct s as [o h e lk]; simpl in *.
  unfold Capacity, RawMemory_Capacity.
  destruct (Reserve_run this v l n o h e lk Ho Hrep)
    as [[Hle Hrun] | [Hgt [(v1 & h1 & e1 & Hrun & Hrep1 & Hcap & Hout)
                          | (h1 & e1 & Hrun & Hthrow)]]];
    rewrite Hrun.
  - by destruct (Nat.leb_spec n (capacity_ (data_ v))); [| lia].
  - destruct (Nat.leb_spec n (capacity_ (data_ v))); [lia |].
    by exists v1.
  - simpl. split; [done |]. split; [done |]. split; [done |].
    intros Hcopy. rewrite Hcopy in Hthrow. by destruct Hthrow.
Qed.

(** X12.  [Resize(n)] on a valid vector [v] holding [l], when
    [n * sizeof(T)] does not wrap if [n] is above the capacity.  When
    it returns, the vector has [n] elements: the first [n] of [l],
    followed, when [n] is not below the size, by the objects that
    [n - size] successive calls of [T()] construct once [Reserve(n)]
    has returned; the capacity is the larger of [n] and the capacity
    before, so a shrinking [Resize] keeps the block; nothing is leaked
    and the storage outside the vector is as it was.  It throws only
    when it grows; nothing is leaked then, and unless the relocation
    moves the elements the vector still holds [l].  It does not go
    wrong. *)
Theorem Resize_outcomes (this : vaddr) (v : Vector) l (n : nat) s :
  objs s !! this = Some v -> vec_rep v l (heap s) ->
  (Capacity v < n -> fits_size_t n) ->
  match Resize this n s with
  | Ret _ s' =>
      exists ys v',
        length ys = n - length l /\
        objs s' = <[this := v']> (objs s) /\
        vec_rep v' (take n l ++ ys) (heap s') /\
        Capacity v' = Nat.max (Capacity v) n /\
        heap_outside v' (heap s') = heap_outside v (heap s) /\
        leaked s' = leaked s /\
        (length l <= n ->
         exists s1, Reserve this n s = Ret tt s1 /\
                    value_constructed (n - length l) (env s1)
                    = Some (ys, env s'))
  | Throw s' =>
      length l < n /\ leaked s' = leaked s /\
      (relocate_by_move = false -> holds this l s')
  | Fault _ => False
  end.
Proof.
  intros Ho Hrep Hfit.
  assert (holds this l s) as Hh by (by exists v).
  destruct (Resize_run this l n s Hh) as (v0 & Ho0 & Hrun).
  rewrite Ho in Ho0. injection Ho0 as <-.
  destruct (Resize_store this n s) as [[-> Hres] | [-> Hcap]].
  { intros v' Hv'. rewrite Ho in Hv'. by injection Hv' as <-. }
  - destruct (Resize _ _ _) as [[] s' | s' | f]; [| done | done].
    destruct Hrun as (ys & v' & Hlen & Ho' & Hrep' & Hcap' & Hout & Hlk & Hval).
    exists ys, v'. do 6 (split; [done |]).
    intros Hle. rewrite (Hres v Ho); [by apply Hval |].
    destruct Hrep as [-> _]. done.
  - pose proof (vec_rep_size_le v l (heap s) Hrep) as Hsl.
    pose proof (Hcap v Ho) as Hlt.
    destruct Hrep as [Hsz Hblock].
    unfold Capacity, RawMemory_Capacity in Hsl.
    split; [lia |]. split; [done |].
    intros _. exists v. by split.
Qed.

End SizesStore.

(** X5, witness: [Vector<int> v(3)] on a machine with 4-byte [int] and
    64 bytes of free store. *)
Lemma Vector_ctor_sized_outcome_witness :
  match Vector_ctor_sized (elem := plain_element)
          (free_store := Scenario.small_store) Scenario.A 3 Scenario.nothing with
  | Ret _ s' =>
      exists ys v,
        value_constructed (elem := plain_element) 3 (env Scenario.nothing)
        = Some (ys, env s') /\
        objs s' = <[Scenario.A := v]> (objs Scenario.nothing) /\
        vec_rep v ys (heap s') /\ Capacity v = 3 /\
        heap_outside v (heap s') = heap Scenario.nothing /\
        leaked s' = leaked Scenario.nothing
  | Throw s' =>
      objs s' = objs Scenario.nothing /\ heap s' = heap Scenario.nothing /\
      leaked s' = leaked Scenario.nothing
  | Fault _ => False
  end.
Proof.
  apply (Vector_ctor_sized_outcome (elem := plain_element)
           (free_store := Scenario.small_store) Scenario.A 3 Scenario.nothing).
  vm_compute. reflexivity.
Defined.

(** X6, witness: a copy of the vector holding [1, 2, 3], constructed at
    [B], on a machine with 4-byte [int] and 64 bytes of free store. *)
Lemma Vector_ctor_copy_outcome_witness :
  match Vector_ctor_copy (elem := plain_element)
          (free_store := Scenario.small_store) Scenario.B Scenario.A
          Scenario.roomy_ints with
  | Ret _ s' =>
      exists v,
        objs s' = <[Scenario.B := v]> (objs Scenario.roomy_ints) /\
        vec_rep v [1; 2; 3] (heap s') /\ Capacity v = length [1; 2; 3] /\
        heap_outside v (heap s') = heap Scenario.roomy_ints /\
        leaked s' = leaked Scenario.roomy_ints /\
        holds Scenario.A [1; 2; 3] s'
  | Throw s' =>
      objs s' = objs Scenario.roomy_ints /\ heap s' = heap Scenario.roomy_ints /\
      leaked s' = leaked Scenario.roomy_ints
  | Fault _ => False
  end.
Proof.
  apply (Vector_ctor_copy_outcome (laws := plain_element_laws)
           (free_store := Scenario.small_store)
           Scenario.B Scenario.A [1; 2; 3] Scenario.roomy_ints).
  - reflexivity.
  - discriminate.
  - holds_by_evaluation (Scenario.vec 1 4 3).
  - vm_compute. reflexivity.
Defined.

(** X11, witness: [Reserve(3)] on the full vector holding [1, 2] of the
    type whose copy constructor may throw, two more constructions
    succeeding, on a machine with 64 bytes of free store. *)
Lemma Reserve_outcomes_witness :
  match Reserve (elem := budgeted_element) (free_store := Scenario.small_store)
          Scenario.A 3 (Scenario.full_pair 2) with
  | Ret _ s' =>
      if 3 <=? Capacity (Scenario.vec 1 2 2) then s' = Scenario.full_pair 2
      else exists v',
          objs s' = <[Scenario.A := v']> (objs (Scenario.full_pair 2)) /\
          vec_rep v' [1; 2] (heap s') /\ Capacity v' = 3 /\
          heap_outside v' (heap s')
          = heap_outside (Scenario.vec 1 2 2) (heap (Scenario.full_pair 2)) /\
          leaked s' = leaked (Scenario.full_pair 2)
  | Throw s' =>
      Capacity (Scenario.vec 1 2 2) < 3 /\
      objs s' = objs (Scenario.full_pair 2) /\
      leaked s' = leaked (Scenario.full_pair 2) /\
      (relocate_by_move (elem := budgeted_element) = false ->
       heap s' = heap (Scenario.full_pair 2))
  | Fault _ => False
  end.
Proof.
  apply (Reserve_outcomes (laws := budgeted_element_laws)
           (free_store := Scenario.small_store)
           Scenario.A (Scenario.vec 1 2 2) [1; 2] 3 (Scenario.full_pair 2)).
  - reflexivity.
  - valid_by_evaluation.
  - intros _. vm_compute. reflexivity.
Defined.

(** X12, witness: [Resize(5)] on the vector holding [1, 2, 3] with a
    capacity of 4, on a machine with 4-byte [int] and 64 bytes of free
    store: a growing call that allocates. *)
Lemma Resize_outcomes_witness :
  match Resize (elem := plain_element) (free_store := Scenario.small_store)
          Scenario.A 5 Scenario.roomy_ints with
  | Ret _ s' =>
      exists ys v',
        length ys = 5 - length [1; 2; 3] /\
        objs s' = <[Scenario.A := v']> (objs Scenario.roomy_ints) /\
        vec_rep v' (take 5 [1; 2; 3] ++ ys) (heap s') /\
        Capacity v' = Nat.max (Capacity (Scenario.vec 1 4 3)) 5 /\
        heap_outside v' (heap s')
        = heap_outside (Scenario.vec 1 4 3) (heap Scenario.roomy_ints) /\
        leaked s' = leaked Scenario.roomy_ints /\
        (length [1; 2; 3] <= 5 ->
         exists s1,
           Reserve (elem := plain_element) (free_store := Scenario.small_store)
             Scenario.A 5 Scenario.roomy_ints = Ret tt s1 /\
           value_constructed (elem := plain_element)
             (5 - length [1; 2; 3]) (env s1) = Some (ys, env s'))
  | Throw s' =>
      length [1; 2; 3] < 5 /\ leaked s' = leaked Scenario.roomy_ints /\
      (relocate_by_move (elem := plain_element) = false ->
       holds Scenario.A [1; 2; 3] s')
  | Fault _ => False
  end.
Proof.
  apply (Resize_outcomes (laws := plain_element_laws)
           (free_store := Scenario.small_store)
           Scenario.A (Scenario.vec 1 4 3) [1; 2; 3] 5 Scenario.roomy_ints).
  - reflexivity.
  - valid_by_evaluation.
  - intros _. vm_compute. reflexivity.
Defined.

(** ** Inserting into a full vector, on any free store *)

Section PositionsStore.
Context {T E : Type} {elem : Element T E} {laws : ElementLaws T E}
  {free_store : FreeStore}.
Implicit Types (o : gmap vaddr Vector) (h : gmap block (list (option T)))
  (e : E) (lk : list T) (l : list T) (s : State T E).

Lemma Emplace_full_store (this : vaddr) (v : Vector) l1 l2 (pos : ptr)
    (args : CtorArgs T E) s :
  l1 ++ l2 <> [] ->
  objs s !! this = Some v ->
  Capacity v = length (l1 ++ l2) ->
  fits_size_t (Capacity v * 2) ->
  Emplace this pos args s = Emplace (free_store := ideal_store) this pos args s \/
  Emplace this pos args s = Throw s.
Proof.
  intros Hne Ho Hfull Hfit. apply Emplace_store.
  intros v' Hv' _. rewrite Ho in Hv'. injection Hv' as <-.
  unfold Emplace_new_capacity.
  destruct (Nat.eqb_spec (Capacity v) 0) as [Hz | _]; [| done].
  rewrite Hz in Hfull. symmetry in Hfull.
  by apply length_zero_iff_nil in Hfull.
Qed.

(** X19.  [Insert(pos, value)] into a full vector holding [l1 ++ l2],
    not empty, of a [T] whose move constructor is [noexcept], at
    [pos == begin() + length l1], when twice the capacity times
    [sizeof(T)] does not wrap, for a [value] that is not an element of
    the vector.
    - For an rvalue [value] the call returns or throws.  When it
      returns, the vector holds [l1 ++ value :: l2], the result
      designates the new element and nothing is leaked.  When it
      throws, the state is the one before the call.
    - For a [const T&] [value] of a copy-constructible [T] the call
      returns or throws.  When it returns, the vector holds
      [l1 ++ value :: l2], the result designates the new element and
      nothing is leaked.  When it throws, objects, heap and leaks are
      those before the call.
    Neither call goes wrong. *)
Theorem Insert_into_full_vector (this : vaddr) (v : Vector) l1 l2 (value : T) s :
  is_nothrow_move_constructible = true ->
  l1 ++ l2 <> [] ->
  objs s !! this = Some v -> vec_rep v (l1 ++ l2) (heap s) ->
  Capacity v = length (l1 ++ l2) ->
  fits_size_t (Capacity v * 2) ->
  match Insert_move this (ptr_add (buffer_ (data_ v)) (Z.of_nat (length l1)))
          value s with
  | Ret (p, a') s' =>
      holds this (l1 ++ value :: l2) s' /\
      object_at p (heap s') = Some value /\
      leaked s' = leaked s
  | Throw s' => s' = s
  | Fault _ => False
  end /\
  (is_copy_constructible = true ->
   match Insert_const this (ptr_add (buffer_ (data_ v)) (Z.of_nat (length l1)))
           value s with
   | Ret (p, a') s' =>
       holds this (l1 ++ value :: l2) s' /\
       object_at p (heap s') = Some value /\
       leaked s' = leaked s
   | Throw s' =>
       objs s' = objs s /\ heap s' = heap s /\ leaked s' = leaked s
   | Fault _ => False
   end).
Proof.
  intros Hnt Hne Ho Hrep Hfull Hfit.
  destruct (Insert_full_run this v l1 l2 value s Hnt Hne Ho Hrep Hfull)
    as [(p & a' & s' & Hrun & Hh & Hobj & Hlk) Hconst].
  split.
  - unfold Insert_move in *.
    destruct (Emplace_full_store this v l1 l2
                (ptr_add (buffer_ (data_ v)) (Z.of_nat (length l1)))
                (FromRRef value) s Hne Ho Hfull Hfit) as [-> | ->]; [| done].
    by rewrite Hrun.
  - intros Hcc. specialize (Hconst Hcc). unfold Insert_const in *.
    destruct (Emplace_full_store this v l1 l2
                (ptr_add (buffer_ (data_ v)) (Z.of_nat (length l1)))
                (FromConstLRef value) s Hne Ho Hfull Hfit) as [-> | ->]; done.
Qed.

(** X23.  [Insert(pos, std::move(value))] into a full vector holding
    [l1 ++ l2], not empty, followed by [Erase] of the cursor it
    returned, for a [T] whose move constructor and move assignment are
    [noexcept], when twice the capacity times [sizeof(T)] does not
    wrap.  [Insert] returns or throws.  When it returns, the vector
    holds [l1 ++ value :: l2]; [Erase] then returns the same cursor,
    and the vector holds the elements it held before, in order, with
    nothing leaked.  When [Insert] throws, the state is the one before
    the call. *)
Theorem Insert_then_Erase_restores (this : vaddr) (v : Vector) l1 l2 (value : T) s :
  is_nothrow_move_constructible = true ->
  is_nothrow_move_assignable = true ->
  l1 ++ l2 <> [] ->
  objs s !! this = Some v -> vec_rep v (l1 ++ l2) (heap s) ->
  Capacity v = length (l1 ++ l2) ->
  fits_size_t (Capacity v * 2) ->
  match Insert_move this (ptr_add (buffer_ (data_ v)) (Z.of_nat (length l1)))
          value s with
  | Ret (p, a') s1 =>
      holds this (l1 ++ value :: l2) s1 /\
      exists s2, Erase this p s1 = Ret p s2 /\
                 holds this (l1 ++ l2) s2 /\
                 leaked s2 = leaked s
  | Throw s' => s' = s
  | Fault _ => False
  end.
Proof.
  intros Hmc Hma Hne Ho Hrep Hfull Hfit.
  destruct (Insert_then_Erase_run this v l1 l2 value s Hmc Hma Hne Ho Hrep Hfull)
    as (p & a' & s1 & s2 & Hrun & Hh & Herase & Hh2 & Hlk).
  unfold Insert_move in *.
  destruct (Emplace_full_store this v l1 l2
              (ptr_add (buffer_ (data_ v)) (Z.of_nat (length l1)))
              (FromRRef value) s Hne Ho Hfull Hfit) as [-> | ->]; [| done].
  rewrite Hrun. split; [done |]. by exists s2.
Qed.

End PositionsStore.

(** X19, witness: [Insert(begin(), 9)] into the full vector holding
    [7], on a machine with 4-byte [int] and 64 bytes of free store. *)
Lemma Insert_into_full_vector_witness :
  match Insert_move (elem := plain_element) (free_store := Scenario.small_store)
          Scenario.A
          (ptr_add (buffer_ (data_ (Scenario.vec 1 1 1)))
             (Z.of_nat (length (@nil nat))))
          9 Scenario.one_int with
  | Ret (p, a') s' =>
      holds Scenario.A ([] ++ 9 :: [7]) s' /\
      object_at p (heap s') = Some 9 /\
      leaked s' = leaked Scenario.one_int
  | Throw s' => s' = Scenario.one_int
  | Fault _ => False
  end /\
  (is_copy_constructible (Element := plain_element) = true ->
   match Insert_const (elem := plain_element) (free_store := Scenario.small_store)
           Scenario.A
           (ptr_add (buffer_ (data_ (Scenario.vec 1 1 1)))
             (Z.of_nat (length (@nil nat))))
           9 Scenario.one_int with
   | Ret (p, a') s' =>
       holds Scenario.A ([] ++ 9 :: [7]) s' /\
       object_at p (heap s') = Some 9 /\
       leaked s' = leaked Scenario.one_int
   | Throw s' =>
       objs s' = objs Scenario.one_int /\ heap s' = heap Scenario.one_int /\
       leaked s' = leaked Scenario.one_int
   | Fault _ => False
   end).
Proof.
  apply (Insert_into_full_vector (laws := plain_element_laws)
           (free_store := Scenario.small_store)
           Scenario.A (Scenario.vec 1 1 1) [] [7] 9 Scenario.one_int).
  - reflexivity.
  - discriminate.
  - reflexivity.
  - valid_by_evaluation.
  - reflexivity.
  - vm_compute. reflexivity.
Defined.

(** X23, witness: [Insert(begin(), 9)] into the full vector holding
    [7], then [Erase] of the result, on a machine with 4-byte [int] and
    64 bytes of free store. *)
Lemma Insert_then_Erase_restores_witness :
  match Insert_move (elem := plain_element) (free_store := Scenario.small_store)
          Scenario.A
          (ptr_add (buffer_ (data_ (Scenario.vec 1 1 1)))
             (Z.of_nat (length (@nil nat))))
          9 Scenario.one_int with
  | Ret (p, a') s1 =>
      holds Scenario.A ([] ++ 9 :: [7]) s1 /\
      exists s2, Erase (elem := plain_element) Scenario.A p s1 = Ret p s2 /\
                 holds Scenario.A ([] ++ [7]) s2 /\
                 leaked s2 = leaked Scenario.one_int
  | Throw s' => s' = Scenario.one_int
  | Fault _ => False
  end.
Proof.
  apply (Insert_then_Erase_restores (laws := plain_element_laws)
           (free_store := Scenario.small_store)
           Scenario.A (Scenario.vec 1 1 1) [] [7] 9 Scenario.one_int).
  - reflexivity.
  - reflexivity.
  - discriminate.
  - reflexivity.
  - valid_by_evaluation.
  - reflexivity.
  - vm_compute. reflexivity.
Defined.

(** ** Inserting before the end of a vector with a free slot *)

Section RoomAssignable.
Context {T E : Type} {elem : Element T E} {laws : ElementLaws T E}
  {free_store : FreeStore}.
Implicit Types (o : gmap vaddr Vector) (h : gmap block (list (option T)))
  (e : E) (lk : list T) (l : list T) (s : State T E) (args : CtorArgs T E).

(** A move assignment whose destination is a live object or storage in
    which an object can be assigned to. *)
Lemma move_assign_at_any ps pd b i j h sl x (dslot : option T) o e lk :
  is_nothrow_move_assignable = true -> i <> j ->
  points_to ps b i -> points_to pd b j ->
  h !! b = Some sl -> sl !! i = Some (Some x) -> sl !! j = Some dslot ->
  (dslot = None -> is_Some implicit_object) ->
  exists x' e',
    move_assign_at ps pd (mkState o h e lk)
    = Ret tt (mkState o (<[b := <[j := Some x]> (<[i := Some x']> sl)]> h) e' lk).
Proof.
  intros Hnt Hij Hps Hpd Hh Hx Hd Himp.
  destruct dslot as [d |]; [by eapply move_assign_at_eq |].
  destruct (Himp eq_refl) as [d Hd0].
  unfold move_assign_at.
  erewrite bind_Ret by (by eapply load_eq).
  erewrite bind_Ret.
  2:{ unfold assignee; simpl.
      erewrite storage_eq by eauto using lookup_lt_Some.
      by rewrite Hd, Hd0. }
  simpl.
  pose proof (nothrow_move_assign d x e Hnt) as Hok.
  destruct (move_assign d x e) as [[[ok d'] x'] e'] eqn:Hm. simpl in Hok. subst ok.
  apply move_assign_value in Hm as ->.
  unfold set_env; simpl.
  erewrite bind_Ret by (by eapply store_eq).
  erewrite bind_Ret.
  2:{ unfold assign; simpl.
      erewrite storage_eq;
        [| done | by rewrite lookup_insert_eq
         | rewrite length_insert; eauto using lookup_lt_Some].
      by rewrite list_lookup_insert_ne, Hd, Hd0 by done. }
  exists x', e'. unfold ret, set_heap; simpl. by rewrite insert_insert_eq.
Qed.

(** The loop of [std::move_backward] that shifts the elements [xs] one
    slot to the back: the first of the slots keeps a moved-from
    object. *)
Lemma move_backward_shift xs : forall (last d_last : ptr) b pre (dslot : option T)
    rest o h e lk,
  is_nothrow_move_assignable = true ->
  (dslot = None -> is_Some implicit_object) ->
  points_to last b (length pre + length xs) ->
  points_to d_last b (length pre + length xs + 1) ->
  h !! b = Some (pre ++ (Some <$> xs) ++ dslot :: rest) ->
  exists w e',
    move_backward_loop last (length xs) d_last (mkState o h e lk)
    = Ret tt (mkState o (<[b := pre ++ w :: (Some <$> xs) ++ rest]> h) e' lk) /\
    (xs = [] -> w = dslot) /\ (xs <> [] -> is_Some w).
Proof.
  induction xs as [| z xs IH] using rev_ind;
    intros last d_last b pre dslot rest o h e lk Hnt Himp Hl Hd Hh.
  - exists dslot, e. simpl. split; [| done].
    unfold ret. by rewrite insert_id.
  - rewrite length_app in *. simpl length in *.
    replace (length xs + 1) with (S (length xs)) in * by lia.
    simpl move_backward_loop.
    assert (points_to (ptr_add last (-1)) b (length pre + length xs)) as Hl'.
    { destruct Hl as [Hb Ho]. split; [done |]. simpl. lia. }
    assert (points_to (ptr_add d_last (-1)) b (length pre + length xs + 1)) as Hd'.
    { destruct Hd as [Hb Ho]. split; [done |]. simpl. lia. }
    destruct (move_assign_at_any (ptr_add last (-1)) (ptr_add d_last (-1)) b
                (length pre + length xs) (length pre + length xs + 1) h
                (pre ++ (Some <$> xs ++ [z]) ++ dslot :: rest) z dslot o e lk)
      as (z' & e1 & Hm); try done.
    { lia. }
    { rewrite lookup_app_r by lia. rewrite fmap_app, <- app_assoc.
      rewrite lookup_app_r by (rewrite length_fmap; lia).
      rewrite length_fmap.
      by replace (length pre + length xs - length pre - length xs) with 0 by lia. }
    { rewrite lookup_app_r by lia. rewrite fmap_app, <- app_assoc.
      rewrite lookup_app_r by (rewrite length_fmap; lia).
      rewrite length_fmap.
      by replace (length pre + length xs + 1 - length pre - length xs) with 1
        by lia. }
    erewrite bind_Ret by exact Hm.
    destruct (IH (ptr_add last (-1)) (ptr_add d_last (-1)) b pre (Some z')
                (Some z :: rest) o
                (<[b := <[length pre + length xs + 1 := Some z]>
                          (<[length pre + length xs := Some z']>
                             (pre ++ (Some <$> xs ++ [z]) ++ dslot :: rest))]> h)
                e1 lk) as (w & e2 & Hrec & Hnil & Hcons); try done.
    { rewrite lookup_insert_eq. f_equal.
      rewrite fmap_app, <- !app_assoc. simpl.
      rewrite (insert_app_r_alt _ _ (length pre + length xs)) by lia.
      rewrite (insert_app_r_alt _ _ (length pre + length xs - length pre))
        by (rewrite length_fmap; lia).
      rewrite length_fmap.
      replace (length pre + length xs - length pre - length xs) with 0 by lia.
      simpl.
      rewrite (insert_app_r_alt _ _ (length pre + length xs + 1)) by lia.
      rewrite (insert_app_r_alt _ _ (length pre + length xs + 1 - length pre))
        by (rewrite length_fmap; lia).
      rewrite length_fmap.
      by replace (length pre + length xs + 1 - length pre - length xs) with 1
        by lia. }
    exists w, e2. split.
    + rewrite Hrec. do 2 f_equal. rewrite insert_insert_eq. f_equal.
      by rewrite fmap_app, <- !app_assoc.
    + split; [by destruct xs |]. intros _.
      destruct xs as [| x0 xs']; [by rewrite Hnil | by apply Hcons].
Qed.

Lemma bind_ext_at {A B} (m : Comp (State T E) A) (k k' : A -> Comp (State T E) B) s :
  (forall a s', m s = Ret a s' -> k a s' = k' a s') ->
  bind m k s = bind m k' s.
Proof. unfold bind. destruct (m s); [| done ..]. intros H. by apply H. Qed.

(** [Emplace] into a vector with a free slot asks the free store for
    nothing. *)
Lemma Emplace_room_store (this : vaddr) (v : Vector) (pos : ptr) args s :
  objs s !! this = Some v -> size_ v < Capacity v ->
  Emplace this pos args s = Emplace (free_store := ideal_store) this pos args s.
Proof.
  intros Ho Hroom. unfold Emplace. apply bind_ext_at.
  intros cb s' ->%begin_reads. apply bind_ext_at.
  intros offset s' ->%distance_reads. apply bind_ext_at.
  intros v' s' [-> Hv']%get_obj_reads.
  rewrite Ho in Hv'. injection Hv' as <-.
  by destruct (Nat.leb_spec (Capacity v) (size_ v)); [lia |].
Qed.

(** X24.  [Emplace(pos, args...)] with [pos] before [end()] on a valid
    vector that has a free slot and holds [l1 ++ x :: l2], at
    [pos == begin() + length l1], for a trivially copyable
    implicit-lifetime [T] (so that the assignment into the slot behind
    the last element is defined) whose move assignment is [noexcept],
    when the constructor of the new element returns [y].  The call
    returns or throws; it asks the free store for nothing.  When it
    returns, the vector holds [l1 ++ y :: x :: l2] in the same block,
    the result is [pos] and designates [y], and the storage outside
    the vector is as it was; the new element was constructed in the
    storage of the moved-from [x], which was not destroyed: that one
    object is added to the leaks.  When it throws, the vector object
    has the size and the block it had, and no leak is added. *)
Theorem Emplace_before_end_with_room
    (this : vaddr) (v : Vector) l1 (x : T) l2 args (y : T) a' s s1 :
  is_Some implicit_object ->
  is_nothrow_move_assignable = true ->
  objs s !! this = Some v -> vec_rep v (l1 ++ x :: l2) (heap s) ->
  length (l1 ++ x :: l2) < Capacity v ->
  make_from args s = Ret (y, a') s1 ->
  match Emplace this (ptr_add (buffer_ (data_ v)) (Z.of_nat (length l1))) args s with
  | Ret (p, a'') s' =>
      a'' = a' /\
      objs s' = <[this := mkVector (data_ v) (length (l1 ++ x :: l2) + 1)]> (objs s) /\
      vec_rep (mkVector (data_ v) (length (l1 ++ x :: l2) + 1))
        (l1 ++ y :: x :: l2) (heap s') /\
      p = ptr_add (buffer_ (data_ v)) (Z.of_nat (length l1)) /\
      object_at p (heap s') = Some y /\
      heap_outside v (heap s') = heap_outside v (heap s) /\
      exists x', leaked s' = leaked s ++ [x']
  | Throw s' =>
      objs s' = objs s /\
      heap_outside v (heap s') = heap_outside v (heap s) /\
      leaked s' = leaked s
  | Fault _ => False
  end.
Proof.
  intros Himp Hnt Ho Hrep Hroom Hmk.
  rewrite (Emplace_room_store this v _ _ _ Ho);
    [| by destruct Hrep as [-> _]].
  destruct s as [o h e lk]; simpl in *.
  destruct (make_from_Ret_frame args y a' o h e lk s1 Hmk) as (e1 & -> & _).
  destruct (vec_rep_inv v _ h Hrep) as [[_ ?] | (b & cap & -> & Hle & Hb)];
    [by destruct l1 |].
  unfold Capacity, RawMemory_Capacity in Hroom; simpl in Hroom.
  set (l := l1 ++ x :: l2) in *.
  assert (length l = length l1 + S (length l2)) as Hlen
    by (unfold l; rewrite length_app; simpl; lia).
  change (ptr_add (buffer_ (data_ (mkVector (mkRawMemory (Ptr (Some b) 0) cap)
                                    (length l))))
            (Z.of_nat (length l1)))
    with (Ptr (Some b) (0 + Z.of_nat (length l1))).
  rewrite Z.add_0_l.
  rewrite (Emplace_with_room_unfold this b cap l (length l1) args y a' o h e e1 lk);
    [| unfold l; by destruct l1 | done | lia | done | done].
  replace (length l - length l1) with (length (x :: l2)) by (simpl; lia).
  set (rest := replicate (cap - length l - 1) (@None T)).
  assert (h !! b = Some ((Some <$> l1) ++ (Some <$> x :: l2) ++ None :: rest))
    as Hb'.
  { rewrite Hb. f_equal. unfold l, rest. rewrite fmap_app, <- app_assoc.
    do 2 f_equal.
    by replace (cap - length (l1 ++ x :: l2))
      with (S (cap - length (l1 ++ x :: l2) - 1)) by (fold l; lia). }
  destruct (move_backward_shift (x :: l2)
              (Ptr (Some b) (Z.of_nat (length l)))
              (Ptr (Some b) (Z.of_nat (length l) + 1)) b (Some <$> l1) None rest
              o h e1 lk) as (w & e2 & Hshift & _ & Hw); try done.
  { split; [done |]. simpl. rewrite length_fmap. lia. }
  { split; [done |]. simpl. rewrite length_fmap. lia. }
  destruct Hw as [x0 ->]; [done |].
  set (h1 := <[b := (Some <$> l1) ++ Some x0 :: (Some <$> x :: l2) ++ rest]> h) in *.
  unfold Capacity, RawMemory_Capacity. simpl.
  destruct (move_ctor y e2) as [[[y' |] obj'] e3] eqn:Hmv.
  - pose proof (move_ctor_value _ _ _ _ _ Hmv) as ->.
    erewrite bind_Ret.
    2:{ erewrite bind_Ret by (apply on_unwind_Ret; exact Hshift).
        erewrite bind_Ret by (apply RawMemory_plus_eq; simpl; lia).
        erewrite bind_Ret; [done |].
        unfold construct_from_local; simpl. rewrite Hmv.
        erewrite bind_Ret; [done |].
        unfold emplace_at, set_env; simpl.
        erewrite (storage_eq _ b (length l1));
          [| split; simpl; [done | lia] | unfold h1; by rewrite lookup_insert_eq
           | rewrite length_app, length_fmap; simpl; lia].
        rewrite lookup_app_r by (by rewrite length_fmap).
        rewrite length_fmap, Nat.sub_diag. simpl. done. }
    erewrite bind_Ret by (by apply incr_size_eq).
    erewrite bind_Ret by (by apply get_obj_eq; rewrite lookup_insert_eq).
    simpl. erewrite bind_Ret by (by apply RawMemory_at_eq; simpl; lia).
    unfold ret, add_leaked, set_heap. simpl.
    unfold h1. rewrite insert_insert_eq.
    rewrite insert_app_r_alt by (by rewrite length_fmap).
    rewrite length_fmap, Nat.sub_diag. simpl.
    assert (length l + 1 = length (l1 ++ y :: x :: l2)) as Hlen'
      by (rewrite length_app; simpl; lia).
    split; [done |]. split; [done |]. split.
    { rewrite Hlen'. apply vec_rep_block; [rewrite <- Hlen'; lia |].
      rewrite lookup_insert_eq. f_equal.
      rewrite fmap_app. simpl. rewrite <- app_assoc. simpl.
      do 4 f_equal. unfold rest. f_equal. lia. }
    split; [unfold ptr_add; simpl; by rewrite Z.add_0_l |].
    split.
    { erewrite (object_at_eq _ b (length l1));
        [| split; simpl; [done | lia] | by rewrite lookup_insert_eq].
      rewrite lookup_app_r by (by rewrite length_fmap).
      by rewrite length_fmap, Nat.sub_diag. }
    split; [| by exists x0].
    unfold heap_outside; simpl. by rewrite delete_insert_eq.
  - erewrite bind_Throw.
    2:{ erewrite bind_Ret by (apply on_unwind_Ret; exact Hshift).
        erewrite bind_Ret by (apply RawMemory_plus_eq; simpl; lia).
        apply bind_Throw.
        unfold construct_from_local; simpl. by rewrite Hmv. }
    simpl. split; [done |]. split; [| done].
    unfold heap_outside, h1; simpl. by rewrite delete_insert_eq.
Qed.

End RoomAssignable.

(** X24, witness: [Emplace(begin() + 1, 9)] on the [Vector<int>]
    holding [1, 2, 3] with one free slot. *)
Lemma Emplace_before_end_with_room_witness :
  match Emplace (elem := plain_element) (free_store := Scenario.small_store)
          Scenario.A
          (ptr_add (buffer_ (data_ (Scenario.vec 1 4 3))) (Z.of_nat (length [1])))
          (FromConstLRef 9) Scenario.roomy_ints with
  | Ret (p, a'') s' =>
      a'' = FromConstLRef 9 /\
      objs s' = <[Scenario.A := mkVector (data_ (Scenario.vec 1 4 3))
                                 (length ([1] ++ 2 :: [3]) + 1)]>
                  (objs Scenario.roomy_ints) /\
      vec_rep (mkVector (data_ (Scenario.vec 1 4 3)) (length ([1] ++ 2 :: [3]) + 1))
        ([1] ++ 9 :: 2 :: [3]) (heap s') /\
      p = ptr_add (buffer_ (data_ (Scenario.vec 1 4 3))) (Z.of_nat (length [1])) /\
      object_at p (heap s') = Some 9 /\
      heap_outside (Scenario.vec 1 4 3) (heap s')
      = heap_outside (Scenario.vec 1 4 3) (heap Scenario.roomy_ints) /\
      exists x', leaked s' = leaked Scenario.roomy_ints ++ [x']
  | Throw s' =>
      objs s' = objs Scenario.roomy_ints /\
      heap_outside (Scenario.vec 1 4 3) (heap s')
      = heap_outside (Scenario.vec 1 4 3) (heap Scenario.roomy_ints) /\
      leaked s' = leaked Scenario.roomy_ints
  | Fault _ => False
  end.
Proof.
  apply (Emplace_before_end_with_room (laws := plain_element_laws)
           (free_store := Scenario.small_store)
           Scenario.A (Scenario.vec 1 4 3) [1] 2 [3] (FromConstLRef 9) 9
           (FromConstLRef 9) Scenario.roomy_ints Scenario.roomy_ints).
  - by exists 0.
  - reflexivity.
  - reflexivity.
  - valid_by_evaluation.
  - unfold Capacity, RawMemory_Capacity. simpl. lia.
  - reflexivity.
Defined.
